(** * file-commander core: [CFileSystemObject]

    A shallow embedding of [file-commander-core/src/cfilesystemobject.cpp]
    and the properties of its natural-language specification.

    The C++ class keeps a cached snapshot of a path's metadata and offers
    per-object operations (atomic move, chunked copy, cancel, writability
    toggle).  The methods are translated one by one; the toolkit (Qt) and
    operating-system calls they make are modelled in [QtPath], [QFileInfoM],
    [QFileM], [QDirM], [Win32API] and [PosixAPI] over an explicit [World]. *)

From Stdlib Require Import ZArith Ascii String List Lia Bool Sorted.
From Equations Require Import Equations.
From stdpp Require Import base option gmap strings list.

Local Open Scope string_scope.
Local Open Scope Z_scope.

(** The two families of targets the source distinguishes with
    [#ifdef _WIN32] / [#if defined __linux__ || defined __APPLE__]. *)
Inductive Platform : Set := Win32 | Posix.

(** [QString] is a sequence of code units; the model keeps the code units
    U+0000..U+00FF, one [ascii] each.  [QByteArray] is a sequence of bytes. *)
Abbreviation QString := string.
Abbreviation QByteArray := (list Byte.byte).

(** ** String helpers ([QString] members used by the source) *)
Module QStr.

Definition length (s : QString) : nat := String.length s.

Definition isEmpty (s : QString) : bool :=
  match s with EmptyString => true | String _ _ => false end.

(** [s.left(n)] *)
Fixpoint left (n : nat) (s : QString) : QString :=
  match n, s with
  | S n', String c s' => String c (left n' s')
  | _, _ => EmptyString
  end.

(** [s.mid(n)] *)
Fixpoint mid (n : nat) (s : QString) : QString :=
  match n, s with
  | S n', String _ s' => mid n' s'
  | _, _ => s
  end.

(** [s.at(n)], [None] out of range *)
Definition at_ (n : nat) (s : QString) : option ascii := String.get n s.

(** [s.indexOf(c)]: position of the first [c] *)
Fixpoint indexOf (c : ascii) (s : QString) : option nat :=
  match s with
  | EmptyString => None
  | String a s' =>
      if Ascii.eqb a c then Some O
      else match indexOf c s' with Some i => Some (S i) | None => None end
  end.

(** [s.lastIndexOf(c)]: position of the last [c] *)
Fixpoint lastIndexOf (c : ascii) (s : QString) : option nat :=
  match s with
  | EmptyString => None
  | String a s' =>
      match lastIndexOf c s' with
      | Some i => Some (S i)
      | None => if Ascii.eqb a c then Some O else None
      end
  end.

(** [s.endsWith(c)] *)
Fixpoint endsWith (c : ascii) (s : QString) : bool :=
  match s with
  | EmptyString => false
  | String a EmptyString => Ascii.eqb a c
  | String _ s' => endsWith c s'
  end.

(** [s.startsWith(c)] *)
Definition startsWith (c : ascii) (s : QString) : bool :=
  match s with
  | String a _ => Ascii.eqb a c
  | EmptyString => false
  end.

(** [s.replace(a, b)] on single characters *)
Fixpoint replace (a b : ascii) (s : QString) : QString :=
  match s with
  | EmptyString => EmptyString
  | String c s' => String (if Ascii.eqb c a then b else c) (replace a b s')
  end.

(** [s.split(c)], empty parts kept *)
Fixpoint split (c : ascii) (s : QString) : list QString :=
  match s with
  | EmptyString => [EmptyString]
  | String a s' =>
      if Ascii.eqb a c then EmptyString :: split c s'
      else match split c s' with
           | p :: ps => String a p :: ps
           | [] => [String a EmptyString]
           end
  end.

(** [parts.join(sep)] *)
Fixpoint join (sep : QString) (parts : list QString) : QString :=
  match parts with
  | [] => EmptyString
  | [p] => p
  | p :: ps => p +:+ sep +:+ join sep ps
  end.

(** [s.toUtf8()]: one byte below U+0080, two bytes up to U+00FF. *)
Definition utf8_of_char (c : ascii) : QByteArray :=
  let n := N_of_ascii c in
  if (n <? 128)%N then [byte_of_ascii c]
  else [byte_of_ascii (ascii_of_N (192 + N.shiftr n 6));
        byte_of_ascii (ascii_of_N (128 + N.land n 63))].

Fixpoint toUtf8 (s : QString) : QByteArray :=
  match s with
  | EmptyString => []
  | String c s' => utf8_of_char c ++ toUtf8 s'
  end.

End QStr.

(** ** The toolkit: path arithmetic of [QFileInfo]

    [QFileInfo] keeps the file name it was given with '/' separators (on
    Windows the native separator is converted first) and answers the name
    queries by cutting that string at its last separator and at the dots of
    the part after it. *)
Module QtPath.

Definition fromNativeSeparators (os : Platform) (s : QString) : QString :=
  match os with
  | Win32 => QStr.replace "\" "/" s
  | Posix => s
  end.

(** a drive prefix, [X:], recognised on Windows only *)
Definition hasDrive (os : Platform) (s : QString) : bool :=
  match os, QStr.at_ 1 s with
  | Win32, Some c => Ascii.eqb c ":"
  | _, _ => false
  end.

(** [QFileSystemEntry::path()] of an entry that is already normalised *)
Definition entryPath (os : Platform) (e : QString) : QString :=
  match QStr.lastIndexOf "/" e with
  | None => if hasDrive os e then QStr.left 2 e else "."
  | Some O => "/"
  | Some i =>
      if (i =? 2)%nat && hasDrive os e then QStr.left 3 e
      else QStr.left i e
  end.

(** [QFileInfo(file).path()]: the file's path without the file name; an
    empty file name gives an empty path. *)
Definition path (os : Platform) (file : QString) : QString :=
  if QStr.isEmpty file then ""
  else entryPath os (fromNativeSeparators os file).

(** [QFileInfo(file).fileName()]: what follows the last separator *)
Definition fileName (os : Platform) (file : QString) : QString :=
  let e := fromNativeSeparators os file in
  match QStr.lastIndexOf "/" e with
  | None => if hasDrive os e then QStr.mid 2 e else e
  | Some i => QStr.mid (S i) e
  end.

(** [baseName()]: the file name up to its first '.' *)
Definition baseName (os : Platform) (file : QString) : QString :=
  let n := fileName os file in
  match QStr.indexOf "." n with
  | Some i => QStr.left i n
  | None => n
  end.

(** [completeBaseName()]: the file name up to its last '.' *)
Definition completeBaseName (os : Platform) (file : QString) : QString :=
  let n := fileName os file in
  match QStr.lastIndexOf "." n with
  | Some i => QStr.left i n
  | None => n
  end.

(** [suffix()]: what follows the last '.' of the file name *)
Definition suffix (os : Platform) (file : QString) : QString :=
  let n := fileName os file in
  match QStr.lastIndexOf "." n with
  | Some i => QStr.mid (S i) n
  | None => ""
  end.

(** [completeSuffix()]: what follows the first '.' of the file name *)
Definition completeSuffix (os : Platform) (file : QString) : QString :=
  let n := fileName os file in
  match QStr.indexOf "." n with
  | Some i => QStr.mid (S i) n
  | None => ""
  end.

End QtPath.

(** A value together with the equation that names it, to keep the loop
    condition at hand in the recursive call below. *)
Definition inspect {A : Type} (a : A) : {b : A | a = b} := exist _ a eq_refl.

(** [CFileSystemObject::pathHierarchy], the loop

    [while ((path = QFileInfo(path).path()).length() < result.back().length())
       result.push_back(path);]

    [cur] is [result.back()], which is also the value [path] had before the
    assignment in the loop condition; the recursion is justified by the loop
    condition itself. *)
Equations? pathHierarchy_from (os : Platform) (cur : QString) : list QString
  by wf (QStr.length cur) lt :=
  pathHierarchy_from os cur
    with inspect (QStr.length (QtPath.path os cur) <? QStr.length cur)%nat := {
    | exist _ true _ => cur :: pathHierarchy_from os (QtPath.path os cur)
    | exist _ false _ => [cur] }.
Proof. apply Nat.ltb_lt. assumption. Qed.

(** ** The world: a file system behind the toolkit and the OS calls

    The source reaches the file system through [QFileInfo], [QFile], [QDir]
    and, directly, through [GetFileAttributesW], [SetFileAttributesW],
    [PathGetDriveNumberW] and [stat].  Their documented behaviour is modelled
    over a finite map from clean absolute paths to nodes.  The volume that
    is written to has a budget of free bytes (a write beyond it is a partial
    write) and a node can be closed to the user by its access control list
    ([n_denied]). *)
Inductive NodeKind : Set := KFile | KDir | KOther.

Record Node : Type := mkNode {
  n_kind : NodeKind;
  n_data : QByteArray;     (* contents, for a regular file *)
  n_attributes : Z;        (* the Win32 attribute word *)
  n_created : Z;           (* epoch seconds *)
  n_modified : Z;
  n_dev : Z;               (* st_dev of the volume holding the node *)
  n_denied : bool          (* the user may not open, change or delete it *)
}.

Record World : Type := mkWorld {
  files : gmap string Node;
  freeSpace : Z;
  now : Z;                 (* wall clock, epoch seconds *)
  cwd : QString;
  osError : QString        (* text of errno / GetLastError() *)
}.

Definition set_files (m : gmap string Node) (w : World) : World :=
  mkWorld m (freeSpace w) (now w) (cwd w) (osError w).
Definition set_freeSpace (n : Z) (w : World) : World :=
  mkWorld (files w) n (now w) (cwd w) (osError w).
Definition set_osError (e : QString) (w : World) : World :=
  mkWorld (files w) (freeSpace w) (now w) (cwd w) e.

Definition FILE_ATTRIBUTE_READONLY : Z := 1.
Definition FILE_ATTRIBUTE_HIDDEN : Z := 2.
Definition FILE_ATTRIBUTE_DIRECTORY : Z := 16.
Definition FILE_ATTRIBUTE_ARCHIVE : Z := 32.
Definition INVALID_FILE_ATTRIBUTES : Z := 4294967295.

Definition isKind (k : NodeKind) (n : Node) : bool :=
  match k, n_kind n with
  | KFile, KFile | KDir, KDir | KOther, KOther => true
  | _, _ => false
  end.

Definition isReadOnlyNode (n : Node) : bool :=
  Z.testbit (n_attributes n) 0.

(** *** Resolving a name to a node *)
Module Resolve.

Definition isAbsolute (os : Platform) (p : QString) : bool :=
  QStr.startsWith "/" p || QtPath.hasDrive os p.

Definition absoluteName (os : Platform) (dir p : QString) : QString :=
  if isAbsolute os p then p else dir +:+ "/" +:+ p.

(** drop empty and "." segments, let ".." take back the segment before it *)
Fixpoint cleanSegments (segs stack : list QString) : list QString :=
  match segs with
  | [] => rev stack
  | s :: rest =>
      if String.eqb s "" || String.eqb s "." then cleanSegments rest stack
      else if String.eqb s ".." then cleanSegments rest (tail stack)
      else cleanSegments rest (s :: stack)
  end.

(** [QDir::cleanPath] of an absolute name *)
Definition cleanPath (os : Platform) (p : QString) : QString :=
  let body := QStr.join "/" (cleanSegments (QStr.split "/" p) []) in
  if QStr.startsWith "/" p then "/" +:+ body
  else if QtPath.hasDrive os body && (QStr.length body =? 2)%nat then body +:+ "/"
  else body.

(** the key of [files] a name stands for *)
Definition key (os : Platform) (w : World) (p : QString) : QString :=
  cleanPath os (absoluteName os (cwd w) (QtPath.fromNativeSeparators os p)).

Definition node (os : Platform) (w : World) (p : QString) : option Node :=
  files w !! key os w p.

End Resolve.

(** *** [QFileInfo]: a snapshot of a name and of what stands behind it

    [QFileInfo] caches the file's metadata when it is first asked; the model
    takes the snapshot when the object is made. *)
Record QFileInfo : Type := mkQFileInfo {
  fi_file : QString;               (* the name as given *)
  fi_absoluteFilePath : QString;   (* [absoluteFilePath()] *)
  fi_exists : bool;                (* [exists()] *)
  fi_isFile : bool;                (* [isFile()] *)
  fi_isDir : bool;                 (* [isDir()] *)
  fi_size : Z;                     (* [size()] *)
  fi_created : Z;                  (* [created().toTime_t()]; [uint(-1)] without a date *)
  fi_lastModified : Z              (* [lastModified().toTime_t()] *)
}.

Module QFileInfoM.

(** [QFileInfo(file)]; the empty name stands for nothing and has an empty
    absolute path. *)
Definition make (os : Platform) (w : World) (file : QString) : QFileInfo :=
  if QStr.isEmpty file then mkQFileInfo "" "" false false false 0 4294967295 4294967295
  else
    let a := Resolve.absoluteName os (cwd w) (QtPath.fromNativeSeparators os file) in
    let c := Resolve.cleanPath os a in
    let abs := if QStr.endsWith "/" a && negb (QStr.endsWith "/" c) then c +:+ "/" else c in
    match files w !! c with
    | Some n =>
        mkQFileInfo file abs true (isKind KFile n) (isKind KDir n)
          (if isKind KFile n then Z.of_nat (List.length (n_data n)) else 0)
          (n_created n) (n_modified n)
    | None => mkQFileInfo file abs false false false 0 4294967295 4294967295
    end.

Definition fileName (os : Platform) (fi : QFileInfo) : QString :=
  QtPath.fileName os (fi_file fi).
Definition baseName (os : Platform) (fi : QFileInfo) : QString :=
  QtPath.baseName os (fi_file fi).
Definition completeBaseName (os : Platform) (fi : QFileInfo) : QString :=
  QtPath.completeBaseName os (fi_file fi).
Definition suffix (os : Platform) (fi : QFileInfo) : QString :=
  QtPath.suffix os (fi_file fi).
Definition completeSuffix (os : Platform) (fi : QFileInfo) : QString :=
  QtPath.completeSuffix os (fi_file fi).
(** [absolutePath()]: the absolute name without the file name *)
Definition absolutePath (os : Platform) (fi : QFileInfo) : QString :=
  QtPath.path os (fi_absoluteFilePath fi).

End QFileInfoM.

(** *** [QFile]: a name, an open mode, a position, the last error and the
    write buffer

    The source opens its files with [open(QFile::ReadOnly)] and
    [open(QFile::WriteOnly)], without [QIODevice::Unbuffered].  Such a file
    keeps what is written in a buffer of [QFILE_WRITEBUFFER_SIZE] bytes:
    [write] hands bytes to the OS only when the buffer would overflow or when
    the data is larger than the buffer; [flush], [close] and the destructor
    hand over what is buffered. *)
Inductive OpenMode : Set := NotOpen | ReadOnly | WriteOnly.

Inductive FileError : Set :=
  NoError | ReadError | WriteError | ResourceError | OpenError
| RemoveError | RenameError | PermissionsError.

Record QFile : Type := mkQFile {
  qf_fileName : QString;
  qf_openMode : OpenMode;
  qf_pos : Z;                      (* [pos()]; buffered bytes are counted *)
  qf_error : FileError;
  qf_errorString : QString;
  qf_writeBuffer : QByteArray      (* written, not yet handed to the OS *)
}.

Module QFileM.

Definition QFILE_WRITEBUFFER_SIZE : Z := 16384.

(** [QFile(name)] *)
Definition make (name : QString) : QFile :=
  mkQFile name NotOpen 0 NoError "Unknown error" [].

Definition isOpen (f : QFile) : bool :=
  match qf_openMode f with NotOpen => false | _ => true end.

Definition fail (e : FileError) (msg : QString) (f : QFile) : QFile :=
  mkQFile (qf_fileName f) (qf_openMode f) (qf_pos f) e msg (qf_writeBuffer f).

(** [unsetError()] *)
Definition unsetError (f : QFile) : QFile :=
  mkQFile (qf_fileName f) (qf_openMode f) (qf_pos f) NoError "Unknown error"
    (qf_writeBuffer f).

Definition opened (m : OpenMode) (f : QFile) : QFile :=
  mkQFile (qf_fileName f) m 0 NoError "Unknown error" [].

Definition moved (p : Z) (f : QFile) : QFile :=
  mkQFile (qf_fileName f) (qf_openMode f) p (qf_error f) (qf_errorString f)
    (qf_writeBuffer f).

Definition withBuffer (b : QByteArray) (f : QFile) : QFile :=
  mkQFile (qf_fileName f) (qf_openMode f) (qf_pos f) (qf_error f) (qf_errorString f) b.

(** a fresh, empty regular file in the directory [d] *)
Definition freshFile (w : World) (d : Node) : Node :=
  mkNode KFile [] FILE_ATTRIBUTE_ARCHIVE (now w) (now w) (n_dev d) false.

Definition withData (data : QByteArray) (w : World) (n : Node) : Node :=
  mkNode (n_kind n) data (n_attributes n) (n_created n) (now w) (n_dev n) (n_denied n).

(** [open(QFile::ReadOnly)]: the name must stand for a regular file the
    user may read. *)
Definition openRead (os : Platform) (f : QFile) (w : World) : bool * QFile :=
  if isOpen f then (false, f)
  else match Resolve.node os w (qf_fileName f) with
       | Some n =>
           if isKind KFile n && negb (n_denied n) then (true, opened ReadOnly f)
           else (false, fail OpenError "Access is denied" f)
       | None => (false, fail OpenError "No such file or directory" f)
       end.

(** [open(QFile::WriteOnly)]: an existing writable regular file is
    truncated, a missing one is created in its (existing) directory. *)
Definition openWrite (os : Platform) (f : QFile) (w : World) : bool * QFile * World :=
  if isOpen f then (false, f, w)
  else
    let k := Resolve.key os w (qf_fileName f) in
    match files w !! k with
    | Some n =>
        if isKind KFile n && negb (n_denied n) && negb (isReadOnlyNode n) then
          (true, opened WriteOnly f,
           set_freeSpace (freeSpace w + Z.of_nat (List.length (n_data n)))
             (set_files (<[k := withData [] w n]> (files w)) w))
        else (false, fail OpenError "Access is denied" f, w)
    | None =>
        match files w !! QtPath.path os k with
        | Some d =>
            if isKind KDir d && negb (n_denied d) then
              (true, opened WriteOnly f, set_files (<[k := freshFile w d]> (files w)) w)
            else (false, fail OpenError "Access is denied" f, w)
        | None => (false, fail OpenError "No such file or directory" f, w)
        end
    end.

(** [read(maxSize)]: the bytes from the position on, at most [maxSize] of
    them; an empty array at the end of the file and on an error. *)
Definition read (os : Platform) (maxSize : Z) (f : QFile) (w : World) : QByteArray * QFile :=
  match qf_openMode f, Resolve.node os w (qf_fileName f) with
  | ReadOnly, Some n =>
      if isKind KFile n then
        let data := take (Z.to_nat maxSize) (drop (Z.to_nat (qf_pos f)) (n_data n)) in
        (data, moved (qf_pos f + Z.of_nat (List.length data)) f)
      else ([], fail ReadError "Is a directory" f)
  | ReadOnly, None => ([], fail ReadError "No such file or directory" f)
  | _, _ => ([], fail ReadError "Device is not open for reading" f)
  end.

(** The file engine's [write], the OS call on the descriptor of [f] at byte
    [offset]: the number of bytes that found room on the volume, which is
    less than the length of [data] when the volume runs out of space, without
    an error then; when no byte at all is written the engine answers -1 and
    has an error. *)
Definition engineWrite (os : Platform) (data : QByteArray) (offset : Z) (f : QFile)
    (w : World) : Z * option (FileError * QString) * World :=
  let k := Resolve.key os w (qf_fileName f) in
  match files w !! k with
  | Some n =>
      if isKind KFile n then
        let len := Z.of_nat (List.length data) in
        let room := Z.max 0 (freeSpace w) in
        if len <=? room then
          let old := n_data n in
          let p := Z.to_nat offset in
          let new := (take p old ++ data ++ drop (p + List.length data) old)%list in
          (len, None,
           set_freeSpace (freeSpace w - len) (set_files (<[k := withData new w n]> (files w)) w))
        else if room =? 0 then
          (-1, Some (ResourceError, "No space left on device"), w)
        else
          let part := take (Z.to_nat room) data in
          let old := n_data n in
          let p := Z.to_nat offset in
          let new := (take p old ++ part ++ drop (p + List.length part) old)%list in
          (room, None,
           set_freeSpace (freeSpace w - room) (set_files (<[k := withData new w n]> (files w)) w))
      else (-1, Some (WriteError, "Is a directory"), w)
  | None => (-1, Some (WriteError, "No such file or directory"), w)
  end.

(** [flush()]: what is buffered goes to the OS, behind what went there
    before; the bytes the OS took leave the buffer.  False, with the error on
    the file, when not all of them found room; the engine has no text for a
    short count, which [errorString()] renders as "Unknown error". *)
Definition flush (os : Platform) (f : QFile) (w : World) : bool * QFile * World :=
  match qf_writeBuffer f with
  | [] => (true, f, w)
  | _ :: _ =>
      let buf := qf_writeBuffer f in
      let size := Z.of_nat (List.length buf) in
      let '(written, err, w) := engineWrite os buf (qf_pos f - size) f w in
      let f := if 0 <? written then withBuffer (drop (Z.to_nat written) buf) f else f in
      if written =? size then (true, f, w)
      else
        match err with
        | Some (e, msg) => (false, fail e msg f, w)
        | None => (false, fail WriteError "Unknown error" f, w)
        end
  end.

(** [write(data)] of a buffered file: -1 on a device that is not open for
    writing; what is buffered is flushed first when [data] would overflow the
    buffer, and -1 is answered when that fails; data larger than the buffer
    goes to the OS directly, and the answer is the engine's (a short count
    comes without an error); other data goes to the buffer, and the answer is
    its length. *)
Definition write (os : Platform) (data : QByteArray) (f : QFile) (w : World)
  : Z * QFile * World :=
  match qf_openMode f with
  | WriteOnly =>
      let f := unsetError f in
      let len := Z.of_nat (List.length data) in
      let '(flushed, f, w) :=
        if QFILE_WRITEBUFFER_SIZE <? Z.of_nat (List.length (qf_writeBuffer f)) + len
        then flush os f w else (true, f, w) in
      if negb flushed then (-1, f, w)
      else if QFILE_WRITEBUFFER_SIZE <? len then
        let '(ret, err, w) :=
          engineWrite os data (qf_pos f - Z.of_nat (List.length (qf_writeBuffer f))) f w in
        match err with
        | Some (e, msg) => (ret, fail e msg f, w)
        | None => (ret, if 0 <? ret then moved (qf_pos f + ret) f else f, w)
        end
      else
        (len, withBuffer (qf_writeBuffer f ++ data)%list (moved (qf_pos f + len) f), w)
  | _ => (-1, f, w)
  end.

(** [close()], which the destructor of an open file calls too: the buffer is
    flushed, the device is no longer open and its position is back at 0.  The
    error of a failed flush stays on the file, without its text. *)
Definition close (os : Platform) (f : QFile) (w : World) : QFile * World :=
  if isOpen f then
    let '(flushed, f, w) := flush os f w in
    (mkQFile (qf_fileName f) NotOpen 0 (if flushed then NoError else qf_error f)
       "Unknown error" [], w)
  else (f, w).

(** the file engine's [remove]: the regular file the name stands for is
    deleted *)
Definition engineRemove (os : Platform) (f : QFile) (w : World) : bool * QFile * World :=
  let k := Resolve.key os w (qf_fileName f) in
  match files w !! k with
  | Some n =>
      if isKind KFile n && negb (n_denied n) then
        (true, f,
         set_freeSpace (freeSpace w + Z.of_nat (List.length (n_data n)))
           (set_files (delete k (files w)) w))
      else (false, fail RemoveError "Access is denied" f, w)
  | None => (false, fail RemoveError "No such file or directory" f, w)
  end.

(** [remove()]: closes the file and, unless the close left an error, deletes
    the regular file its name stands for; true exactly when the file was
    deleted. *)
Definition remove (os : Platform) (f : QFile) (w : World) : bool * QFile * World :=
  let '(f, w) := close os (unsetError f) w in
  match qf_error f with
  | NoError => engineRemove os f w
  | _ => (false, f, w)
  end.

Definition renamed (name : QString) (f : QFile) : QFile :=
  mkQFile name NotOpen 0 NoError "Unknown error" [].

(** the file engine's [rename]: the OS gives the node of a regular file the
    new name, in an existing directory of the same volume; it refuses to
    overwrite, and it refuses to cross volumes *)
Definition engineRename (os : Platform) (newName : QString) (f : QFile) (w : World)
  : bool * World :=
  let k := Resolve.key os w (qf_fileName f) in
  let k' := Resolve.key os w newName in
  match files w !! k, files w !! k', files w !! QtPath.path os k' with
  | Some n, None, Some d =>
      if isKind KFile n && negb (n_denied n) && isKind KDir d && negb (n_denied d)
         && (n_dev n =? n_dev d)
      then (true, set_files (<[k' := n]> (delete k (files w))) w)
      else (false, w)
  | _, _, _ => (false, w)
  end.

(** the loop of the block copy in [rename],
    [while ((bytes = read(block, sizeof(block))) > 0)] with
    [if (bytes != out.write(block, bytes)) { error = true; break; }] in it and
    the test [bytes == -1] behind it; the answer says whether it ended in an
    error.  [fuel] bounds the number of blocks; [None] is a loop that has not
    ended after [fuel] blocks. *)
Fixpoint blockCopy (os : Platform) (fuel : nat) (this out : QFile) (w : World)
  : option (bool * QFile * QFile * World) :=
  match fuel with
  | O => None
  | S fuel' =>
      let '(block, this) := read os 4096 this w in
      match block with
      | [] =>
          match qf_error this with
          | NoError => Some (false, this, out, w)
          | _ => Some (true, fail RenameError (qf_errorString this) this, out, w)
          end
      | _ :: _ =>
          let '(written, out, w) := write os block out w in
          if written =? Z.of_nat (List.length block) then blockCopy os fuel' this out w
          else Some (true, fail RenameError (qf_errorString out) this, out, w)
      end
  end.

(** [rename(newName)].  Refused when the new name is the old one, when
    nothing stands at the old name and when something stands at the new one.
    The file is closed and the engine is asked to rename; when it refuses,
    as it does across volumes, the toolkit copies the file block by block
    into a new file under the new name and removes the source, and removes
    the copy again when that went wrong.  The new file is closed, and with
    that flushed, when it goes out of scope, after the source was removed.
    The source then stands on another volume than the copy, so that removing
    it makes no room for the bytes still to be flushed.  The permissions the
    toolkit sets after the copy are the ones it reads from the new file. *)
Definition rename (os : Platform) (newName : QString) (f : QFile) (w : World)
  : bool * QFile * World :=
  let k := Resolve.key os w (qf_fileName f) in
  let k' := Resolve.key os w newName in
  if String.eqb (qf_fileName f) newName then
    (false, fail RenameError "Destination file is the same file." f, w)
  else
    match files w !! k with
    | None => (false, fail RenameError "Source file does not exist." f, w)
    | Some n =>
        match files w !! k' with
        | Some _ => (false, fail RenameError "Destination file exists" f, w)
        | None =>
            let '(f, w) := close os (unsetError f) w in
            match qf_error f with
            | NoError =>
                let '(renamedByOS, w1) := engineRename os newName f w in
                if renamedByOS then (true, renamed newName f, w1)
                else
                  let out := make newName in
                  let '(opened, f) := openRead os f w in
                  if negb opened then
                    (false, fail RenameError (qf_errorString out) f, w)
                  else
                    let '(opened, out, w) := openWrite os out w in
                    if negb opened then
                      let '(f, w) := close os f w in
                      (false, fail RenameError (qf_errorString out) f, w)
                    else
                      match blockCopy os (S (List.length (n_data n))) f out w with
                      | None => (false, f, w)
                      | Some (true, f, out, w) =>
                          let '(_, out, w) := remove os out w in
                          let '(f, w) := close os f w in
                          (false, f, w)
                      | Some (false, f, out, w) =>
                          let free := freeSpace w in
                          let '(removed, f, w) := remove os f w in
                          let w := set_freeSpace free w in
                          if negb removed then
                            let f := fail RenameError "Cannot remove source file" f in
                            let '(_, out, w) := remove os out w in
                            let '(f, w) := close os f w in
                            (false, f, w)
                          else
                            let '(f, w) := close os (renamed newName f) w in
                            let '(out, w) := close os out w in
                            (true, f, w)
                      end
            | _ => (false, f, w)
            end
        end
    end.

End QFileM.

(** *** [QDir]: renaming and listing *)
Module QDirM.

Definition Dirs : Z := 1.
Definition Files : Z := 2.
Definition Hidden : Z := 256.
Definition System : Z := 512.
Definition AllDirs : Z := 1024.
Definition NoDot : Z := 8192.
Definition NoDotDot : Z := 16384.
Definition NoDotAndDotDot : Z := Z.lor NoDot NoDotDot.

Definition has (flag filters : Z) : bool := negb (Z.land filters flag =? 0).

Definition isHidden (os : Platform) (name : QString) (n : Node) : bool :=
  match os with
  | Win32 => has FILE_ATTRIBUTE_HIDDEN (n_attributes n)
  | Posix => QStr.startsWith "." name
  end.

(** which entries a filter lets through: a hidden entry needs [Hidden], an
    entry that is neither a file nor a directory needs [System], a
    directory needs [Dirs] or [AllDirs], a file needs [Files]. *)
Definition matchesFilters (os : Platform) (filters : Z) (name : QString) (n : Node) : bool :=
  negb (negb (has Hidden filters) && isHidden os name n)
  && negb (negb (has System filters) && isKind KOther n)
  && negb (negb (has Dirs filters || has AllDirs filters) && isKind KDir n)
  && negb (negb (has Files filters) && isKind KFile n).

(** [QDir(dir).entryList(filters)] *)
Definition entryList (os : Platform) (w : World) (dir : QString) (filters : Z)
  : list QString :=
  let d := Resolve.key os w dir in
  let listsDirs := has Dirs filters || has AllDirs filters in
  ((if listsDirs && negb (has NoDot filters) then ["."] else [])
   ++ (if listsDirs && negb (has NoDotDot filters) then [".."] else [])
   ++ omap (fun kn : string * Node =>
              let name := QtPath.fileName os (fst kn) in
              if negb (String.eqb (fst kn) d)
                 && String.eqb (QtPath.path os (fst kn)) d
                 && matchesFilters os filters name (snd kn)
              then Some name else None)
           (map_to_list (files w)))%list.

(** where a node goes when [old] becomes [new] *)
Definition rekey (old new k : QString) : QString :=
  if String.eqb k old then new
  else if String.prefix (old +:+ "/") k then new +:+ QStr.mid (QStr.length old) k
  else k.

(** [QDir().rename(oldName, newName)]: refused when the old name does not
    exist, when the new name is taken, lies under the old one or has no
    directory to live in, and across volumes. *)
Definition rename (os : Platform) (oldName newName : QString) (w : World) : bool * World :=
  let k := Resolve.key os w oldName in
  let k' := Resolve.key os w newName in
  match files w !! k, files w !! k', files w !! QtPath.path os k' with
  | Some n, None, Some d =>
      if negb (n_denied n) && isKind KDir d && negb (n_denied d)
         && (n_dev n =? n_dev d) && negb (String.prefix (k +:+ "/") k')
      then (true,
            set_files
              (list_to_map
                 (List.map (fun kn : string * Node => (rekey k k' (fst kn), snd kn))
                    (map_to_list (files w)))) w)
      else (false, w)
  | _, _, _ => (false, w)
  end.

End QDirM.

(** ** Operating-system calls made directly by the source *)
Module Win32API.

(** ['A'..'Z'] and ['a'..'z'] to 0..25 *)
Definition driveIndex (c : ascii) : option Z :=
  let n := Z.of_N (N_of_ascii c) in
  if (65 <=? n) && (n <=? 90) then Some (n - 65)
  else if (97 <=? n) && (n <=? 122) then Some (n - 97)
  else None.

(** [PathGetDriveNumberW]: 0 through 25 when the path starts with a drive
    letter and a colon, -1 otherwise. *)
Definition PathGetDriveNumberW (path : QString) : Z :=
  match path with
  | String c (String ":" _) =>
      match driveIndex c with Some i => i | None => -1 end
  | _ => -1
  end.

(** the name behind the long-path prefix *)
Definition stripLongPathPrefix (p : QString) : QString :=
  if String.prefix "\\?\" p then QStr.mid 4 p else p.

Definition key (w : World) (name : QString) : QString :=
  Resolve.key Win32 w (stripLongPathPrefix name).

(** [GetFileAttributesW]: the attribute word, or [INVALID_FILE_ATTRIBUTES]
    with the thread's last error set. *)
Definition GetFileAttributesW (name : QString) (w : World) : Z * World :=
  match files w !! key w name with
  | Some n => (n_attributes n, w)
  | None =>
      (INVALID_FILE_ATTRIBUTES,
       set_osError "The system cannot find the file specified." w)
  end.

Definition withAttributes (a : Z) (n : Node) : Node :=
  mkNode (n_kind n) (n_data n) a (n_created n) (n_modified n) (n_dev n) (n_denied n).

(** [SetFileAttributesW]: TRUE (1) when the word was stored, FALSE (0) with
    the thread's last error set otherwise. *)
Definition SetFileAttributesW (name : QString) (a : Z) (w : World) : Z * World :=
  match files w !! key w name with
  | Some n =>
      if n_denied n then (0, set_osError "Access is denied." w)
      else (1, set_files (<[key w name := withAttributes a n]> (files w)) w)
  | None => (0, set_osError "The system cannot find the file specified." w)
  end.

End Win32API.

Module PosixAPI.

(** [stat(path, &info)]: [inl st_dev] for return value 0, [inr] for -1,
    with [errno] set. *)
Definition stat (w : World) (path : QString) : (Z + unit) * World :=
  match Resolve.node Posix w path with
  | Some n => (inl (n_dev n), w)
  | None => (inr tt, set_osError "No such file or directory" w)
  end.

(** [strerror(errno)] *)
Definition strerror_errno (w : World) : QString := osError w.

End PosixAPI.

(** Modelled from the spec: [toNativeSeparators] of
    [filesystemhelperfunctions.h], which is not part of the sources at hand;
    the spec speaks of "the native path": on Windows every '/' becomes a
    backslash. *)
Definition toNativeSeparators (os : Platform) (path : QString) : QString :=
  match os with
  | Win32 => QStr.replace "/" "\" path
  | Posix => path
  end.

(** Modelled from the spec: [ErrorStringFromLastError] of
    [windows/windowsutils.h], which is not part of the sources at hand: the
    text of "the last OS error". *)
Definition ErrorStringFromLastError (w : World) : QString := osError w.

(** ** The data of [CFileSystemObject] *)

(** Modelled from the spec: the type tags of [cfilesystemobject.h], which is
    not part of the sources at hand.  [refreshInfo] assigns [File] and
    [Directory] only; what the spec calls an Other and a Nonexistent object
    keeps the tag it was made with, [UnknownType]. *)
Inductive FileSystemObjectType : Set := UnknownType | Directory | File.

(** Modelled from the spec: the result codes of section 7 ([Ok], [Fail],
    [ObjectDoesNotExist], [TargetAlreadyExists]) under the names the method
    bodies return. *)
Inductive FileOperationResultCode : Set :=
  rcOk | rcFail | rcObjectDoesntExist | rcTargetAlreadyExists.

Definition FileSystemObjectType_eqb (a b : FileSystemObjectType) : bool :=
  match a, b with
  | UnknownType, UnknownType | Directory, Directory | File, File => true
  | _, _ => false
  end.

(** [std::numeric_limits<uint64_t>::max()] and [std::numeric_limits<time_t>::max()] *)
Definition UINT64_MAX : Z := 2 ^ 64 - 1.
Definition TIME_T_MAX : Z := 2 ^ 63 - 1.

(** conversion to [uint64_t] *)
Definition to_uint64 (z : Z) : Z := z mod 2 ^ 64.

Module Properties.

(** Modelled from the spec: [CFileSystemObjectProperties] of
    [cfilesystemobject.h] (section 3, FsObjectProperties), with the field
    names the method bodies use. *)
Record t : Type := mk {
  completeBaseName : QString;
  extension : QString;
  fullName : QString;
  parentFolder : QString;
  fullPath : QString;
  type : FileSystemObjectType;
  size : Z;
  creationDate : Z;
  modificationDate : Z;
  hash : Z;
  exists_ : bool
}.

(** Modelled from the spec: the values of a snapshot that was never
    refreshed; the creation date is the sentinel [isValid] tests for. *)
Definition initial : t :=
  mk "" "" "" "" "" UnknownType 0 TIME_T_MAX TIME_T_MAX 0 false.

Definition set_completeBaseName (v : QString) (p : t) : t :=
  mk v (extension p) (fullName p) (parentFolder p) (fullPath p) (type p) (size p)
    (creationDate p) (modificationDate p) (hash p) (exists_ p).
Definition set_extension (v : QString) (p : t) : t :=
  mk (completeBaseName p) v (fullName p) (parentFolder p) (fullPath p) (type p) (size p)
    (creationDate p) (modificationDate p) (hash p) (exists_ p).
Definition set_fullName (v : QString) (p : t) : t :=
  mk (completeBaseName p) (extension p) v (parentFolder p) (fullPath p) (type p) (size p)
    (creationDate p) (modificationDate p) (hash p) (exists_ p).
Definition set_parentFolder (v : QString) (p : t) : t :=
  mk (completeBaseName p) (extension p) (fullName p) v (fullPath p) (type p) (size p)
    (creationDate p) (modificationDate p) (hash p) (exists_ p).
Definition set_fullPath (v : QString) (p : t) : t :=
  mk (completeBaseName p) (extension p) (fullName p) (parentFolder p) v (type p) (size p)
    (creationDate p) (modificationDate p) (hash p) (exists_ p).
Definition set_type (v : FileSystemObjectType) (p : t) : t :=
  mk (completeBaseName p) (extension p) (fullName p) (parentFolder p) (fullPath p) v (size p)
    (creationDate p) (modificationDate p) (hash p) (exists_ p).
Definition set_size (v : Z) (p : t) : t :=
  mk (completeBaseName p) (extension p) (fullName p) (parentFolder p) (fullPath p) (type p) v
    (creationDate p) (modificationDate p) (hash p) (exists_ p).
Definition set_creationDate (v : Z) (p : t) : t :=
  mk (completeBaseName p) (extension p) (fullName p) (parentFolder p) (fullPath p) (type p) (size p)
    v (modificationDate p) (hash p) (exists_ p).
Definition set_modificationDate (v : Z) (p : t) : t :=
  mk (completeBaseName p) (extension p) (fullName p) (parentFolder p) (fullPath p) (type p) (size p)
    (creationDate p) v (hash p) (exists_ p).
Definition set_hash (v : Z) (p : t) : t :=
  mk (completeBaseName p) (extension p) (fullName p) (parentFolder p) (fullPath p) (type p) (size p)
    (creationDate p) (modificationDate p) v (exists_ p).
Definition set_exists (v : bool) (p : t) : t :=
  mk (completeBaseName p) (extension p) (fullName p) (parentFolder p) (fullPath p) (type p) (size p)
    (creationDate p) (modificationDate p) (hash p) v.

End Properties.

(** Modelled from the spec: the members of the class, declared in
    [cfilesystemobject.h]: its [QFileInfo], the cached properties, the last
    error text, the memoised volume id and the two [std::shared_ptr<QFile>] of
    a chunked copy ([None] is the null pointer; nothing else holds these
    pointers). *)
Record CFileSystemObject : Type := mkObject {
  _fileInfo : QFileInfo;
  _properties : Properties.t;
  _lastError : QString;
  _rootFileSystemId : Z;
  _thisFile : option QFile;
  _destFile : option QFile
}.

Definition with_properties (p : Properties.t) (o : CFileSystemObject) : CFileSystemObject :=
  mkObject (_fileInfo o) p (_lastError o) (_rootFileSystemId o) (_thisFile o) (_destFile o).
Definition with_lastError (e : QString) (o : CFileSystemObject) : CFileSystemObject :=
  mkObject (_fileInfo o) (_properties o) e (_rootFileSystemId o) (_thisFile o) (_destFile o).
Definition with_rootFileSystemId (i : Z) (o : CFileSystemObject) : CFileSystemObject :=
  mkObject (_fileInfo o) (_properties o) (_lastError o) i (_thisFile o) (_destFile o).
Definition with_thisFile (f : option QFile) (o : CFileSystemObject) : CFileSystemObject :=
  mkObject (_fileInfo o) (_properties o) (_lastError o) (_rootFileSystemId o) f (_destFile o).
Definition with_destFile (f : option QFile) (o : CFileSystemObject) : CFileSystemObject :=
  mkObject (_fileInfo o) (_properties o) (_lastError o) (_rootFileSystemId o) (_thisFile o) f.

(** ** The methods of [CFileSystemObject]

    Each method takes the object (and the world, when it reaches the file
    system) and returns its result with the object and the world after the
    call.  The [assert]s of the source are compiled out, as in a release
    build; what they state about the two handles is proved below as an
    invariant.  Dereferencing a null handle has no defined behaviour: a method
    that can do so returns an [option]. *)
Section Methods.

(** the target the source is compiled for *)
Variable os : Platform.

(** [fasthash64(buf, len, seed)] of [fasthash.h], a library that is not part
    of the sources at hand: any function of the bytes, their number and the
    seed. *)
Variable fasthash64 : QByteArray -> Z -> Z -> Z.

(** [CFileSystemObject::refreshInfo] *)
Definition refreshInfo (o : CFileSystemObject) : CFileSystemObject :=
  let fi := _fileInfo o in
  let p := _properties o in
  let p := Properties.set_exists (fi_exists fi) p in
  let p := Properties.set_fullPath (fi_absoluteFilePath fi) p in
  let utf8Path := QStr.toUtf8 (Properties.fullPath p) in
  let p := Properties.set_hash
             (fasthash64 utf8Path (Z.of_nat (List.length utf8Path)) 0) p in
  let p :=
    if fi_isFile fi then Properties.set_type File p
    else if fi_isDir fi then Properties.set_type Directory p
    else if Properties.exists_ p then p
    else if QStr.endsWith "/" (Properties.fullPath p) then Properties.set_type Directory p
    else p in
  let p :=
    match Properties.type p with
    | File =>
        let p := Properties.set_extension (QFileInfoM.suffix os fi) p in
        Properties.set_completeBaseName (QFileInfoM.completeBaseName os fi) p
    | Directory =>
        let suffix := QFileInfoM.completeSuffix os fi in
        let p := Properties.set_completeBaseName (QFileInfoM.baseName os fi) p in
        if negb (QStr.isEmpty suffix) then
          Properties.set_completeBaseName
            (Properties.completeBaseName p +:+ "." +:+ suffix) p
        else p
    | UnknownType => p
    end in
  let p := Properties.set_fullName
             (match Properties.type p with
              | Directory => Properties.completeBaseName p
              | _ => QFileInfoM.fileName os fi
              end) p in
  let p := Properties.set_parentFolder (QFileInfoM.absolutePath os fi) p in
  let p :=
    if negb (Properties.exists_ p) then p
    else
      let p := Properties.set_creationDate (fi_created fi) p in
      let p := Properties.set_modificationDate (fi_lastModified fi) p in
      Properties.set_size
        (to_uint64 (match Properties.type p with File => fi_size fi | _ => 0 end)) p in
  with_properties p o.

(** [CFileSystemObject::CFileSystemObject(const QFileInfo&)]; the volume id
    starts as the sentinel [rootFileSystemId] tests for, the handles as null
    pointers. *)
Definition construct (fileInfo : QFileInfo) : CFileSystemObject :=
  refreshInfo (mkObject fileInfo Properties.initial "" UINT64_MAX None None).

Definition hash (o : CFileSystemObject) : Z := Properties.hash (_properties o).

(** [operator==] *)
Definition operator_eq (o other : CFileSystemObject) : bool :=
  hash o =? hash other.

Definition isValid (o : CFileSystemObject) : bool :=
  negb (Properties.creationDate (_properties o) =? TIME_T_MAX).

Definition exists_ (o : CFileSystemObject) : bool := Properties.exists_ (_properties o).

Definition type (o : CFileSystemObject) : FileSystemObjectType :=
  Properties.type (_properties o).

Definition isFile (o : CFileSystemObject) : bool :=
  FileSystemObjectType_eqb (Properties.type (_properties o)) File.

Definition isDir (o : CFileSystemObject) : bool :=
  FileSystemObjectType_eqb (Properties.type (_properties o)) Directory.

Definition fullAbsolutePath (o : CFileSystemObject) : QString :=
  Properties.fullPath (_properties o).

Definition parentDirPath (o : CFileSystemObject) : QString :=
  Properties.parentFolder (_properties o).

Definition size (o : CFileSystemObject) : Z := Properties.size (_properties o).

Definition name (o : CFileSystemObject) : QString :=
  Properties.completeBaseName (_properties o).

Definition fullName (o : CFileSystemObject) : QString :=
  Properties.fullName (_properties o).

Definition extension (o : CFileSystemObject) : QString :=
  if FileSystemObjectType_eqb (Properties.type (_properties o)) File
     && QStr.isEmpty (Properties.completeBaseName (_properties o))
  then "." +:+ Properties.extension (_properties o)
  else Properties.extension (_properties o).

Definition lastErrorMessage (o : CFileSystemObject) : QString := _lastError o.

(** [CFileSystemObject::isEmptyDir] *)
Definition isEmptyDir (o : CFileSystemObject) (w : World) : bool :=
  if isDir o then
    match QDirM.entryList os w (fullAbsolutePath o)
            (Z.lor (Z.lor QDirM.NoDotAndDotDot QDirM.Hidden) QDirM.System) with
    | [] => true
    | _ :: _ => false
    end
  else false.

(** [CFileSystemObject::isCdUp] *)
Definition isCdUp (o : CFileSystemObject) : bool :=
  String.eqb (Properties.fullName (_properties o)) "..".

(** [CFileSystemObject::pathHierarchy] *)
Definition pathHierarchy (o : CFileSystemObject) : list QString :=
  pathHierarchy_from os (fullAbsolutePath o).

(** [CFileSystemObject::rootFileSystemId]: the memoised volume id, asked
    from the OS while it is still the sentinel. *)
Definition rootFileSystemId (o : CFileSystemObject) (w : World)
  : Z * CFileSystemObject * World :=
  if _rootFileSystemId o =? UINT64_MAX then
    match os with
    | Win32 =>
        let driveNumber := Win32API.PathGetDriveNumberW (Properties.fullPath (_properties o)) in
        if negb (driveNumber =? -1) then
          let o := with_rootFileSystemId (to_uint64 driveNumber) o in
          (_rootFileSystemId o, o, w)
        else (_rootFileSystemId o, o, w)
    | Posix =>
        match PosixAPI.stat w (Properties.fullPath (_properties o)) with
        | (inl st_dev, w) =>
            let o := with_rootFileSystemId (to_uint64 st_dev) o in
            (_rootFileSystemId o, o, w)
        | (inr _, w) =>
            let o := with_lastError (PosixAPI.strerror_errno w) o in
            (_rootFileSystemId o, o, w)
        end
    end
  else (_rootFileSystemId o, o, w).

(** [CFileSystemObject::isMovableTo]; the two objects after the call are
    returned with the answer, since both memoise their volume id. *)
Definition isMovableTo (o dest : CFileSystemObject) (w : World)
  : bool * CFileSystemObject * CFileSystemObject * World :=
  let '(fileSystemId, o, w) := rootFileSystemId o w in
  let '(otherFileSystemId, dest, w) := rootFileSystemId dest w in
  ((fileSystemId =? otherFileSystemId)
   && negb (fileSystemId =? UINT64_MAX)
   && negb (otherFileSystemId =? UINT64_MAX), o, dest, w).

(** [CFileSystemObject::setDirSize] *)
Definition setDirSize (size : Z) (o : CFileSystemObject) : CFileSystemObject :=
  with_properties (Properties.set_size size (_properties o)) o.

(** [CFileSystemObject::moveAtomically] *)
Definition moveAtomically (location newName : QString) (o : CFileSystemObject) (w : World)
  : FileOperationResultCode * CFileSystemObject * World :=
  if negb (exists_ o) then (rcObjectDoesntExist, o, w)
  else if isCdUp o then (rcFail, o, w)
  else
    let fullNewName :=
      location +:+ "/" +:+
      (if QStr.isEmpty newName then Properties.fullName (_properties o) else newName) in
    let destInfo := QFileInfoM.make os w fullNewName in
    if fi_exists destInfo && (isDir o || fi_isFile destInfo) then
      (rcTargetAlreadyExists, o, w)
    else if isFile o then
      let file := QFileM.make (Properties.fullPath (_properties o)) in
      let '(succ, file, w) := QFileM.rename os fullNewName file w in
      if negb succ then (rcFail, with_lastError (qf_errorString file) o, w)
      else (rcOk, refreshInfo o, w)
    else if isDir o then
      let '(succ, w) := QDirM.rename os (fullAbsolutePath o) fullNewName w in
      (if succ then rcOk else rcFail, o, w)
    else (rcFail, o, w).

(** [CFileSystemObject::copyOperationInProgress]; with exactly one handle
    null the other branch dereferences the null one. *)
Definition copyOperationInProgress (o : CFileSystemObject) : option bool :=
  match _destFile o, _thisFile o with
  | None, None => Some false
  | Some destFile, Some thisFile =>
      Some (QFileM.isOpen destFile && QFileM.isOpen thisFile)
  | _, _ => None
  end.

(** [reset()] of a handle: the [QFile] it owned is destroyed, and the
    destructor closes a file that is open. *)
Definition release (h : option QFile) (w : World) : World :=
  match h with
  | Some f => snd (QFileM.close os f w)
  | None => w
  end.

(** the two [reset()] calls, [_thisFile] first *)
Definition resetHandles (o : CFileSystemObject) (w : World) : CFileSystemObject * World :=
  let w := release (_thisFile o) w in
  let w := release (_destFile o) w in
  (with_destFile None (with_thisFile None o), w).

(** [CFileSystemObject::copyChunk], the block under
    [if (!copyOperationInProgress())]: [inl] is its early [return rcFail]. *)
Definition copyChunk_open (destFolder newName : QString) (o : CFileSystemObject) (w : World)
  : (CFileSystemObject * World) + (CFileSystemObject * World) :=
  let thisFile := QFileM.make (fullAbsolutePath o) in
  let destFile :=
    QFileM.make (destFolder +:+
                 (if QStr.isEmpty newName then Properties.fullName (_properties o)
                  else newName)) in
  let '(opened, thisFile) := QFileM.openRead os thisFile w in
  let o := with_destFile (Some destFile) (with_thisFile (Some thisFile) o) in
  if negb opened then
    inl (resetHandles (with_lastError (qf_errorString thisFile) o) w)
  else
    let '(opened, destFile, w) := QFileM.openWrite os destFile w in
    let o := with_destFile (Some destFile) o in
    if negb opened then
      inl (resetHandles (with_lastError (qf_errorString destFile) o) w)
    else inr (o, w).

(** [CFileSystemObject::copyChunk], from [_thisFile->read(chunkSize)] on *)
Definition copyChunk_transfer (chunkSize : Z) (o : CFileSystemObject) (w : World)
  : option (FileOperationResultCode * CFileSystemObject * World) :=
  match _thisFile o, _destFile o with
  | Some thisFile, Some destFile =>
      let '(data, thisFile) := QFileM.read os chunkSize thisFile w in
      let o := with_thisFile (Some thisFile) o in
      match data with
      | [] => let '(o, w) := resetHandles o w in Some (rcOk, o, w)
      | _ :: _ =>
          let '(written, destFile, w) := QFileM.write os data destFile w in
          let o := with_destFile (Some destFile) o in
          if written =? Z.of_nat (List.length data) then Some (rcOk, o, w)
          else
            Some (rcFail,
                  with_lastError
                    (match qf_error thisFile with
                     | NoError => qf_errorString destFile
                     | _ => qf_errorString thisFile
                     end) o, w)
      end
  | _, _ => None
  end.

(** [CFileSystemObject::copyChunk] *)
Definition copyChunk (chunkSize : Z) (destFolder newName : QString)
    (o : CFileSystemObject) (w : World)
  : option (FileOperationResultCode * CFileSystemObject * World) :=
  match copyOperationInProgress o with
  | None => None
  | Some true => copyChunk_transfer chunkSize o w
  | Some false =>
      match copyChunk_open destFolder newName o w with
      | inl (o, w) => Some (rcFail, o, w)
      | inr (o, w) => copyChunk_transfer chunkSize o w
      end
  end.

(** [CFileSystemObject::moveChunk] *)
Definition moveChunk (chunkSize : Z) (destFolder newName : QString)
    (o : CFileSystemObject) (w : World)
  : FileOperationResultCode * CFileSystemObject * World :=
  moveAtomically destFolder newName o w.

(** [CFileSystemObject::bytesCopied] *)
Definition bytesCopied (o : CFileSystemObject) : Z :=
  match _thisFile o with
  | Some thisFile => if QFileM.isOpen thisFile then to_uint64 (qf_pos thisFile) else 0
  | None => 0
  end.

(** [CFileSystemObject::cancelCopy] *)
Definition cancelCopy (o : CFileSystemObject) (w : World)
  : option (FileOperationResultCode * CFileSystemObject * World) :=
  match copyOperationInProgress o with
  | None => None
  | Some true =>
      match _thisFile o, _destFile o with
      | Some thisFile, Some destFile =>
          let '(thisFile, w) := QFileM.close os thisFile w in
          let '(destFile, w) := QFileM.close os destFile w in
          let '(succ, destFile, w) := QFileM.remove os destFile w in
          let o := with_destFile (Some destFile) (with_thisFile (Some thisFile) o) in
          let '(o, w) := resetHandles o w in
          Some (if succ then rcOk else rcFail, o, w)
      | _, _ => None
      end
  | Some false => Some (rcOk, o, w)
  end.

(** [attributes & (~FILE_ATTRIBUTE_READONLY)] and
    [attributes | FILE_ATTRIBUTE_READONLY] on a 32-bit [DWORD] *)
Definition clearReadOnly (attributes : Z) : Z :=
  Z.land attributes (Z.land (Z.lnot FILE_ATTRIBUTE_READONLY) (2 ^ 32 - 1)).
Definition setReadOnly (attributes : Z) : Z :=
  Z.lor attributes FILE_ATTRIBUTE_READONLY.

(** [CFileSystemObject::makeWritable].  Outside Windows the body is
    [#error "Not implemented"]: the source is no program there, which the
    model renders as [None]. *)
Definition makeWritable (writeable : bool) (o : CFileSystemObject) (w : World)
  : option (bool * CFileSystemObject * World) :=
  match os with
  | Posix => None
  | Win32 =>
      if negb (isFile o) then Some (false, o, w)
      else
        let UNCPath := "\\?\" +:+ toNativeSeparators Win32 (fullAbsolutePath o) in
        let '(attributes, w) := Win32API.GetFileAttributesW UNCPath w in
        if attributes =? INVALID_FILE_ATTRIBUTES then
          Some (false, with_lastError (ErrorStringFromLastError w) o, w)
        else
          let '(ok, w) :=
            Win32API.SetFileAttributesW UNCPath
              (if writeable then clearReadOnly attributes else setReadOnly attributes) w in
          if negb (ok =? 1) then
            Some (false, with_lastError (ErrorStringFromLastError w) o, w)
          else Some (true, o, w)
  end.

End Methods.

(** ** Predicates used to state the properties *)

(** [a] is strictly longer than [b] *)
Definition shorter (a b : QString) : Prop := (QStr.length b < QStr.length a)%nat.

(** Both handles of the chunked copy are released. *)
Definition handlesReleased (o : CFileSystemObject) : Prop :=
  _thisFile o = None /\ _destFile o = None.

(** Both handles are held and their files are open. *)
Definition handlesHeldOpen (o : CFileSystemObject) : Prop :=
  exists thisFile destFile,
    _thisFile o = Some thisFile /\ _destFile o = Some destFile
    /\ QFileM.isOpen thisFile = true /\ QFileM.isOpen destFile = true.

(** The dual-handle invariant: both handles absent, or both held and open. *)
Definition handlesPaired (o : CFileSystemObject) : Prop :=
  handlesReleased o \/ handlesHeldOpen o.

(** A regular file stands at [name]. *)
Definition fileOnDisk (os : Platform) (w : World) (name : QString) : Prop :=
  exists n, Resolve.node os w name = Some n /\ isKind KFile n = true.

(** Something stands at [name]. *)
Definition onDisk (os : Platform) (w : World) (name : QString) : Prop :=
  is_Some (Resolve.node os w name).

(** The regular file at [name] in [w] is gone in [w']. *)
Definition fileRemoved (os : Platform) (w w' : World) (name : QString) : Prop :=
  fileOnDisk os w name /\ Resolve.node os w' name = None.

(** The name [copyChunk] gives the destination file. *)
Definition copyDestination (destFolder newName : QString) (o : CFileSystemObject) : QString :=
  destFolder +:+ (if QStr.isEmpty newName then Properties.fullName (_properties o) else newName).

(** The name [moveAtomically] gives the destination. *)
Definition moveDestination (location newName : QString) (o : CFileSystemObject) : QString :=
  location +:+ "/" +:+
  (if QStr.isEmpty newName then Properties.fullName (_properties o) else newName).

(** One of the two opens of a fresh [copyChunk] is refused. *)
Definition sourceOpenFails (os : Platform) (o : CFileSystemObject) (w : World) : Prop :=
  fst (QFileM.openRead os (QFileM.make (Properties.fullPath (_properties o))) w) = false.

Definition destOpenFails (os : Platform) (destFolder newName : QString)
    (o : CFileSystemObject) (w : World) : Prop :=
  fst (fst (QFileM.openWrite os (QFileM.make (copyDestination destFolder newName o)) w)) = false.

(** The hash of an object is the hash of the UTF-8 bytes of its full path. *)
Definition hashOfPath (fasthash64 : QByteArray -> Z -> Z -> Z) (o : CFileSystemObject) : Prop :=
  hash o = fasthash64 (QStr.toUtf8 (fullAbsolutePath o))
             (Z.of_nat (List.length (QStr.toUtf8 (fullAbsolutePath o)))) 0.

(** The volume identifier an object reports: the value of
    [rootFileSystemId()]. *)
Definition volumeId (os : Platform) (o : CFileSystemObject) (w : World) : Z :=
  fst (fst (rootFileSystemId os o w)).

(** [a'] is [a] with the read-only bit made the opposite of [writeable] and
    every other bit kept. *)
Definition readOnlyToggled (writeable : bool) (a a' : Z) : Prop :=
  Z.testbit a' 0 = negb writeable
  /\ forall i, 0 < i -> Z.testbit a' i = Z.testbit a i.

(** The name [makeWritable] hands to the OS: the long-path prefix before the
    native form of the full path. *)
Definition longPathName (o : CFileSystemObject) : QString :=
  "\\?\" +:+ toNativeSeparators Win32 (fullAbsolutePath o).

(** ** Sample worlds, for the examples *)
Module Sample.

(** a stand-in for the hash function: the sum of the bytes and the seed *)
Definition hash (buf : QByteArray) (len seed : Z) : Z :=
  to_uint64 (fold_right (fun b acc => Z.of_N (Byte.to_N b) + acc) (seed + len) buf).

Definition bytes (s : string) : QByteArray :=
  List.map byte_of_ascii (list_ascii_of_string s).

Definition dir (dev : Z) : Node :=
  mkNode KDir [] FILE_ATTRIBUTE_DIRECTORY 100 100 dev false.

Definition file (data : string) (dev : Z) : Node :=
  mkNode KFile (bytes data) FILE_ATTRIBUTE_ARCHIVE 100 200 dev false.

(** /src/a.txt holds five bytes, /dst holds b.txt, /mnt is another volume *)
Definition posixWorld (free : Z) : World :=
  mkWorld
    (list_to_map
       [("/", dir 1); ("/src", dir 1); ("/src/a.txt", file "hello" 1);
        ("/src/sub", dir 1); ("/dst", dir 1); ("/dst/b.txt", file "old" 1);
        ("/mnt", dir 2)])
    free 1000 "/" "".

Definition winWorld : World :=
  mkWorld
    (list_to_map
       [("C:/", dir 2); ("C:/docs", dir 2); ("C:/docs/a.txt", file "hello" 2)])
    64 1000 "C:/" "".

(** 16385 bytes, one more than the write buffer of a [QFile] holds *)
Definition big : QByteArray := List.repeat Byte.x78 (Z.to_nat 16385).

(** the same volume with /src/big.bin, which holds them *)
Definition bigWorld (free : Z) : World :=
  set_files
    (<["/src/big.bin" := mkNode KFile big FILE_ATTRIBUTE_ARCHIVE 100 200 1 false]>
       (files (posixWorld free)))
    (posixWorld free).

(** the object made for [path] in the world [w] *)
Definition object (os : Platform) (w : World) (path : QString) : CFileSystemObject :=
  construct os hash (QFileInfoM.make os w path).

(** one [copyChunk] of /src/a.txt into /dst/ *)
Definition step (s : CFileSystemObject * World) : CFileSystemObject * World :=
  match copyChunk Posix 4096 "/dst/" "" (fst s) (snd s) with
  | Some (_, o, w) => (o, w)
  | None => s
  end.

Definition start : CFileSystemObject * World :=
  (object Posix (posixWorld 64) "/src/a.txt", posixWorld 64).

(** after the first chunk the copy is in progress, after the second (the
    end of the file is read) it is complete *)
Definition copying : CFileSystemObject * World := step start.
Definition copied : CFileSystemObject * World := step copying.

End Sample.

(** * The rest of the class, and the code around it *)

(** ** More of the toolkit and of the OS *)

(** [Qt::CaseInsensitive] comparison: the simple case folding of the code
    units U+0000..U+00FF (the letters A-Z and the capital letters of the
    Latin-1 block go to their small form). *)
Module QStrCI.

Definition foldCase (c : ascii) : ascii :=
  let n := N_of_ascii c in
  if ((65 <=? n) && (n <=? 90) || (192 <=? n) && (n <=? 222) && negb (n =? 215))%N
  then ascii_of_N (n + 32)
  else c.

(** [s.startsWith(p, Qt::CaseInsensitive)] *)
Fixpoint startsWith (p s : QString) : bool :=
  match p, s with
  | EmptyString, _ => true
  | String a p', String b s' => Ascii.eqb (foldCase a) (foldCase b) && startsWith p' s'
  | String _ _, EmptyString => false
  end.

(** [s.toCaseFolded()] *)
Fixpoint toCaseFolded (s : QString) : QString :=
  match s with
  | EmptyString => EmptyString
  | String a s' => String (foldCase a) (toCaseFolded s')
  end.

End QStrCI.

(** [QFile(name).copy(newName)]: the contents of the regular file [name]
    under the new name, in an existing directory and within the free space;
    the toolkit does not overwrite: a taken name is refused.  The answer comes
    with the text [errorString()] gives afterwards. *)
Definition QFile_copy (os : Platform) (name newName : QString) (w : World)
  : bool * QString * World :=
  let k := Resolve.key os w name in
  let k' := Resolve.key os w newName in
  match files w !! k' with
  | Some _ => (false, "Destination file exists", w)
  | None =>
      match files w !! k, files w !! QtPath.path os k' with
      | Some n, Some d =>
          if isKind KFile n && negb (n_denied n) && isKind KDir d && negb (n_denied d) then
            if Z.of_nat (List.length (n_data n)) <=? freeSpace w then
              (true, "Unknown error",
               set_freeSpace (freeSpace w - Z.of_nat (List.length (n_data n)))
                 (set_files
                    (<[k' := mkNode KFile (n_data n) (n_attributes n) (now w) (now w)
                               (n_dev d) false]> (files w)) w))
            else (false, "No space left on device", w)
          else (false, "Access is denied", w)
      | _, _ => (false, "No such file or directory", w)
      end
  end.

(** Removing a directory. *)
Module Rmdir.

(** something lives directly in the directory with key [k] *)
Definition hasEntries (os : Platform) (w : World) (k : QString) : bool :=
  existsb (fun kn : string * Node =>
             negb (String.eqb (fst kn) k) && String.eqb (QtPath.path os (fst kn)) k)
    (map_to_list (files w)).

(** the OS call on a resolved name: the directory must exist, be empty and
    be the user's to delete *)
Definition removeDirectory (os : Platform) (w : World) (k : QString) : bool * World :=
  match files w !! k with
  | Some n =>
      if isKind KDir n && negb (n_denied n) && negb (hasEntries os w k)
      then (true, set_files (delete k (files w)) w)
      else (false, set_osError "Directory not empty" w)
  | None => (false, set_osError "No such file or directory" w)
  end.

(** [rmdir(path)] of POSIX: 0 or -1; a name whose last component is "." is
    refused ([EINVAL]). *)
Definition rmdir (w : World) (path : QString) : Z * World :=
  if String.eqb (QtPath.fileName Posix path) "." then (-1, set_osError "Invalid argument" w)
  else
    let '(ok, w) := removeDirectory Posix w (Resolve.key Posix w path) in
    (if ok then 0 else -1, w).

(** [QDir(dir).rmdir(dirName)]: the toolkit hands the name [dir/dirName] to
    the OS as it is.  With ["."] for [dirName] the POSIX call refuses it (the
    source falls back to [::rmdir] on the path itself for that reason); on
    Windows the name stands for the directory. *)
Definition QDir_rmdir (os : Platform) (dir dirName : QString) (w : World) : bool * World :=
  let fn := if QStr.endsWith "/" dir then dir +:+ dirName else dir +:+ "/" +:+ dirName in
  match os with
  | Posix => let '(r, w) := rmdir w fn in (r =? 0, w)
  | Win32 => removeDirectory Win32 w (Resolve.key Win32 w fn)
  end.

End Rmdir.

(** ** More methods of [CFileSystemObject] *)
Section MoreMethods.

Variable os : Platform.

(** [CFileSystemObject::isChildOf] *)
Definition isChildOf (o parent : CFileSystemObject) : bool :=
  QStrCI.startsWith (fullAbsolutePath parent) (fullAbsolutePath o).

(** [CFileSystemObject::copyAtomically] *)
Definition copyAtomically (destFolder newName : QString) (o : CFileSystemObject) (w : World)
  : FileOperationResultCode * CFileSystemObject * World :=
  let '(succ, errorString, w) :=
    QFile_copy os (Properties.fullPath (_properties o))
      (destFolder +:+
       (if QStr.isEmpty newName then Properties.fullName (_properties o) else newName)) w in
  let o := if negb succ then with_lastError errorString o else o in
  (if succ then rcOk else rcFail, o, w).

(** [CFileSystemObject::remove]; the test for existence is the one of the
    [QFileInfo], not the cached flag. *)
Definition remove (o : CFileSystemObject) (w : World)
  : FileOperationResultCode * CFileSystemObject * World :=
  if negb (fi_exists (_fileInfo o)) then (rcObjectDoesntExist, o, w)
  else if isFile o then
    let file := QFileM.make (Properties.fullPath (_properties o)) in
    let '(succ, file, w) := QFileM.remove os file w in
    if succ then (rcOk, o, w)
    else (rcFail, with_lastError (qf_errorString file) o, w)
  else if isDir o then
    let '(succ, w) := Rmdir.QDir_rmdir os (Properties.fullPath (_properties o)) "." w in
    if negb succ then
      match os with
      | Posix =>
          let '(r, w) := Rmdir.rmdir w (Properties.fullPath (_properties o)) in
          (if r =? -1 then rcFail else rcOk, o, w)
      | Win32 => (rcFail, o, w)
      end
    else (rcOk, o, w)
  else (rcFail, o, w).

(** Modelled from the spec: the loop of the operation performer, which is not
    part of the sources at hand (section 4.5: "the worker loops
    [copy_chunk(chunk_size, ...)] until completion or error"): [copyChunk] is
    called again while it answers [rcOk] and a copy is in progress.  [None]
    also stands for a loop that has not ended after [fuel] calls. *)
Fixpoint copyLoop (fuel : nat) (chunkSize : Z) (destFolder newName : QString)
    (o : CFileSystemObject) (w : World)
  : option (FileOperationResultCode * CFileSystemObject * World) :=
  match fuel with
  | O => None
  | S fuel' =>
      match copyChunk os chunkSize destFolder newName o w with
      | Some (rcOk, o', w') =>
          match copyOperationInProgress o' with
          | Some true => copyLoop fuel' chunkSize destFolder newName o' w'
          | Some false => Some (rcOk, o', w')
          | None => None
          end
      | r => r
      end
  end.

End MoreMethods.

(** ** The copy/move dialog ([ccopymovedialog.cpp]) *)
Module Dialog.

(** Modelled from the spec: what the dialog uses of [COperationPerformer],
    which is not part of the sources at hand (section 4.5): [toggle_pause()]
    flips the pause flag, and answers with the flag as it is afterwards;
    [cancel()] sets the cancel flag. *)
Record Performer : Type := mkPerformer {
  p_working : bool;
  p_paused : bool;
  p_cancelRequested : bool
}.

Definition togglePause (p : Performer) : bool * Performer :=
  (negb (p_paused p), mkPerformer (p_working p) (negb (p_paused p)) (p_cancelRequested p)).

Definition performerCancel (p : Performer) : Performer :=
  mkPerformer (p_working p) (p_paused p) true.

Inductive ProgressState : Set := psNormal | psPaused | psStopped.

(** The dialog: the performer it owns ([None]: the pointer is null) and what
    its methods set on the widgets. *)
Record CCopyMoveDialog : Type := mkDialog {
  _performer : option Performer;
  btnPauseText : QString;
  overallProgressState : ProgressState;
  btnCancelEnabled : bool;
  btnPauseEnabled : bool
}.

Definition with_performer (p : option Performer) (d : CCopyMoveDialog) : CCopyMoveDialog :=
  mkDialog p (btnPauseText d) (overallProgressState d) (btnCancelEnabled d)
    (btnPauseEnabled d).

(** [CCopyMoveDialog::pauseResume]; [None]: the null performer is
    dereferenced. *)
Definition pauseResume (d : CCopyMoveDialog) : option CCopyMoveDialog :=
  match _performer d with
  | None => None
  | Some p =>
      let '(paused, p) := togglePause p in
      Some (mkDialog (Some p) (if paused then "Resume" else "Pause")
              (if p_paused p then psPaused else psNormal)
              (btnCancelEnabled d) (btnPauseEnabled d))
  end.

(** [CCopyMoveDialog::cancel] *)
Definition cancel (d : CCopyMoveDialog) : option CCopyMoveDialog :=
  match _performer d with
  | None => None
  | Some p =>
      Some (mkDialog (Some (performerCancel p)) (btnPauseText d) (overallProgressState d)
              false false)
  end.

(** [QMessageBox::question] runs an event loop of its own until the user
    answers.  The timer the constructor starts goes on calling
    [processEvents()] in that loop, which delivers what the performer has
    reported in the meantime; [onProcessFinished] among it releases the
    performer.  So [question] answers with the user's choice ([true]: Yes)
    and with the dialog as that event loop left it; both may depend on what
    the dialog shows when the question is asked. *)
Definition Question : Type := CCopyMoveDialog -> bool * CCopyMoveDialog.

(** [CCopyMoveDialog::cancelPressed]; [None]: the null performer is
    dereferenced. *)
Definition cancelPressed (question : Question) (d : CCopyMoveDialog)
  : option (bool * CCopyMoveDialog) :=
  let working := match _performer d with Some p => p_working p | None => false end in
  if negb working then Some (true, d)
  else
    match _performer d with
    | None => None
    | Some p =>
        let wasPaused := p_paused p in
        match (if negb wasPaused then pauseResume d else Some d) with
        | None => None
        | Some d =>
            let '(yes, d) := question d in
            if yes then
              match pauseResume d with
              | None => None
              | Some d =>
                  match cancel d with
                  | None => None
                  | Some d => Some (true, d)
                  end
              end
            else if negb wasPaused then
              match pauseResume d with
              | None => None
              | Some d => Some (false, d)
              end
            else Some (false, d)
        end
    end.

(** What became of the close event. *)
Inductive EventOutcome : Set := Accepted | Ignored.

(** [CCopyMoveDialog::closeEvent]; [isClose] is [e->type() == QCloseEvent::Close].
    With the outcome comes whether [closed()] was emitted. *)
Definition closeEvent (question : Question) (isClose : bool) (d : CCopyMoveDialog)
  : option (EventOutcome * bool * CCopyMoveDialog) :=
  if isClose && (match _performer d with Some _ => true | None => false end) then
    match cancelPressed question d with
    | None => None
    | Some (true, d) => Some (Accepted, true, d)
    | Some (false, d) => Some (Ignored, false, d)
    end
  else if isClose then Some (Accepted, true, d)
  else Some (Ignored, false, d).

(** [CCopyMoveDialog::onProcessFinished], up to the message box: the
    performer is released and [close()] sends the close event. *)
Definition onProcessFinished (question : Question) (d : CCopyMoveDialog)
  : option (EventOutcome * bool * CCopyMoveDialog) :=
  closeEvent question true (with_performer None d).

(** What the dialog shows when [cancelPressed] asks its question: the dialog
    itself when the performer is paused already, the dialog after
    [pauseResume()] otherwise. *)
Definition shownForQuestion (d : CCopyMoveDialog) : CCopyMoveDialog :=
  match _performer d with
  | Some p => if p_paused p then d else match pauseResume d with Some d' => d' | None => d end
  | None => d
  end.

(** The dialog has a performer that is at work. *)
Definition working (d : CCopyMoveDialog) : Prop :=
  exists p, _performer d = Some p /\ p_working p = true.

(** The dialog has a performer and it is paused. *)
Definition shownPaused (d : CCopyMoveDialog) : Prop :=
  exists p, _performer d = Some p /\ p_paused p = true.

(** A working performer that was not told to cancel is left in the dialog. *)
Definition leftRunning (d : CCopyMoveDialog) : Prop :=
  exists p, _performer d = Some p /\ p_working p = true /\ p_cancelRequested p = false.

End Dialog.

(** ** Predicates used to state the further properties *)

(** A chunked copy can start: a readable regular file with contents [data]
    stands at [src], [dst] is another name, which can be opened for writing,
    and the volume has room for [data]. *)
Definition copyable (os : Platform) (src dst : QString) (w : World) (data : QByteArray)
  : Prop :=
  (exists ns, files w !! Resolve.key os w src = Some ns
              /\ isKind KFile ns = true /\ n_denied ns = false /\ n_data ns = data)
  /\ Resolve.key os w src <> Resolve.key os w dst
  /\ fst (fst (QFileM.openWrite os (QFileM.make dst) w)) = true
  /\ Z.of_nat (List.length data) <= freeSpace w.

(** A copy of [data] from the file [t], open on [src], to the file [d], open
    on [dst], begun in the world [w0], has moved [p] bytes, of which the first
    [f] have reached the disk: both files stand at position [p], the
    destination on disk holds the first [f] bytes and the write buffer of [d]
    the bytes from [f] to [p], nothing but the destination differs from [w0],
    and the volume has room for what is not yet on the disk. *)
Definition streaming (os : Platform) (src dst : QString) (w0 : World)
    (data : QByteArray) (f p : nat) (t d : QFile) (w : World) : Prop :=
  qf_fileName t = src /\ qf_openMode t = ReadOnly /\ qf_pos t = Z.of_nat p
  /\ qf_writeBuffer t = []
  /\ qf_fileName d = dst /\ qf_openMode d = WriteOnly /\ qf_pos d = Z.of_nat p
  /\ qf_writeBuffer d = take (p - f) (drop f data)
  /\ cwd w = cwd w0
  /\ (exists nd, files w !! Resolve.key os w0 dst = Some nd
                 /\ isKind KFile nd = true /\ n_denied nd = false
                 /\ n_data nd = take f data)
  /\ (forall k, k <> Resolve.key os w0 dst -> files w !! k = files w0 !! k)
  /\ (f <= p)%nat /\ (p <= List.length data)%nat
  /\ Z.of_nat (List.length data - f) <= freeSpace w.

(** The chunked copy of an object is in that state. *)
Definition copyingState (os : Platform) (src dst : QString) (w0 : World)
    (data : QByteArray) (f p : nat) (o : CFileSystemObject) (w : World) : Prop :=
  exists t d,
    _thisFile o = Some t /\ _destFile o = Some d
    /\ streaming os src dst w0 data f p t d w.

(** From [w] to [w'] nothing changed but the contents (and the date of the
    last change) of the node at the key [k], if there is one. *)
Definition contentsOnly (k : QString) (w w' : World) : Prop :=
  cwd w' = cwd w
  /\ (forall j, j <> k -> files w' !! j = files w !! j)
  /\ match files w !! k, files w' !! k with
     | Some n, Some n' =>
         n_kind n' = n_kind n /\ n_denied n' = n_denied n
         /\ n_attributes n' = n_attributes n /\ n_dev n' = n_dev n
     | None, None => True
     | _, _ => False
     end.

(** The identity of an object is in order: its full path is the absolute
    name of its [QFileInfo] and its hash is the hash of that path. *)
Definition identityKept (fasthash64 : QByteArray -> Z -> Z -> Z) (o : CFileSystemObject)
  : Prop :=
  fullAbsolutePath o = fi_absoluteFilePath (_fileInfo o) /\ hashOfPath fasthash64 o.

(** A move from the name with key [k] to the name with key [k'] crosses
    volumes: the node at [k] stands on another volume than the directory the
    new name lies in. *)
Definition crossesVolumes (os : Platform) (w : World) (k k' : QString) : Prop :=
  exists n d, files w !! k = Some n /\ files w !! QtPath.path os k' = Some d
              /\ n_dev n <> n_dev d.

(** Two objects with the same identity: the same full path and hash. *)
Definition sameIdentity (o o' : CFileSystemObject) : Prop :=
  hash o' = hash o /\ fullAbsolutePath o' = fullAbsolutePath o
  /\ _fileInfo o' = _fileInfo o.

(** Case analysis on every [match] of the goal, dropping the impossible
    cases. *)
Module QtTactics.
Ltac cases :=
  repeat (match goal with
          | |- context [match ?x with _ => _ end] => destruct x eqn:?
          end; try discriminate).

(** A goal about a call that was refused and has left the world alone. *)
Ltac refused := cbn [fst snd]; split; [discriminate|intros; reflexivity].
End QtTactics.

(** * Properties *)

(** ** Facts about strings and paths *)
Module QStrFacts.

Lemma length_left n s : QStr.length (QStr.left n s) = Nat.min n (QStr.length s).
Proof.
  revert s; induction n as [|n IH]; intros [|c s]; cbn; try reflexivity.
  unfold QStr.length in IH. now rewrite IH.
Qed.

Lemma lastIndexOf_lt c s i : QStr.lastIndexOf c s = Some i -> (i < QStr.length s)%nat.
Proof.
  revert i; induction s as [|a s IH]; cbn; intros i H; [discriminate|].
  destruct (QStr.lastIndexOf c s) as [j|].
  - injection H as <-. specialize (IH j eq_refl). unfold QStr.length in IH. lia.
  - destruct (Ascii.eqb a c); [injection H as <-; lia | discriminate].
Qed.

Lemma length_replace a b s : QStr.length (QStr.replace a b s) = QStr.length s.
Proof.
  induction s as [|c s IH]; cbn; [reflexivity|].
  unfold QStr.length in IH. now rewrite IH.
Qed.

End QStrFacts.

(** ** [pathHierarchy] *)

Lemma pathHierarchy_clause os cur (b : bool)
    (e : (QStr.length (QtPath.path os cur) <? QStr.length cur)%nat = b) :
  pathHierarchy_from_unfold_clause_1 os cur (exist _ b e) =
  if b then cur :: pathHierarchy_from os (QtPath.path os cur) else [cur].
Proof. destruct b; reflexivity. Qed.

(** One turn of the loop. *)
Lemma pathHierarchy_from_step os cur :
  pathHierarchy_from os cur =
  if (QStr.length (QtPath.path os cur) <? QStr.length cur)%nat
  then cur :: pathHierarchy_from os (QtPath.path os cur)
  else [cur].
Proof.
  rewrite pathHierarchy_from_equation_1. unfold inspect. apply pathHierarchy_clause.
Qed.

Lemma pathHierarchy_from_head os cur :
  exists rest, pathHierarchy_from os cur = cur :: rest.
Proof. rewrite pathHierarchy_from_step. destruct (_ <? _)%nat; eauto. Qed.

Lemma pathHierarchy_from_bound os cur :
  Forall (fun x => (QStr.length x <= QStr.length cur)%nat) (pathHierarchy_from os cur).
Proof.
  remember (QStr.length cur) as n eqn:En.
  revert cur En. induction n as [n IH] using lt_wf_ind. intros cur ->.
  rewrite pathHierarchy_from_step.
  destruct (_ <? _)%nat eqn:E.
  - apply Nat.ltb_lt in E. constructor; [lia|].
    eapply Forall_impl; [apply (IH _ E _ eq_refl)|].
    cbn. intros; lia.
  - constructor; [lia | constructor].
Qed.

Lemma pathHierarchy_from_sorted os cur :
  StronglySorted shorter (pathHierarchy_from os cur).
Proof.
  remember (QStr.length cur) as n eqn:En.
  revert cur En. induction n as [n IH] using lt_wf_ind. intros cur ->.
  rewrite pathHierarchy_from_step.
  destruct (_ <? _)%nat eqn:E.
  - apply Nat.ltb_lt in E. constructor; [apply (IH _ E _ eq_refl)|].
    eapply Forall_impl; [apply pathHierarchy_from_bound|].
    unfold shorter; cbn; intros; lia.
  - repeat constructor.
Qed.

(** The loop makes at most one turn per character of the path. *)
Lemma pathHierarchy_from_turns os cur :
  (List.length (pathHierarchy_from os cur) <= S (QStr.length cur))%nat.
Proof.
  remember (QStr.length cur) as n eqn:En.
  revert cur En. induction n as [n IH] using lt_wf_ind. intros cur ->.
  rewrite pathHierarchy_from_step.
  destruct (_ <? _)%nat eqn:E.
  - apply Nat.ltb_lt in E. specialize (IH _ E _ eq_refl). cbn. lia.
  - cbn. lia.
Qed.

Lemma last_pathHierarchy_step os cur :
  (QStr.length (QtPath.path os cur) < QStr.length cur)%nat ->
  last (pathHierarchy_from os cur) = last (pathHierarchy_from os (QtPath.path os cur)).
Proof.
  intros H. rewrite (pathHierarchy_from_step os cur).
  apply Nat.ltb_lt in H. rewrite H.
  destruct (pathHierarchy_from_head os (QtPath.path os cur)) as [r ->]. reflexivity.
Qed.

Lemma last_pathHierarchy_stop os cur :
  (QStr.length cur <= QStr.length (QtPath.path os cur))%nat ->
  last (pathHierarchy_from os cur) = Some cur.
Proof.
  intros H. rewrite (pathHierarchy_from_step os cur).
  apply Nat.ltb_ge in H. rewrite H. reflexivity.
Qed.

(** The last element is where the loop stopped: its parent is not shorter. *)
Lemma pathHierarchy_from_last os cur :
  exists x, last (pathHierarchy_from os cur) = Some x
            /\ (QStr.length x <= QStr.length (QtPath.path os x))%nat.
Proof.
  remember (QStr.length cur) as n eqn:En.
  revert cur En. induction n as [n IH] using lt_wf_ind. intros cur ->.
  destruct (Nat.lt_ge_cases (QStr.length (QtPath.path os cur)) (QStr.length cur)) as [E|E].
  - rewrite last_pathHierarchy_step by exact E. apply (IH _ E _ eq_refl).
  - exists cur. split; [apply last_pathHierarchy_stop|]; exact E.
Qed.

(** On POSIX an absolute path is followed up to "/". *)
Lemma pathHierarchy_posix_root p :
  QStr.startsWith "/" p = true ->
  last (pathHierarchy_from Posix p) = Some "/".
Proof.
  remember (QStr.length p) as n eqn:En.
  revert p En. induction n as [n IH] using lt_wf_ind. intros p -> Hp.
  destruct p as [|a s]; [discriminate|]. cbn in Hp.
  apply Ascii.eqb_eq in Hp. subst a.
  destruct (QStr.lastIndexOf "/" (String "/" s)) as [[|i]|] eqn:E.
  - (* the only separator is the leading one *)
    assert (Hpath : QtPath.path Posix (String "/" s) = "/").
    { unfold QtPath.path, QtPath.entryPath. cbn [QStr.isEmpty QtPath.fromNativeSeparators].
      rewrite E. reflexivity. }
    destruct s as [|b s].
    + apply last_pathHierarchy_stop. rewrite Hpath. cbn. lia.
    + rewrite last_pathHierarchy_step; rewrite Hpath; [|cbn; lia].
      apply last_pathHierarchy_stop. cbn. lia.
  - assert (Hpath : QtPath.path Posix (String "/" s) = QStr.left (S i) (String "/" s)).
    { unfold QtPath.path, QtPath.entryPath. cbn [QStr.isEmpty QtPath.fromNativeSeparators].
      rewrite E. unfold QtPath.hasDrive. rewrite andb_false_r. reflexivity. }
    pose proof (QStrFacts.lastIndexOf_lt _ _ _ E) as Hlt.
    assert (Hlen : (QStr.length (QtPath.path Posix (String "/" s))
                    < QStr.length (String "/" s))%nat).
    { rewrite Hpath, QStrFacts.length_left. lia. }
    rewrite last_pathHierarchy_step by exact Hlen.
    apply (IH _ Hlen _ eq_refl). rewrite Hpath. reflexivity.
  - cbn in E. destruct (QStr.lastIndexOf "/" s); discriminate.
Qed.

Lemma driveIndex_not_backslash c i :
  Win32API.driveIndex c = Some i -> Ascii.eqb c "\" = false.
Proof.
  destruct c as [[] [] [] [] [] [] [] []]; vm_compute; intros; (discriminate || reflexivity).
Qed.

(** On Windows a path on a drive is followed up to the root of the drive. *)
Lemma pathHierarchy_win32_root c i rest :
  Win32API.driveIndex c = Some i ->
  last (pathHierarchy_from Win32 (String c (String ":" (String "/" rest))))
  = Some (String c ":/").
Proof.
  intros Hc. pose proof (driveIndex_not_backslash _ _ Hc) as Hb.
  remember (QStr.length rest) as n eqn:En.
  revert rest En. induction n as [n IH] using lt_wf_ind. intros rest ->.
  set (p := String c (String ":" (String "/" rest))).
  set (r := QStr.replace "\" "/" rest).
  assert (He : QtPath.fromNativeSeparators Win32 p = String c (String ":" (String "/" r))).
  { unfold p. cbn. rewrite Hb. reflexivity. }
  assert (Hr : QStr.length r = QStr.length rest) by apply QStrFacts.length_replace.
  destruct (QStr.lastIndexOf "/" r) as [j|] eqn:E.
  - assert (Hpath : QtPath.path Win32 p = String c (String ":" (String "/" (QStr.left j r)))).
    { unfold QtPath.path. change (QStr.isEmpty p) with false. cbv iota. rewrite He.
      unfold QtPath.entryPath. cbn [QStr.lastIndexOf]. rewrite E. reflexivity. }
    pose proof (QStrFacts.lastIndexOf_lt _ _ _ E) as Hlt.
    assert (Hj : (QStr.length (QStr.left j r) < QStr.length rest)%nat).
    { rewrite QStrFacts.length_left. lia. }
    rewrite last_pathHierarchy_step; rewrite Hpath.
    + apply (IH _ Hj _ eq_refl).
    + unfold p. cbn. unfold QStr.length in Hj. lia.
  - assert (Hpath : QtPath.path Win32 p = String c ":/").
    { unfold QtPath.path. change (QStr.isEmpty p) with false. cbv iota. rewrite He.
      unfold QtPath.entryPath. cbn [QStr.lastIndexOf]. rewrite E. reflexivity. }
    assert (Hroot : QtPath.path Win32 (String c ":/") = String c ":/").
    { unfold QtPath.path. cbn. rewrite Hb. reflexivity. }
    clear He. subst p r. destruct rest as [|b rest].
    + apply last_pathHierarchy_stop. rewrite Hroot. lia.
    + rewrite last_pathHierarchy_step; rewrite Hpath; [|cbn; lia].
      apply last_pathHierarchy_stop. rewrite Hroot. lia.
Qed.

(** C6.  [pathHierarchy] is a total function (its loop makes at most one turn
    per character of the path); its first element is the object's full path;
    every element is strictly longer than all that follow it; the last element
    is the one whose parent is no shorter than itself, which for an absolute
    POSIX path is the root "/" and for a Windows path on a drive the root of
    that drive. *)
Theorem pathHierarchy_descends_to_root (os : Platform) (o : CFileSystemObject) :
  head (pathHierarchy os o) = Some (fullAbsolutePath o)
  /\ (List.length (pathHierarchy os o) <= S (QStr.length (fullAbsolutePath o)))%nat
  /\ StronglySorted shorter (pathHierarchy os o)
  /\ (exists x, last (pathHierarchy os o) = Some x
                /\ (QStr.length x <= QStr.length (QtPath.path os x))%nat)
  /\ (QStr.startsWith "/" (fullAbsolutePath o) = true ->
      last (pathHierarchy Posix o) = Some "/")
  /\ (forall c i rest,
        Win32API.driveIndex c = Some i ->
        fullAbsolutePath o = String c (String ":" (String "/" rest)) ->
        last (pathHierarchy Win32 o) = Some (String c ":/")).
Proof.
  unfold pathHierarchy. repeat split.
  - destruct (pathHierarchy_from_head os (fullAbsolutePath o)) as [r ->]. reflexivity.
  - apply pathHierarchy_from_turns.
  - apply pathHierarchy_from_sorted.
  - apply pathHierarchy_from_last.
  - apply pathHierarchy_posix_root.
  - intros c i rest Hc ->. eapply pathHierarchy_win32_root, Hc.
Qed.

Example pathHierarchy_posix :
  pathHierarchy_from Posix "/usr/lib/x.so" = ["/usr/lib/x.so"; "/usr/lib"; "/usr"; "/"].
Proof. reflexivity. Qed.

Example pathHierarchy_win :
  pathHierarchy_from Win32 "C:\a\b" = ["C:\a\b"; "C:/a"; "C:/"].
Proof. reflexivity. Qed.

Example pathHierarchy_trailing_slash :
  pathHierarchy_from Posix "/a/" = ["/a/"; "/a"; "/"].
Proof. reflexivity. Qed.

(** ** Facts about the toolkit model *)
Module QtFacts.

Lemma openRead_open os f w f' :
  QFileM.openRead os f w = (true, f') -> QFileM.isOpen f' = true.
Proof. unfold QFileM.openRead. QtTactics.cases; intros [= <-]; reflexivity. Qed.

Lemma openWrite_open os f w f' w' :
  QFileM.openWrite os f w = (true, f', w') -> QFileM.isOpen f' = true.
Proof. unfold QFileM.openWrite. QtTactics.cases; intros [= <- <-]; reflexivity. Qed.

Lemma read_mode os n f w :
  qf_openMode (snd (QFileM.read os n f w)) = qf_openMode f.
Proof. unfold QFileM.read. QtTactics.cases; cbn; congruence. Qed.

Lemma contentsOnly_refl k w : contentsOnly k w w.
Proof.
  split; [reflexivity|]. split; [reflexivity|].
  destruct (files w !! k); auto.
Qed.

Lemma contentsOnly_trans k w1 w2 w3 :
  contentsOnly k w1 w2 -> contentsOnly k w2 w3 -> contentsOnly k w1 w3.
Proof.
  intros (Hc1 & Hf1 & Hk1) (Hc2 & Hf2 & Hk2).
  split; [congruence|]. split; [intros j Hj; rewrite Hf2, Hf1 by exact Hj; reflexivity|].
  destruct (files w1 !! k), (files w2 !! k), (files w3 !! k); try tauto.
  destruct Hk1 as (? & ? & ? & ?), Hk2 as (? & ? & ? & ?). repeat split; congruence.
Qed.

Lemma contentsOnly_key os k w w' name :
  contentsOnly k w w' -> Resolve.key os w' name = Resolve.key os w name.
Proof. intros (Hc & _). unfold Resolve.key. now rewrite Hc. Qed.

(** The engine's [write] changes the contents of the file and nothing
    else. *)
Lemma engineWrite_contentsOnly os data offset f w :
  contentsOnly (Resolve.key os w (qf_fileName f)) w
    (snd (QFileM.engineWrite os data offset f w)).
Proof.
  unfold QFileM.engineWrite.
  set (k := Resolve.key os w (qf_fileName f)).
  assert (Hput : forall new fs n,
             files w !! k = Some n ->
             contentsOnly k w
               (set_freeSpace fs (set_files (<[k := QFileM.withData new w n]> (files w)) w))).
  { intros new fs n Hn. split; [reflexivity|]. split.
    - intros j Hj. cbn. now rewrite lookup_insert_ne by congruence.
    - cbn. rewrite Hn, lookup_insert_eq. cbn. auto. }
  destruct (files w !! k) as [n|] eqn:En; [|apply contentsOnly_refl].
  destruct (isKind KFile n); [|apply contentsOnly_refl].
  destruct (_ <=? _); [apply Hput; reflexivity|].
  destruct (_ =? 0); [apply contentsOnly_refl|apply Hput; reflexivity].
Qed.

Lemma flush_file os f w :
  qf_openMode (snd (fst (QFileM.flush os f w))) = qf_openMode f
  /\ qf_fileName (snd (fst (QFileM.flush os f w))) = qf_fileName f
  /\ qf_pos (snd (fst (QFileM.flush os f w))) = qf_pos f.
Proof.
  unfold QFileM.flush. destruct (qf_writeBuffer f) as [|b buf]; [auto|].
  destruct (QFileM.engineWrite os _ _ f w) as [[written err] w1].
  destruct (0 <? written), (written =? _), err as [[e msg]|]; cbn; auto.
Qed.

Lemma flush_contentsOnly os f w :
  contentsOnly (Resolve.key os w (qf_fileName f)) w (snd (QFileM.flush os f w)).
Proof.
  unfold QFileM.flush. destruct (qf_writeBuffer f) as [|b buf]; [apply contentsOnly_refl|].
  pose proof (engineWrite_contentsOnly os (b :: buf)
                (qf_pos f - Z.of_nat (List.length (b :: buf))) f w) as H.
  destruct (QFileM.engineWrite os _ _ f w) as [[written err] w1]. cbn [snd] in H.
  destruct (written =? _); [exact H|]. destruct err as [[e msg]|]; exact H.
Qed.

Lemma write_mode os data f w :
  qf_openMode (snd (fst (QFileM.write os data f w))) = qf_openMode f.
Proof.
  unfold QFileM.write. destruct (qf_openMode f) eqn:Em; try (cbn; congruence).
  set (g := QFileM.unsetError f).
  assert (Hg : qf_openMode g = WriteOnly) by exact Em.
  destruct (_ <? _ + _).
  - pose proof (flush_file os g w) as (Hm & _).
    destruct (QFileM.flush os g w) as [[flushed g'] w1]. cbn in Hm.
    destruct flushed; cbn [negb]; [|cbn; congruence].
    destruct (_ <? _); [|cbn; congruence].
    destruct (QFileM.engineWrite os data _ g' w1) as [[ret err] w2].
    destruct err as [[e msg]|]; [cbn; congruence|].
    destruct (0 <? ret); cbn; congruence.
  - cbn [negb]. destruct (_ <? _); [|cbn; congruence].
    destruct (QFileM.engineWrite os data _ g w) as [[ret err] w2].
    destruct err as [[e msg]|]; [cbn; congruence|].
    destruct (0 <? ret); cbn; congruence.
Qed.

Lemma write_name os data f w :
  qf_fileName (snd (fst (QFileM.write os data f w))) = qf_fileName f.
Proof.
  unfold QFileM.write. destruct (qf_openMode f) eqn:Em; try reflexivity.
  set (g := QFileM.unsetError f).
  destruct (_ <? _ + _).
  - pose proof (flush_file os g w) as (_ & Hn & _).
    destruct (QFileM.flush os g w) as [[flushed g'] w1]. cbn in Hn.
    destruct flushed; cbn [negb]; [|exact Hn].
    destruct (_ <? _); [|exact Hn].
    destruct (QFileM.engineWrite os data _ g' w1) as [[ret err] w2].
    destruct err as [[e msg]|]; [exact Hn|].
    destruct (0 <? ret); exact Hn.
  - cbn [negb]. destruct (_ <? _); [|reflexivity].
    destruct (QFileM.engineWrite os data _ g w) as [[ret err] w2].
    destruct err as [[e msg]|]; [reflexivity|].
    destruct (0 <? ret); reflexivity.
Qed.

(** [write] changes the contents of the file and nothing else. *)
Lemma write_contentsOnly os data f w :
  contentsOnly (Resolve.key os w (qf_fileName f)) w (snd (QFileM.write os data f w)).
Proof.
  unfold QFileM.write. destruct (qf_openMode f); try apply contentsOnly_refl.
  set (g := QFileM.unsetError f).
  change (qf_fileName f) with (qf_fileName g).
  destruct (_ <? _ + _).
  - pose proof (flush_contentsOnly os g w) as Hfl.
    pose proof (flush_file os g w) as (_ & Hn & _).
    destruct (QFileM.flush os g w) as [[flushed g'] w1]. cbn in Hfl, Hn.
    destruct flushed; cbn [negb]; [|exact Hfl].
    destruct (_ <? _); [|exact Hfl].
    pose proof (engineWrite_contentsOnly os data
                  (qf_pos g' - Z.of_nat (List.length (qf_writeBuffer g'))) g' w1) as He.
    rewrite Hn, (contentsOnly_key os _ _ _ _ Hfl) in He.
    destruct (QFileM.engineWrite os data _ g' w1) as [[ret err] w2]. cbn [snd] in He.
    assert (Ht : contentsOnly (Resolve.key os w (qf_fileName g)) w w2)
      by (eapply contentsOnly_trans; eassumption).
    destruct err as [[e msg]|]; exact Ht.
  - cbn [negb]. destruct (_ <? _); [|apply contentsOnly_refl].
    pose proof (engineWrite_contentsOnly os data
                  (qf_pos g - Z.of_nat (List.length (qf_writeBuffer g))) g w) as He.
    destruct (QFileM.engineWrite os data _ g w) as [[ret err] w2].
    destruct err as [[e msg]|]; exact He.
Qed.

(** [close] changes the contents of the file and nothing else; the file is
    closed afterwards, under the same name. *)
Lemma close_contentsOnly os f w :
  contentsOnly (Resolve.key os w (qf_fileName f)) w (snd (QFileM.close os f w)).
Proof.
  unfold QFileM.close. destruct (QFileM.isOpen f); [|apply contentsOnly_refl].
  pose proof (flush_contentsOnly os f w) as H.
  destruct (QFileM.flush os f w) as [[flushed f'] w1]. exact H.
Qed.

Lemma close_file os f w :
  QFileM.isOpen (fst (QFileM.close os f w)) = false
  /\ qf_fileName (fst (QFileM.close os f w)) = qf_fileName f.
Proof.
  unfold QFileM.close. destruct (QFileM.isOpen f) eqn:Eo; [|auto].
  pose proof (flush_file os f w) as (_ & Hn & _).
  destruct (QFileM.flush os f w) as [[flushed f'] w1]. cbn in *. auto.
Qed.

(** Closing a file with nothing in its buffer leaves the world alone. *)
Lemma close_unbuffered os f w :
  qf_writeBuffer f = [] -> snd (QFileM.close os f w) = w.
Proof.
  intros Hb. unfold QFileM.close, QFileM.flush. rewrite Hb.
  destruct (QFileM.isOpen f); reflexivity.
Qed.

Lemma isOpen_mode f g :
  qf_openMode f = qf_openMode g -> QFileM.isOpen f = QFileM.isOpen g.
Proof. unfold QFileM.isOpen. now intros ->. Qed.

(** [QFileInfo(name).exists()] and [isFile()] say what stands at [name]. *)
Lemma make_exists os w name :
  name <> "" -> fi_exists (QFileInfoM.make os w name) = true <-> onDisk os w name.
Proof.
  intros Hne. unfold QFileInfoM.make, onDisk, Resolve.node, Resolve.key.
  destruct name as [|c name]; [contradiction|]. cbn [QStr.isEmpty].
  destruct (files w !! _) as [n|]; cbn; split; intros H;
    try discriminate; eauto.
  destruct H; discriminate.
Qed.

Lemma make_isFile os w name :
  name <> "" -> fi_isFile (QFileInfoM.make os w name) = true <-> fileOnDisk os w name.
Proof.
  intros Hne. unfold QFileInfoM.make, fileOnDisk, Resolve.node, Resolve.key.
  destruct name as [|c name]; [contradiction|]. cbn [QStr.isEmpty].
  destruct (files w !! _) as [n|]; cbn; split; intros H; try discriminate; eauto.
  - destruct H as (n' & [= <-] & H). exact H.
  - destruct H as (n' & H & _). discriminate.
Qed.

End QtFacts.
Export QtFacts.

(** ** The chunked copy *)

Lemma copyOperationInProgress_released o :
  handlesReleased o -> copyOperationInProgress o = Some false.
Proof. intros [H1 H2]. unfold copyOperationInProgress. now rewrite H1, H2. Qed.

Lemma copyOperationInProgress_heldOpen o :
  handlesHeldOpen o -> copyOperationInProgress o = Some true.
Proof.
  intros (t & d & H1 & H2 & Ht & Hd). unfold copyOperationInProgress.
  now rewrite H1, H2, Ht, Hd.
Qed.

Lemma copyOperationInProgress_true o :
  copyOperationInProgress o = Some true -> handlesHeldOpen o.
Proof.
  unfold copyOperationInProgress.
  destruct (_destFile o) as [d|] eqn:Ed, (_thisFile o) as [t|] eqn:Et;
    try discriminate.
  intros [= Ep]. apply andb_true_iff in Ep as [? ?]. exists t, d. auto.
Qed.

(** Under the dual-handle invariant the query is defined and tells the two
    states apart. *)
Lemma copyOperationInProgress_paired o :
  handlesPaired o ->
  (copyOperationInProgress o = Some false /\ handlesReleased o)
  \/ (copyOperationInProgress o = Some true /\ handlesHeldOpen o).
Proof.
  intros [H|H]; [left | right]; split; auto using
    copyOperationInProgress_released, copyOperationInProgress_heldOpen.
Qed.

(** Once both files are open [copyChunk] fails only after the write, and it
    keeps both handles then. *)
Lemma copyChunk_transfer_Fail os chunkSize o w o' w' :
  handlesHeldOpen o ->
  copyChunk_transfer os chunkSize o w = Some (rcFail, o', w') ->
  handlesHeldOpen o'.
Proof.
  intros (t & d & H1 & H2 & Ht & Hd). unfold copyChunk_transfer. rewrite H1, H2.
  pose proof (QtFacts.read_mode os chunkSize t w) as Hr.
  destruct (QFileM.read os chunkSize t w) as [data t'] eqn:Er. cbn in Hr.
  destruct data as [|b data]; [discriminate|].
  pose proof (QtFacts.write_mode os (b :: data) d w) as Hw.
  destruct (QFileM.write os (b :: data) d w) as [[written d'] w1] eqn:Ew. cbn in Hw.
  destruct (written =? _); [discriminate|].
  intros [= <- <-]. exists t', d'. cbn. repeat split.
  - rewrite (QtFacts.isOpen_mode _ _ Hr). exact Ht.
  - rewrite (QtFacts.isOpen_mode _ _ Hw). exact Hd.
Qed.

Lemma copyChunk_open_inl os destFolder newName o w o' w' :
  copyChunk_open os destFolder newName o w = inl (o', w') ->
  handlesReleased o'
  /\ (sourceOpenFails os o w \/ destOpenFails os destFolder newName o w).
Proof.
  unfold copyChunk_open, sourceOpenFails, destOpenFails, copyDestination, fullAbsolutePath.
  destruct (QFileM.openRead os _ w) as [opened t] eqn:Er.
  destruct opened; cbn [negb fst].
  - destruct (QFileM.openWrite os _ w) as [[opened d] w1] eqn:Ew.
    destruct opened; cbn [negb fst]; [discriminate|].
    intros [= <- <-]. split; [split; reflexivity | right; reflexivity].
  - intros [= <- <-]. split; [split; reflexivity | left; reflexivity].
Qed.

Lemma copyChunk_open_inr os destFolder newName o w o' w' :
  copyChunk_open os destFolder newName o w = inr (o', w') ->
  handlesHeldOpen o'
  /\ ~ (sourceOpenFails os o w \/ destOpenFails os destFolder newName o w).
Proof.
  unfold copyChunk_open, sourceOpenFails, destOpenFails, copyDestination, fullAbsolutePath.
  destruct (QFileM.openRead os _ w) as [opened t] eqn:Er.
  destruct opened; cbn [negb fst]; [|discriminate].
  destruct (QFileM.openWrite os _ w) as [[opened d] w1] eqn:Ew.
  destruct opened; cbn [negb fst]; [|discriminate].
  intros [= <- <-]. split.
  - exists t, d. cbn. repeat split.
    + eapply QtFacts.openRead_open, Er.
    + eapply QtFacts.openWrite_open, Ew.
  - intros [H|H]; discriminate.
Qed.

(** C1, as the code has it.  When [copyChunk] returns [rcFail] because the
    source or the destination could not be opened, both handles are released
    and [copyOperationInProgress] is false.  When it returns [rcFail] for any
    other reason, which is the short write, both handles are still held and
    open and [copyOperationInProgress] is true. *)
Theorem copyChunk_Fail_handles os chunkSize destFolder newName o w o' w' :
  copyChunk os chunkSize destFolder newName o w = Some (rcFail, o', w') ->
  (copyOperationInProgress o = Some false
   /\ (sourceOpenFails os o w \/ destOpenFails os destFolder newName o w) ->
   handlesReleased o' /\ copyOperationInProgress o' = Some false)
  /\ (~ (copyOperationInProgress o = Some false
         /\ (sourceOpenFails os o w \/ destOpenFails os destFolder newName o w)) ->
      handlesHeldOpen o' /\ copyOperationInProgress o' = Some true).
Proof.
  unfold copyChunk. intros H.
  destruct (copyOperationInProgress o) as [[|]|] eqn:Ep; [| |discriminate].
  - (* a copy is in progress: both handles are held and open *)
    pose proof (copyOperationInProgress_true _ Ep) as Ho.
    pose proof (copyChunk_transfer_Fail _ _ _ _ _ _ Ho H) as Ho'.
    split.
    + intros [? _]. discriminate.
    + intros _. split; [exact Ho' | now apply copyOperationInProgress_heldOpen].
  - destruct (copyChunk_open os destFolder newName o w) as [[o1 w1]|[o1 w1]] eqn:Eo.
    + injection H as <- <-.
      destruct (copyChunk_open_inl _ _ _ _ _ _ _ Eo) as [Hrel Hfail].
      split.
      * intros _. split; [exact Hrel | now apply copyOperationInProgress_released].
      * intros Hn. exfalso. apply Hn. split; [reflexivity | exact Hfail].
    + destruct (copyChunk_open_inr _ _ _ _ _ _ _ Eo) as [Ho1 Hok].
      pose proof (copyChunk_transfer_Fail _ _ _ _ _ _ Ho1 H) as Ho'.
      split.
      * intros [_ Hf]. contradiction.
      * intros _. split; [exact Ho' | now apply copyOperationInProgress_heldOpen].
Qed.

(** The destination folder does not exist: the open of the destination is
    refused, [rcFail] comes back and nothing is held. *)
Lemma copyChunk_Fail_handles_witness :
  exists o' w',
    copyChunk Posix 4096 "/nowhere/" ""
      (Sample.object Posix (Sample.posixWorld 64) "/src/a.txt") (Sample.posixWorld 64)
    = Some (rcFail, o', w')
    /\ handlesReleased o' /\ copyOperationInProgress o' = Some false.
Proof.
  eexists _, _.
  assert (E : copyChunk Posix 4096 "/nowhere/" ""
                (Sample.object Posix (Sample.posixWorld 64) "/src/a.txt")
                (Sample.posixWorld 64) = Some (rcFail, _, _))
    by (vm_compute; reflexivity).
  split; [exact E|].
  apply (proj1 (copyChunk_Fail_handles _ _ _ _ _ _ _ _ E)).
  split; [vm_compute; reflexivity | right; vm_compute; reflexivity].
Defined.

(** C1 as stated fails on a short write.  /src/big.bin holds 16385 bytes,
    more than the write buffer of the destination [QFile], and the volume has
    room for two: the first [copyChunk], asked for up to 32768 bytes, opens
    both files, reads the 16385 bytes, hands them to the OS, which takes two
    of them, and returns [rcFail] with both handles still held and
    [copyOperationInProgress] true. *)
Lemma copyChunk_partial_write_keeps_handles :
  exists o' w',
    copyChunk Posix 32768 "/dst/" ""
      (Sample.object Posix (Sample.bigWorld 2) "/src/big.bin") (Sample.bigWorld 2)
    = Some (rcFail, o', w')
    /\ ~ handlesReleased o'
    /\ copyOperationInProgress o' = Some true
    /\ lastErrorMessage o' = "Unknown error"
    /\ n_data <$> Resolve.node Posix w' "/dst/big.bin" = Some (take 2 Sample.big).
Proof.
  destruct (copyChunk Posix 32768 "/dst/" ""
              (Sample.object Posix (Sample.bigWorld 2) "/src/big.bin") (Sample.bigWorld 2))
    as [[[r o'] w']|] eqn:E.
  - assert (Hr : (fun x => fst (fst x))
                   <$> copyChunk Posix 32768 "/dst/" ""
                         (Sample.object Posix (Sample.bigWorld 2) "/src/big.bin")
                         (Sample.bigWorld 2) = Some rcFail) by (vm_compute; reflexivity).
    rewrite E in Hr. injection Hr as ->.
    exists o', w'. split; [reflexivity|].
    assert (Ho : (fun x => (_thisFile (snd (fst x)), copyOperationInProgress (snd (fst x)),
                            lastErrorMessage (snd (fst x)),
                            n_data <$> Resolve.node Posix (snd x) "/dst/big.bin"))
                   <$> copyChunk Posix 32768 "/dst/" ""
                         (Sample.object Posix (Sample.bigWorld 2) "/src/big.bin")
                         (Sample.bigWorld 2)
                 = Some (Some (mkQFile "/src/big.bin" ReadOnly 16385 NoError
                                 "Unknown error" []),
                         Some true, "Unknown error", Some (take 2 Sample.big)))
      by (vm_compute; reflexivity).
    rewrite E in Ho. cbn in Ho. injection Ho as Ht Hp He Hd.
    split; [intros [H _]; congruence|]. auto.
  - assert (Hr : is_Some (copyChunk Posix 32768 "/dst/" ""
                            (Sample.object Posix (Sample.bigWorld 2) "/src/big.bin")
                            (Sample.bigWorld 2))) by (vm_compute; eauto).
    rewrite E in Hr. destruct Hr; discriminate.
Qed.

(** The dual-handle invariant holds for a new object. *)
Lemma construct_paired os fasthash64 fileInfo :
  handlesPaired (construct os fasthash64 fileInfo).
Proof. left. split; reflexivity. Qed.

Lemma copyChunk_transfer_paired os chunkSize o w :
  handlesHeldOpen o ->
  exists r o' w', copyChunk_transfer os chunkSize o w = Some (r, o', w') /\ handlesPaired o'.
Proof.
  intros (t & d & H1 & H2 & Ht & Hd). unfold copyChunk_transfer. rewrite H1, H2.
  pose proof (QtFacts.read_mode os chunkSize t w) as Hr.
  destruct (QFileM.read os chunkSize t w) as [data t'] eqn:Er. cbn in Hr.
  destruct data as [|b data].
  - eexists _, _, _. split; [reflexivity|]. left. split; reflexivity.
  - pose proof (QtFacts.write_mode os (b :: data) d w) as Hw.
    destruct (QFileM.write os (b :: data) d w) as [[written d'] w1] eqn:Ew. cbn in Hw.
    assert (Hheld : forall e, handlesHeldOpen
              (with_lastError e (with_destFile (Some d') (with_thisFile (Some t') o)))).
    { intros e. exists t', d'. cbn. repeat split.
      - rewrite (QtFacts.isOpen_mode _ _ Hr). exact Ht.
      - rewrite (QtFacts.isOpen_mode _ _ Hw). exact Hd. }
    destruct (written =? _); eexists _, _, _; (split; [reflexivity|]); right.
    + apply (Hheld (_lastError o)).
    + apply Hheld.
Qed.

(** X1.  The dual-handle invariant is kept by the chunked copy, and under it
    [copyChunk] never touches a null handle: it returns, with the handles
    either both released or both held and open. *)
Lemma copyChunk_paired os chunkSize destFolder newName o w :
  handlesPaired o ->
  exists r o' w',
    copyChunk os chunkSize destFolder newName o w = Some (r, o', w') /\ handlesPaired o'.
Proof.
  intros Hp. unfold copyChunk.
  destruct (copyOperationInProgress_paired _ Hp) as [[-> _]|[-> Ho]].
  - destruct (copyChunk_open os destFolder newName o w) as [[o1 w1]|[o1 w1]] eqn:Eo.
    + eexists _, _, _. split; [reflexivity|]. left.
      apply (copyChunk_open_inl _ _ _ _ _ _ _ Eo).
    + apply copyChunk_transfer_paired. apply (copyChunk_open_inr _ _ _ _ _ _ _ Eo).
  - apply copyChunk_transfer_paired, Ho.
Qed.

(** The first chunk of the copy of /src/a.txt, from a new object. *)
Lemma copyChunk_paired_witness :
  exists r o' w',
    copyChunk Posix 4096 "/dst/" "" (fst Sample.start) (snd Sample.start) = Some (r, o', w')
    /\ handlesPaired o'.
Proof. apply copyChunk_paired. apply construct_paired. Defined.

(** ** Cancelling a copy *)

(** What [contentsOnly] keeps at every key. *)
Lemma contentsOnly_node k w w' j :
  contentsOnly k w w' ->
  match files w !! j, files w' !! j with
  | Some n, Some n' => n_kind n' = n_kind n /\ n_denied n' = n_denied n
  | None, None => True
  | _, _ => False
  end.
Proof.
  intros (_ & Hf & Hk). destruct (decide (j = k)) as [->|Hj].
  - destruct (files w !! k), (files w' !! k); tauto.
  - rewrite (Hf j Hj). destruct (files w !! j); auto.
Qed.

Lemma contentsOnly_fileOnDisk os k w w' name :
  contentsOnly k w w' -> fileOnDisk os w name <-> fileOnDisk os w' name.
Proof.
  intros H. unfold fileOnDisk, Resolve.node.
  rewrite (contentsOnly_key os _ _ _ name H).
  pose proof (contentsOnly_node _ _ _ (Resolve.key os w name) H) as Hn.
  unfold isKind.
  destruct (files w !! _) as [n|], (files w' !! _) as [n'|]; try contradiction.
  - destruct Hn as [Hk _]. split; intros (x & [= <-] & Hx); eexists; (split; [reflexivity|]).
    + now rewrite Hk.
    + now rewrite <- Hk.
  - split; intros (x & Hx & _); discriminate.
Qed.

Lemma contentsOnly_onDisk os k w w' name :
  contentsOnly k w w' -> onDisk os w name <-> onDisk os w' name.
Proof.
  intros H. unfold onDisk, Resolve.node.
  rewrite (contentsOnly_key os _ _ _ name H).
  pose proof (contentsOnly_node _ _ _ (Resolve.key os w name) H) as Hn.
  destruct (files w !! _) as [n|], (files w' !! _) as [n'|]; try contradiction.
  - split; eauto.
  - split; intros [x Hx]; discriminate.
Qed.

(** The engine's [remove] answers true exactly when the file was deleted, and
    leaves the world alone otherwise. *)
Lemma engineRemove_spec os f w succ f' w' :
  QFileM.engineRemove os f w = (succ, f', w') ->
  (succ = true <-> fileRemoved os w w' (qf_fileName f))
  /\ (succ = true -> ~ onDisk os w' (qf_fileName f))
  /\ (succ = false -> w' = w)
  /\ QFileM.isOpen f' = QFileM.isOpen f.
Proof.
  unfold QFileM.engineRemove, fileRemoved, fileOnDisk, onDisk, Resolve.node, Resolve.key.
  set (k := Resolve.cleanPath os _).
  destruct (files w !! k) as [n|] eqn:En.
  - destruct (isKind KFile n && negb (n_denied n)) eqn:Ek.
    + intros [= <- <- <-]. cbn. fold k. rewrite lookup_delete_eq.
      apply andb_true_iff in Ek as [Ek _].
      repeat split; try discriminate; eauto;
        try (intros _ [x Hx]; discriminate).
    + intros [= <- <- <-]. fold k. rewrite En.
      repeat split; try discriminate. intros [_ H]. discriminate.
  - intros [= <- <- <-]. fold k. rewrite En.
    repeat split; try discriminate. intros [(n & H & _) _]. discriminate.
Qed.

(** [remove] on a file that is not open is the engine's. *)
Lemma remove_closed os f w :
  QFileM.isOpen f = false ->
  QFileM.remove os f w = QFileM.engineRemove os (QFileM.unsetError f) w.
Proof.
  intros Hc. unfold QFileM.remove, QFileM.close.
  change (QFileM.isOpen (QFileM.unsetError f)) with (QFileM.isOpen f). rewrite Hc.
  reflexivity.
Qed.

(** [QFile::remove] of a file that is not open answers true exactly when the
    file was deleted, and leaves the world alone otherwise. *)
Lemma remove_spec os f w succ f' w' :
  QFileM.isOpen f = false ->
  QFileM.remove os f w = (succ, f', w') ->
  (succ = true <-> fileRemoved os w w' (qf_fileName f))
  /\ (succ = true -> ~ onDisk os w' (qf_fileName f))
  /\ (succ = false -> w' = w)
  /\ QFileM.isOpen f' = false.
Proof.
  intros Hc. rewrite (remove_closed os f w Hc). intros E.
  destruct (engineRemove_spec _ _ _ _ _ _ E) as (H1 & H2 & H3 & H4).
  repeat split; try apply H1; try assumption. now rewrite H4.
Qed.

(** Releasing a handle whose file is not open leaves the world alone. *)
Lemma release_closed os h w :
  (forall f, h = Some f -> QFileM.isOpen f = false) -> release os h w = w.
Proof.
  intros H. destruct h as [f|]; [|reflexivity]. cbn. unfold QFileM.close.
  now rewrite (H f eq_refl).
Qed.

(** C3, as the code has it.  Under the dual-handle invariant [cancelCopy]
    always returns with both handles released.  With a copy in progress it
    returns [rcOk] exactly when the destination file was removed, and then
    nothing stands at the destination's name.  With no copy in progress it
    returns [rcOk] and leaves the file system as it is. *)
Theorem cancelCopy_removes_destination os o w :
  handlesPaired o ->
  exists r o' w',
    cancelCopy os o w = Some (r, o', w')
    /\ handlesReleased o'
    /\ (forall destFile,
          copyOperationInProgress o = Some true ->
          _destFile o = Some destFile ->
          (r = rcOk <-> fileRemoved os w w' (qf_fileName destFile))
          /\ (r = rcOk -> ~ onDisk os w' (qf_fileName destFile)))
    /\ (copyOperationInProgress o = Some false -> r = rcOk /\ w' = w).
Proof.
  intros Hp. unfold cancelCopy.
  destruct (copyOperationInProgress_paired _ Hp) as [[E Ho]|[E Ho]]; rewrite E.
  - exists rcOk, o, w. repeat split; try apply Ho; discriminate.
  - destruct Ho as (t & d & H1 & H2 & _). rewrite H1, H2.
    pose proof (close_contentsOnly os t w) as Hct.
    pose proof (QtFacts.close_file os t w) as [Hto _].
    destruct (QFileM.close os t w) as [t1 w1]. cbn [fst snd] in Hct, Hto.
    pose proof (close_contentsOnly os d w1) as Hcd.
    pose proof (QtFacts.close_file os d w1) as [Hdo Hdn].
    destruct (QFileM.close os d w1) as [d1 w2]. cbn [fst snd] in Hcd, Hdo, Hdn.
    destruct (QFileM.remove os d1 w2) as [[succ d'] w'] eqn:Er.
    destruct (remove_spec _ _ _ _ _ _ Hdo Er) as (Hiff & Hgone & Hsame & Hd'o).
    rewrite Hdn in Hiff, Hgone.
    unfold resetHandles. cbn [_thisFile _destFile with_thisFile with_destFile].
    rewrite (release_closed os (Some t1) w') by (intros f [= <-]; exact Hto).
    rewrite (release_closed os (Some d') w') by (intros f [= <-]; exact Hd'o).
    eexists _, _, _. split; [reflexivity|]. split; [split; reflexivity|]. split.
    + intros destFile _ [= <-].
      assert (Hon : fileOnDisk os w (qf_fileName d) <-> fileOnDisk os w2 (qf_fileName d)).
      { rewrite (contentsOnly_fileOnDisk os _ _ _ _ Hct).
        apply (contentsOnly_fileOnDisk os _ _ _ _ Hcd). }
      split.
      * unfold fileRemoved in *. rewrite Hon. rewrite <- Hiff.
        destruct succ; split; congruence.
      * intros Hr. apply Hgone. destruct succ; congruence.
    + discriminate.
Qed.

(** A copy of /src/a.txt into /dst/ is in progress after its first chunk;
    cancelling it removes /dst/a.txt. *)
Lemma cancelCopy_removes_destination_witness :
  exists o' w',
    cancelCopy Posix (fst Sample.copying) (snd Sample.copying) = Some (rcOk, o', w')
    /\ handlesReleased o'
    /\ fileRemoved Posix (snd Sample.copying) w' "/dst/a.txt".
Proof.
  destruct (cancelCopy_removes_destination Posix (fst Sample.copying) (snd Sample.copying))
    as (r & o' & w' & E & Hrel & Hin & _).
  { right. eexists _, _. repeat split; vm_compute; reflexivity. }
  assert (Hr : r = rcOk) by (vm_compute in E; congruence).
  exists o', w'. subst r. split; [exact E|]. split; [exact Hrel|].
  apply (Hin (mkQFile "/dst/a.txt" WriteOnly 5 NoError "Unknown error"
                (Sample.bytes "hello")));
    vm_compute; reflexivity.
Defined.

(** C3 as stated fails when no copy is in progress.  After the copy of
    /src/a.txt into /dst/ has completed, [cancelCopy] returns [rcOk], removes
    nothing (the world is the same) and /dst/a.txt is still on disk. *)
Lemma cancelCopy_idle_removes_nothing :
  copyOperationInProgress (fst Sample.copied) = Some false
  /\ cancelCopy Posix (fst Sample.copied) (snd Sample.copied)
     = Some (rcOk, fst Sample.copied, snd Sample.copied)
  /\ n_data <$> Resolve.node Posix (snd Sample.copied) "/dst/a.txt"
     = Some (Sample.bytes "hello").
Proof. split; [|split]; vm_compute; reflexivity. Qed.

Example copy_in_two_chunks :
  (exists o w, copyChunk Posix 4096 "/dst/" "" (fst Sample.start) (snd Sample.start)
               = Some (rcOk, o, w) /\ (o, w) = Sample.copying)
  /\ (exists o w, copyChunk Posix 4096 "/dst/" "" (fst Sample.copying) (snd Sample.copying)
                  = Some (rcOk, o, w) /\ (o, w) = Sample.copied)
  /\ copyOperationInProgress (fst Sample.copying) = Some true
  /\ bytesCopied (fst Sample.copying) = 5.
Proof.
  split; [|split; [|split]]; try (vm_compute; reflexivity);
    eexists _, _; (split; [vm_compute; reflexivity|]); vm_compute; reflexivity.
Qed.

(** ** Moving *)

Lemma moveDestination_nonempty location newName o :
  moveDestination location newName o <> "".
Proof. unfold moveDestination. destruct location; discriminate. Qed.

(** C2.  [moveAtomically] tests in this order: an object that does not exist
    gives [rcObjectDoesntExist]; an existing ".." entry gives [rcFail]; for
    any other object, a destination name that is taken gives
    [rcTargetAlreadyExists] when the object is a directory or a regular file
    stands at the destination.  In each of these cases the object and the
    world come back as they were. *)
Theorem moveAtomically_refusals os fasthash64 location newName o w :
  (exists_ o = false ->
   moveAtomically os fasthash64 location newName o w = (rcObjectDoesntExist, o, w))
  /\ (exists_ o = true -> isCdUp o = true ->
      moveAtomically os fasthash64 location newName o w = (rcFail, o, w))
  /\ (exists_ o = true -> isCdUp o = false ->
      onDisk os w (moveDestination location newName o) ->
      isDir o = true \/ fileOnDisk os w (moveDestination location newName o) ->
      moveAtomically os fasthash64 location newName o w = (rcTargetAlreadyExists, o, w)).
Proof.
  unfold moveAtomically. fold (moveDestination location newName o).
  split; [|split].
  - intros ->. reflexivity.
  - intros -> ->. reflexivity.
  - intros -> -> Hd Hk. cbn [negb].
    apply QtFacts.make_exists in Hd; [|apply moveDestination_nonempty]. rewrite Hd.
    destruct Hk as [->|Hf]; [reflexivity|].
    apply QtFacts.make_isFile in Hf; [|apply moveDestination_nonempty].
    rewrite Hf, orb_true_r. reflexivity.
Qed.

(** A missing source, the ".." entry of /src/sub, a file onto the name of a
    file, a directory onto a taken name; then a file and a directory that do
    move, and a directory that cannot cross to the volume of /mnt. *)
Example moveAtomically_examples :
  let w := Sample.posixWorld 64 in
  let obj := Sample.object Posix w in
  moveAtomically Posix Sample.hash "/dst" "" (obj "/src/none.txt") w
  = (rcObjectDoesntExist, obj "/src/none.txt", w)
  /\ moveAtomically Posix Sample.hash "/dst" "" (obj "/src/sub/..") w
     = (rcFail, obj "/src/sub/..", w)
  /\ moveAtomically Posix Sample.hash "/dst" "b.txt" (obj "/src/a.txt") w
     = (rcTargetAlreadyExists, obj "/src/a.txt", w)
  /\ moveAtomically Posix Sample.hash "/" "dst" (obj "/src/sub") w
     = (rcTargetAlreadyExists, obj "/src/sub", w)
  /\ fst (fst (moveAtomically Posix Sample.hash "/dst" "" (obj "/src/a.txt") w)) = rcOk
  /\ fst (fst (moveAtomically Posix Sample.hash "/dst" "" (obj "/src/sub") w)) = rcOk
  /\ fst (fst (moveAtomically Posix Sample.hash "/mnt" "" (obj "/src/sub") w)) = rcFail.
Proof.
  cbv zeta. repeat (split; [vm_compute; reflexivity|]). vm_compute; reflexivity.
Qed.

(** A move leaves the two handles of a chunked copy as they are. *)
Lemma moveAtomically_handles os fasthash64 location newName o w :
  _thisFile (snd (fst (moveAtomically os fasthash64 location newName o w))) = _thisFile o
  /\ _destFile (snd (fst (moveAtomically os fasthash64 location newName o w))) = _destFile o.
Proof.
  unfold moveAtomically.
  destruct (negb (exists_ o)); [split; reflexivity|].
  destruct (isCdUp o); [split; reflexivity|].
  destruct (fi_exists _ && _); [split; reflexivity|].
  destruct (isFile o).
  - destruct (QFileM.rename os _ _ w) as [[succ f] w1].
    destruct succ; split; reflexivity.
  - destruct (isDir o); [|split; reflexivity].
    destruct (QDirM.rename os _ _ w) as [succ w1]. split; reflexivity.
Qed.

(** C8.  [moveChunk] is [moveAtomically] on the same destination and name:
    the same result code, the same object and the same world afterwards,
    whatever the chunk size. *)
Theorem moveChunk_is_moveAtomically os fasthash64 chunkSize destFolder newName o w :
  moveChunk os fasthash64 chunkSize destFolder newName o w
  = moveAtomically os fasthash64 destFolder newName o w
  /\ (forall chunkSize',
        moveChunk os fasthash64 chunkSize' destFolder newName o w
        = moveChunk os fasthash64 chunkSize destFolder newName o w).
Proof. split; reflexivity. Qed.

(** ** Queries and the cached properties *)

(** C9.  An object whose type is not [Directory] is never reported as an
    empty directory, whatever the file system holds. *)
Theorem isEmptyDir_not_directory os o w :
  type o <> Directory -> isEmptyDir os o w = false.
Proof.
  unfold isEmptyDir, isDir, type. intros H.
  destruct (Properties.type (_properties o)); [reflexivity | contradiction | reflexivity].
Qed.

(** The regular file /src/a.txt. *)
Lemma isEmptyDir_not_directory_witness :
  type (Sample.object Posix (Sample.posixWorld 64) "/src/a.txt") <> Directory
  /\ isEmptyDir Posix (Sample.object Posix (Sample.posixWorld 64) "/src/a.txt")
       (Sample.posixWorld 64) = false.
Proof.
  assert (H : type (Sample.object Posix (Sample.posixWorld 64) "/src/a.txt") <> Directory)
    by (vm_compute; discriminate).
  split; [exact H|].
  apply (isEmptyDir_not_directory Posix _ (Sample.posixWorld 64) H).
Defined.

(** C10.  [setDirSize] stores the size and changes nothing else: the hash,
    the full path, the parent folder, the names, the extension, the type, the
    existence flag and the two dates are as before, and so are the members
    outside the cached properties.  The method is a function of the object
    alone: it does not reach the file system. *)
Theorem setDirSize_frame n o :
  size (setDirSize n o) = n
  /\ hash (setDirSize n o) = hash o
  /\ fullAbsolutePath (setDirSize n o) = fullAbsolutePath o
  /\ parentDirPath (setDirSize n o) = parentDirPath o
  /\ name (setDirSize n o) = name o
  /\ fullName (setDirSize n o) = fullName o
  /\ Properties.extension (_properties (setDirSize n o)) = Properties.extension (_properties o)
  /\ extension (setDirSize n o) = extension o
  /\ type (setDirSize n o) = type o
  /\ exists_ (setDirSize n o) = exists_ o
  /\ Properties.creationDate (_properties (setDirSize n o))
     = Properties.creationDate (_properties o)
  /\ Properties.modificationDate (_properties (setDirSize n o))
     = Properties.modificationDate (_properties o)
  /\ _fileInfo (setDirSize n o) = _fileInfo o
  /\ _lastError (setDirSize n o) = _lastError o
  /\ _rootFileSystemId (setDirSize n o) = _rootFileSystemId o
  /\ _thisFile (setDirSize n o) = _thisFile o
  /\ _destFile (setDirSize n o) = _destFile o.
Proof. repeat split. Qed.

(** Only the size distinguishes the object after [setDirSize] from the one
    before: storing the old size back gives the old object. *)
Lemma setDirSize_only_size n o :
  setDirSize (size o) (setDirSize n o) = o.
Proof. destruct o as [fi [] e i t d]. reflexivity. Qed.

(** ** Identity *)

Lemma refreshInfo_fullPath os fasthash64 o :
  fullAbsolutePath (refreshInfo os fasthash64 o) = fi_absoluteFilePath (_fileInfo o).
Proof.
  unfold refreshInfo, fullAbsolutePath. cbn.
  repeat (match goal with
          | |- context [if ?b then _ else _] => destruct b
          | |- context [match ?x with _ => _ end] => destruct x
          end; cbn); reflexivity.
Qed.

Lemma refreshInfo_hash os fasthash64 o :
  hash (refreshInfo os fasthash64 o)
  = fasthash64 (QStr.toUtf8 (fi_absoluteFilePath (_fileInfo o)))
      (Z.of_nat (List.length (QStr.toUtf8 (fi_absoluteFilePath (_fileInfo o))))) 0.
Proof.
  unfold refreshInfo, hash. cbn.
  repeat (match goal with
          | |- context [if ?b then _ else _] => destruct b
          | |- context [match ?x with _ => _ end] => destruct x
          end; cbn); reflexivity.
Qed.

Lemma refreshInfo_hashOfPath os fasthash64 o :
  hashOfPath fasthash64 (refreshInfo os fasthash64 o).
Proof. unfold hashOfPath. now rewrite refreshInfo_hash, refreshInfo_fullPath. Qed.

(** C4.  [operator==] holds exactly when the two hashes are equal.  After
    [refreshInfo], and so for every newly made object, the hash is
    [fasthash64] with seed 0 of the UTF-8 bytes of the full path; two
    refreshed objects with the same full path have the same hash, whatever
    else they hold. *)
Theorem operator_eq_is_hash_equality os fasthash64 :
  (forall a b, operator_eq a b = true <-> hash a = hash b)
  /\ (forall o, hashOfPath fasthash64 (refreshInfo os fasthash64 o))
  /\ (forall fileInfo, hashOfPath fasthash64 (construct os fasthash64 fileInfo))
  /\ (forall a b,
        fullAbsolutePath (refreshInfo os fasthash64 a)
        = fullAbsolutePath (refreshInfo os fasthash64 b) ->
        hash (refreshInfo os fasthash64 a) = hash (refreshInfo os fasthash64 b)
        /\ operator_eq (refreshInfo os fasthash64 a) (refreshInfo os fasthash64 b) = true).
Proof.
  split; [|split; [|split]].
  - intros a b. unfold operator_eq. apply Z.eqb_eq.
  - apply refreshInfo_hashOfPath.
  - intros fileInfo. apply refreshInfo_hashOfPath.
  - intros a b H.
    assert (E : hash (refreshInfo os fasthash64 a) = hash (refreshInfo os fasthash64 b)).
    { rewrite (refreshInfo_hashOfPath os fasthash64 a),
        (refreshInfo_hashOfPath os fasthash64 b), H. reflexivity. }
    split; [exact E|]. unfold operator_eq. apply Z.eqb_eq, E.
Qed.

(** The same name reached in two ways, once existing and once not, and two
    names on one volume. *)
Example operator_eq_examples :
  let w := Sample.posixWorld 64 in
  operator_eq (Sample.object Posix w "/src/a.txt") (Sample.object Posix w "/src/./sub/../a.txt")
  = true
  /\ operator_eq (Sample.object Posix w "/src/a.txt")
       (Sample.object Posix (set_files ∅ w) "/src/a.txt") = true
  /\ operator_eq (Sample.object Posix w "/src/a.txt") (Sample.object Posix w "/dst/b.txt")
     = false.
Proof. cbv zeta. split; [|split]; vm_compute; reflexivity. Qed.



(** ** Volumes *)

(** Asking for the volume id changes neither the files nor the working
    directory. *)
Lemma rootFileSystemId_world os o w :
  files (snd (rootFileSystemId os o w)) = files w
  /\ cwd (snd (rootFileSystemId os o w)) = cwd w.
Proof.
  unfold rootFileSystemId.
  destruct (_rootFileSystemId o =? UINT64_MAX); [|cbn; auto].
  destruct os.
  - destruct (negb _); cbn; auto.
  - unfold PosixAPI.stat. destruct (Resolve.node Posix w _); cbn; auto.
Qed.

Lemma volumeId_world os o w w1 :
  files w1 = files w -> cwd w1 = cwd w -> volumeId os o w1 = volumeId os o w.
Proof.
  intros Hf Hc. unfold volumeId, rootFileSystemId, PosixAPI.stat, Resolve.node, Resolve.key.
  rewrite Hf, Hc.
  destruct (_rootFileSystemId o =? UINT64_MAX); [|reflexivity].
  destruct os.
  - destruct (negb _); reflexivity.
  - destruct (files w !! _); reflexivity.
Qed.

(** Where the identifier comes from: the memoised value once it is known,
    else the drive number (Windows) or the device of the node (POSIX), else
    the sentinel. *)
Lemma volumeId_spec os o w :
  volumeId os o w =
  if _rootFileSystemId o =? UINT64_MAX then
    match os with
    | Win32 =>
        if Win32API.PathGetDriveNumberW (fullAbsolutePath o) =? -1 then UINT64_MAX
        else to_uint64 (Win32API.PathGetDriveNumberW (fullAbsolutePath o))
    | Posix =>
        match Resolve.node Posix w (fullAbsolutePath o) with
        | Some n => to_uint64 (n_dev n)
        | None => UINT64_MAX
        end
    end
  else _rootFileSystemId o.
Proof.
  unfold volumeId, rootFileSystemId, PosixAPI.stat, fullAbsolutePath.
  destruct (_rootFileSystemId o =? UINT64_MAX) eqn:E; [|reflexivity].
  apply Z.eqb_eq in E.
  destruct os.
  - destruct (Win32API.PathGetDriveNumberW _ =? -1); cbn; auto.
  - destruct (Resolve.node Posix w _); cbn; auto.
Qed.

(** C5.  [isMovableTo] answers true exactly when the volume identifiers of
    the two objects are both known (not the sentinel [UINT64_MAX]) and equal;
    when either is the sentinel the answer is false. *)
Theorem isMovableTo_iff os o dest w :
  (fst (fst (fst (isMovableTo os o dest w))) = true
   <-> volumeId os o w <> UINT64_MAX /\ volumeId os dest w <> UINT64_MAX
       /\ volumeId os o w = volumeId os dest w)
  /\ (volumeId os o w = UINT64_MAX \/ volumeId os dest w = UINT64_MAX ->
      fst (fst (fst (isMovableTo os o dest w))) = false).
Proof.
  unfold isMovableTo.
  pose proof (rootFileSystemId_world os o w) as [Hf Hc].
  pose proof (volumeId_world os dest w _ Hf Hc) as Hd.
  unfold volumeId in *.
  destruct (rootFileSystemId os o w) as [[a o1] w1]. cbn in Hf, Hc, Hd |- *.
  destruct (rootFileSystemId os dest w1) as [[b d1] w2]. cbn in Hd |- *. subst b.
  set (b := fst (fst (rootFileSystemId os dest w))).
  split.
  - rewrite !andb_true_iff, !negb_true_iff, Z.eqb_eq, !Z.eqb_neq. tauto.
  - intros [H|H]; rewrite H.
    + rewrite Z.eqb_refl. cbn. now rewrite andb_false_r.
    + rewrite Z.eqb_refl. cbn. now rewrite andb_false_r.
Qed.

(** Two names on one volume; another volume; a name nothing stands at,
    compared with itself; two names on drive C; drives C and D. *)
Example isMovableTo_examples :
  let w := Sample.posixWorld 64 in
  let obj := Sample.object Posix w in
  fst (fst (fst (isMovableTo Posix (obj "/src/a.txt") (obj "/dst") w))) = true
  /\ fst (fst (fst (isMovableTo Posix (obj "/src/a.txt") (obj "/mnt") w))) = false
  /\ fst (fst (fst (isMovableTo Posix (obj "/gone") (obj "/gone") w))) = false
  /\ fst (fst (fst (isMovableTo Win32 (Sample.object Win32 Sample.winWorld "C:/docs/a.txt")
                      (Sample.object Win32 Sample.winWorld "c:/docs") Sample.winWorld))) = true
  /\ fst (fst (fst (isMovableTo Win32 (Sample.object Win32 Sample.winWorld "C:/docs/a.txt")
                      (Sample.object Win32 Sample.winWorld "D:/") Sample.winWorld))) = false.
Proof. cbv zeta. repeat (split; [vm_compute; reflexivity|]). vm_compute; reflexivity. Qed.

(** ** The read-only attribute *)

Lemma clearReadOnly_bits a :
  0 <= a < 2 ^ 32 -> readOnlyToggled true a (clearReadOnly a).
Proof.
  intros Ha. unfold readOnlyToggled, clearReadOnly, FILE_ATTRIBUTE_READONLY. split.
  - rewrite !Z.land_spec. cbn. now rewrite andb_false_r.
  - intros i Hi. rewrite !Z.land_spec, Z.lnot_spec by lia.
    destruct (Z.ltb_spec i 32).
    + change (2 ^ 32 - 1) with (Z.ones 32). rewrite Z.ones_spec_low by lia.
      rewrite Z.bits_above_log2 with (a := 1) (n := i); [|lia|cbn; lia].
      cbn. now rewrite !andb_true_r.
    + rewrite (Z.bits_above_log2 a i); [reflexivity|lia|].
      destruct (Z.eq_dec a 0) as [->|]; [cbn; lia|].
      apply Z.log2_lt_pow2; [lia|].
      eapply Z.lt_le_trans; [apply Ha|]. apply Z.pow_le_mono_r; lia.
Qed.

Lemma setReadOnly_bits a : readOnlyToggled false a (setReadOnly a).
Proof.
  unfold readOnlyToggled, setReadOnly, FILE_ATTRIBUTE_READONLY. split.
  - rewrite Z.lor_spec. cbn. apply orb_true_r.
  - intros i Hi. rewrite Z.lor_spec.
    rewrite Z.bits_above_log2 with (a := 1) (n := i); [|lia|cbn; lia].
    apply orb_false_r.
Qed.




(** A file made read-only and writable again; a directory, refused; the name
    handed to the OS. *)
Example makeWritable_examples :
  let w := Sample.winWorld in
  let a := Sample.object Win32 w "C:/docs/a.txt" in
  (exists w', makeWritable Win32 false a w = Some (true, a, w')
     /\ n_attributes <$> Resolve.node Win32 w' "C:/docs/a.txt" = Some 33
     /\ exists w'', makeWritable Win32 true a w' = Some (true, a, w'')
          /\ n_attributes <$> Resolve.node Win32 w'' "C:/docs/a.txt" = Some 32)
  /\ makeWritable Win32 true (Sample.object Win32 w "C:/docs") w
     = Some (false, Sample.object Win32 w "C:/docs", w)
  /\ longPathName a = "\\?\C:\docs\a.txt".
Proof.
  cbv zeta. split; [|split]; [|vm_compute; reflexivity|vm_compute; reflexivity].
  eexists. split; [vm_compute; reflexivity|]. split; [vm_compute; reflexivity|].
  eexists. split; vm_compute; reflexivity.
Qed.

(** * Further properties *)

(** ** The chunked copy, from the first chunk to the last *)

Lemma key_cwd os w w0 name :
  cwd w = cwd w0 -> Resolve.key os w name = Resolve.key os w0 name.
Proof. unfold Resolve.key. now intros ->. Qed.

Lemma read_at os chunkSize t w n :
  qf_openMode t = ReadOnly ->
  Resolve.node os w (qf_fileName t) = Some n ->
  isKind KFile n = true ->
  QFileM.read os chunkSize t w
  = (take (Z.to_nat chunkSize) (drop (Z.to_nat (qf_pos t)) (n_data n)),
     QFileM.moved
       (qf_pos t
        + Z.of_nat (List.length
                      (take (Z.to_nat chunkSize) (drop (Z.to_nat (qf_pos t)) (n_data n))))) t).
Proof. unfold QFileM.read. intros -> -> ->. reflexivity. Qed.

(** The engine's [write] when the bytes find room. *)
Lemma engineWrite_fits os data offset f w n :
  files w !! Resolve.key os w (qf_fileName f) = Some n ->
  isKind KFile n = true ->
  Z.of_nat (List.length data) <= freeSpace w ->
  QFileM.engineWrite os data offset f w
  = (Z.of_nat (List.length data), None,
     set_freeSpace (freeSpace w - Z.of_nat (List.length data))
       (set_files
          (<[Resolve.key os w (qf_fileName f) :=
               QFileM.withData
                 (take (Z.to_nat offset) (n_data n) ++ data
                  ++ drop (Z.to_nat offset + List.length data) (n_data n))%list w n]>
             (files w)) w)).
Proof.
  unfold QFileM.engineWrite. intros -> -> H.
  destruct (Z.leb_spec (Z.of_nat (List.length data)) (Z.max 0 (freeSpace w))); [reflexivity|lia].
Qed.

(** What a successful [open(WriteOnly)] leaves: an empty regular file under
    the name, the other names as they were, and no less room. *)
Lemma openWrite_success os dst w f' w1 :
  QFileM.openWrite os (QFileM.make dst) w = (true, f', w1) ->
  f' = QFileM.opened WriteOnly (QFileM.make dst)
  /\ cwd w1 = cwd w
  /\ (exists nd, files w1 !! Resolve.key os w dst = Some nd
                 /\ isKind KFile nd = true /\ n_denied nd = false /\ n_data nd = [])
  /\ (forall k, k <> Resolve.key os w dst -> files w1 !! k = files w !! k)
  /\ freeSpace w <= freeSpace w1.
Proof.
  unfold QFileM.openWrite. cbn [QFileM.isOpen QFileM.make qf_openMode qf_fileName].
  set (k := Resolve.key os w dst).
  destruct (files w !! k) as [n|] eqn:En.
  - destruct (isKind KFile n) eqn:Ek, (n_denied n) eqn:Ed, (isReadOnlyNode n);
      cbn; try discriminate.
    intros [= <- <-]. cbn. repeat split.
    + eexists. rewrite lookup_insert_eq. split; [reflexivity|]. cbn.
      unfold isKind in *. cbn. auto.
    + intros k' Hk. now rewrite lookup_insert_ne.
    + lia.
  - destruct (files w !! QtPath.path os k) as [dn|]; [|discriminate].
    destruct (isKind KDir dn && negb (n_denied dn)); [|discriminate].
    intros [= <- <-]. cbn. repeat split.
    + eexists. rewrite lookup_insert_eq. split; [reflexivity|]. cbn. auto.
    + intros k' Hk. now rewrite lookup_insert_ne.
    + lia.
Qed.

(** [copyChunk] after the opens, in terms of what [read] and [write] answer. *)
Lemma copyChunk_transfer_eq os chunkSize o w t d :
  _thisFile o = Some t -> _destFile o = Some d ->
  copyChunk_transfer os chunkSize o w =
  let rd := QFileM.read os chunkSize t w in
  let o1 := with_thisFile (Some (snd rd)) o in
  if (List.length (fst rd) =? 0)%nat then
    Some (rcOk, fst (resetHandles os o1 w), snd (resetHandles os o1 w))
  else
    let wr := QFileM.write os (fst rd) d w in
    let o2 := with_destFile (Some (snd (fst wr))) o1 in
    if fst (fst wr) =? Z.of_nat (List.length (fst rd)) then Some (rcOk, o2, snd wr)
    else
      Some (rcFail,
            with_lastError
              (match qf_error (snd rd) with
               | NoError => qf_errorString (snd (fst wr))
               | _ => qf_errorString (snd rd)
               end) o2, snd wr).
Proof.
  intros Ht Hd. unfold copyChunk_transfer. rewrite Ht, Hd.
  destruct (QFileM.read os chunkSize t w) as [data t'].
  destruct data as [|b data]; [reflexivity|].
  cbn [fst snd List.length Nat.eqb].
  destruct (QFileM.write os (b :: data) d w) as [[written d'] w1]. reflexivity.
Qed.

(** Two pieces of a list that follow each other. *)
Lemma take_drop_pieces {A} (l : list A) (f p m : nat) :
  (f <= p)%nat ->
  (take (p - f) (drop f l) ++ take m (drop p l))%list = take (p + m - f) (drop f l).
Proof.
  intros H. replace (drop p l) with (drop (p - f) (drop f l)).
  - rewrite take_take_drop. f_equal. lia.
  - rewrite drop_drop. f_equal. lia.
Qed.

Lemma take_length_take {A} (l : list A) (m : nat) :
  take (List.length (take m l)) l = take m l.
Proof.
  rewrite length_take. destruct (Nat.le_ge_cases m (List.length l)).
  - now rewrite Nat.min_l.
  - rewrite Nat.min_r by assumption. now rewrite !take_ge by lia.
Qed.

Lemma take_then_piece {A} (l : list A) (p m : nat) :
  (take p l ++ take m (drop p l))%list = take (p + List.length (take m (drop p l))) l.
Proof.
  rewrite <- (take_length_take (drop p l) m) at 1. apply take_take_drop.
Qed.

Lemma openRead_success os name w n :
  Resolve.node os w name = Some n ->
  isKind KFile n = true -> n_denied n = false ->
  QFileM.openRead os (QFileM.make name) w = (true, QFileM.opened ReadOnly (QFileM.make name)).
Proof. unfold QFileM.openRead. cbn. intros -> -> ->. reflexivity. Qed.

(** The first call: both files are opened and the copy stands at byte 0. *)
Lemma copyChunk_open_state os destFolder newName o w data :
  copyable os (fullAbsolutePath o) (copyDestination destFolder newName o) w data ->
  exists o1 w1,
    copyChunk_open os destFolder newName o w = inr (o1, w1)
    /\ copyingState os (fullAbsolutePath o) (copyDestination destFolder newName o) w data
         0 0 o1 w1.
Proof.
  intros ((ns & Hns & Hkf & Hden & Hdata) & Hdist & Hopen & Hroom).
  unfold copyChunk_open. fold (copyDestination destFolder newName o).
  rewrite (openRead_success os _ w ns Hns Hkf Hden). cbn [negb].
  destruct (QFileM.openWrite os (QFileM.make (copyDestination destFolder newName o)) w)
    as [[ok d] w1] eqn:E.
  cbn in Hopen. subst ok. cbn [negb].
  apply openWrite_success in E as (-> & Hcwd & (nd & Hnd & Hk & Hdn & Hnil) & Hframe & Hfree).
  eexists _, _. split; [reflexivity|].
  eexists _, _. cbn.
  repeat split; try reflexivity; try assumption; try lia.
  exists nd. auto.
Qed.

Lemma copyingState_inProgress os src dst w0 data f p o w :
  copyingState os src dst w0 data f p o w -> copyOperationInProgress o = Some true.
Proof.
  intros (t & d & Ht & Hd & _ & Htm & _ & _ & _ & Hdm & _).
  unfold copyOperationInProgress, QFileM.isOpen. now rewrite Ht, Hd, Htm, Hdm.
Qed.

Section StreamingCopy.

Variable os : Platform.
Variables src dst : QString.
Variable w0 : World.
Variable data : QByteArray.
Variable ns : Node.

Hypothesis source_node : files w0 !! Resolve.key os w0 src = Some ns.
Hypothesis source_file : isKind KFile ns = true.
Hypothesis source_data : n_data ns = data.
Hypothesis distinct : Resolve.key os w0 src <> Resolve.key os w0 dst.

Lemma streaming_source f p t d w :
  streaming os src dst w0 data f p t d w ->
  Resolve.node os w (qf_fileName t) = Some ns.
Proof.
  intros (Htn & _ & _ & _ & _ & _ & _ & _ & Hc & _ & Hframe & _).
  unfold Resolve.node. rewrite Htn, (key_cwd _ _ _ _ Hc), Hframe by exact distinct.
  exact source_node.
Qed.

(** What [read] answers in the middle of a copy. *)
Lemma streaming_read chunkSize f p t d w :
  streaming os src dst w0 data f p t d w ->
  QFileM.read os chunkSize t w
  = (take (Z.to_nat chunkSize) (drop p data),
     QFileM.moved
       (Z.of_nat p + Z.of_nat (List.length (take (Z.to_nat chunkSize) (drop p data)))) t).
Proof.
  intros Hs. pose proof (streaming_source _ _ _ _ _ Hs) as Hsrc.
  destruct Hs as (Htn & Htm & Htp & _).
  rewrite (read_at _ _ _ _ _ Htm Hsrc source_file).
  now rewrite Htp, Nat2Z.id, source_data.
Qed.

(** The error of the destination file is not part of the state. *)
Lemma streaming_unsetError f p t d w :
  streaming os src dst w0 data f p t d w ->
  streaming os src dst w0 data f p t (QFileM.unsetError d) w.
Proof. intros H. exact H. Qed.

(** A flush in the middle of a copy: everything buffered reaches the
    disk. *)
Lemma streaming_flush f p t d w :
  streaming os src dst w0 data f p t d w ->
  exists d' w',
    QFileM.flush os d w = (true, d', w')
    /\ streaming os src dst w0 data p p t d' w'.
Proof.
  intros (Htn & Htm & Htp & Htb & Hdn & Hdm & Hdp & Hdb & Hc & (nd & Hnd & Hk & Hden & Hdata)
          & Hframe & Hfp & Hle & Hroom).
  unfold QFileM.flush.
  destruct (qf_writeBuffer d) as [|b buf] eqn:Eb.
  - (* nothing is buffered: all that was written is on the disk *)
    assert (Hpf : p = f).
    { symmetry in Hdb. apply (f_equal (@List.length _)) in Hdb.
      rewrite length_take, length_drop in Hdb. cbn in Hdb. lia. }
    subst p. exists d, w. split; [reflexivity|].
    repeat split; try assumption; try lia.
    + now rewrite Eb, Nat.sub_diag.
    + exists nd. auto.
  - assert (HB : (0 < List.length (b :: buf))%nat) by (cbn; lia).
    set (B := b :: buf) in *. clearbody B.
    assert (Hlen : List.length B = (p - f)%nat).
    { rewrite Hdb, length_take, length_drop. lia. }
    assert (Hkey : Resolve.key os w (qf_fileName d) = Resolve.key os w0 dst).
    { rewrite Hdn. apply key_cwd, Hc. }
    rewrite (engineWrite_fits os _ _ d w nd) by (rewrite ?Hkey, ?Hlen; try assumption; lia).
    rewrite Hlen, Hkey, Z.eqb_refl.
    assert (Hpos : (0 <? Z.of_nat (p - f)) = true) by (apply Z.ltb_lt; lia).
    rewrite Hpos. eexists _, _. split; [reflexivity|].
    repeat split; cbn; try assumption; try lia.
    + rewrite Nat.sub_diag, Nat2Z.id. apply drop_ge. lia.
    + eexists. rewrite lookup_insert_eq. split; [reflexivity|]. cbn.
      split; [exact Hk|]. split; [exact Hden|].
      rewrite Hdp, Hdata.
      replace (Z.to_nat (Z.of_nat p - Z.of_nat (p - f))) with f by lia.
      rewrite take_take, Nat.min_id.
      rewrite (drop_ge (take f data)) by (rewrite length_take; lia).
      rewrite app_nil_r, Hdb, take_take_drop. f_equal. lia.
    + intros k Hk'. rewrite lookup_insert_ne by congruence. now apply Hframe.
Qed.

(** Bytes that go to the buffer. *)
Lemma streaming_buffered m f p t d w :
  streaming os src dst w0 data f p t d w ->
  let r := take m (drop p data) in
  streaming os src dst w0 data f (p + List.length r)
    (QFileM.moved (Z.of_nat p + Z.of_nat (List.length r)) t)
    (QFileM.withBuffer (qf_writeBuffer d ++ r)%list
       (QFileM.moved (qf_pos d + Z.of_nat (List.length r)) d)) w.
Proof.
  intros (Htn & Htm & Htp & Htb & Hdn & Hdm & Hdp & Hdb & Hc & Hnd & Hframe & Hfp & Hle
          & Hroom) r.
  assert (Hr : (List.length r <= List.length data - p)%nat).
  { unfold r. rewrite length_take, length_drop. lia. }
  repeat split; cbn; try assumption; try lia.
  rewrite Hdb. unfold r. rewrite <- (take_length_take (drop p data) m) at 1.
  rewrite take_drop_pieces by exact Hfp. f_equal; lia.
Qed.

(** Bytes that go to the OS directly, with nothing in the buffer. *)
Lemma streaming_direct m p t d w :
  streaming os src dst w0 data p p t d w ->
  let r := take m (drop p data) in
  r <> [] ->
  exists w',
    QFileM.engineWrite os r (qf_pos d - Z.of_nat (List.length (qf_writeBuffer d))) d w
    = (Z.of_nat (List.length r), None, w')
    /\ streaming os src dst w0 data (p + List.length r) (p + List.length r)
         (QFileM.moved (Z.of_nat p + Z.of_nat (List.length r)) t)
         (QFileM.moved (qf_pos d + Z.of_nat (List.length r)) d) w'.
Proof.
  intros (Htn & Htm & Htp & Htb & Hdn & Hdm & Hdp & Hdb & Hc & (nd & Hnd & Hk & Hden & Hdata)
          & Hframe & Hfp & Hle & Hroom) r Hne.
  assert (Hr : (List.length r <= List.length data - p)%nat).
  { unfold r. rewrite length_take, length_drop. lia. }
  assert (Hkey : Resolve.key os w (qf_fileName d) = Resolve.key os w0 dst).
  { rewrite Hdn. apply key_cwd, Hc. }
  rewrite Nat.sub_diag in Hdb. cbn in Hdb.
  rewrite (engineWrite_fits os _ _ d w nd) by (rewrite ?Hkey; try assumption; lia).
  rewrite Hkey. eexists. split; [reflexivity|].
  repeat split; cbn; try assumption; try lia.
  - now rewrite Nat.sub_diag.
  - eexists. rewrite lookup_insert_eq. split; [reflexivity|]. cbn.
    split; [exact Hk|]. split; [exact Hden|].
    rewrite Hdp, Hdb, Hdata. cbn. rewrite Z.sub_0_r, Nat2Z.id.
    rewrite take_take, Nat.min_id.
    rewrite (drop_ge (take p data)) by (rewrite length_take; lia).
    rewrite app_nil_r. apply take_then_piece.
  - intros k Hk'. rewrite lookup_insert_ne by congruence. now apply Hframe.
Qed.

(** What [write] does with the bytes just read: it answers their number;
    the buffer is flushed first when they would overflow it, and they go to
    the OS themselves when they are more than the buffer holds. *)
Lemma streaming_write m f p t d w :
  streaming os src dst w0 data f p t d w ->
  let r := take m (drop p data) in
  r <> [] ->
  let p' := (p + List.length r)%nat in
  let f' :=
    if QFileM.QFILE_WRITEBUFFER_SIZE <? Z.of_nat (p' - f)
    then if QFileM.QFILE_WRITEBUFFER_SIZE <? Z.of_nat (List.length r) then p' else p
    else f in
  exists d' w',
    QFileM.write os r d w = (Z.of_nat (List.length r), d', w')
    /\ streaming os src dst w0 data f' p'
         (QFileM.moved (Z.of_nat p + Z.of_nat (List.length r)) t) d' w'.
Proof.
  intros Hs r Hne. cbv zeta.
  assert (Hmode : qf_openMode d = WriteOnly) by (destruct Hs as (?&?&?&?&?&?&?); assumption).
  assert (Hbuf : List.length (qf_writeBuffer d) = (p - f)%nat).
  { destruct Hs as (_&_&_&_&_&_&_&Hdb&_&_&_&Hfp&Hle&_).
    rewrite Hdb, length_take, length_drop. lia. }
  assert (Hfp : (f <= p)%nat) by (destruct Hs as (_&_&_&_&_&_&_&_&_&_&_&Hfp&_); exact Hfp).
  assert (Hlr : (0 < List.length r)%nat) by (destruct r; [contradiction|cbn; lia]).
  unfold QFileM.write. rewrite Hmode.
  apply streaming_unsetError in Hs.
  set (g := QFileM.unsetError d) in *.
  change (qf_writeBuffer g) with (qf_writeBuffer d). rewrite Hbuf.
  replace (Z.of_nat (p - f) + Z.of_nat (List.length r))
    with (Z.of_nat (p + List.length r - f)) by lia.
  destruct (QFileM.QFILE_WRITEBUFFER_SIZE <? Z.of_nat (p + List.length r - f)) eqn:E1.
  - destruct (streaming_flush _ _ _ _ _ Hs) as (g' & w1 & -> & Hs1). cbn [negb].
    destruct (QFileM.QFILE_WRITEBUFFER_SIZE <? Z.of_nat (List.length r)) eqn:E2.
    + destruct (streaming_direct m _ _ _ _ Hs1 Hne) as (w2 & Hw & Hs2).
      fold r in Hw, Hs2. rewrite Hw.
      assert (Hpos : (0 <? Z.of_nat (List.length r)) = true) by (apply Z.ltb_lt; lia).
      rewrite Hpos. eexists _, _. split; [reflexivity|]. exact Hs2.
    + eexists _, _. split; [reflexivity|].
      apply (streaming_buffered m _ _ _ _ _ Hs1).
  - cbn [negb].
    assert (E2 : (QFileM.QFILE_WRITEBUFFER_SIZE <? Z.of_nat (List.length r)) = false).
    { apply Z.ltb_ge. apply Z.ltb_ge in E1. lia. }
    rewrite E2. eexists _, _. split; [reflexivity|].
    apply (streaming_buffered m _ _ _ _ _ Hs).
Qed.

(** The end of the file: [read] answers no byte and sets no error. *)
Lemma streaming_read_eof chunkSize f t d w :
  streaming os src dst w0 data f (List.length data) t d w ->
  QFileM.read os chunkSize t w = ([], QFileM.moved (qf_pos t) t).
Proof.
  intros Hs. rewrite (streaming_read chunkSize _ _ _ _ _ Hs).
  rewrite drop_all, take_nil. cbn.
  destruct Hs as (_ & _ & -> & _). now rewrite Z.add_0_r.
Qed.

(** Closing the destination in the middle of a copy puts the bytes moved so
    far on the disk; closing the source changes nothing. *)
Lemma streaming_close f p t d w :
  streaming os src dst w0 data f p t d w ->
  snd (QFileM.close os t w) = w
  /\ cwd (snd (QFileM.close os d w)) = cwd w0
  /\ (exists nd, files (snd (QFileM.close os d w)) !! Resolve.key os w0 dst = Some nd
                 /\ isKind KFile nd = true /\ n_denied nd = false
                 /\ n_data nd = take p data)
  /\ (forall k, k <> Resolve.key os w0 dst ->
                files (snd (QFileM.close os d w)) !! k = files w0 !! k).
Proof.
  intros Hs. split.
  - apply close_unbuffered. destruct Hs as (_ & _ & _ & Htb & _). exact Htb.
  - unfold QFileM.close, QFileM.isOpen.
    assert (Hmode : qf_openMode d = WriteOnly) by (destruct Hs as (?&?&?&?&?&?&?); assumption).
    rewrite Hmode.
    destruct (streaming_flush _ _ _ _ _ Hs) as (d' & w' & -> & Hs').
    destruct Hs' as (_ & _ & _ & _ & _ & _ & _ & _ & Hc & Hnd & Hframe & _).
    cbn. auto.
Qed.

Variable chunkSize : Z.
Hypothesis chunk_positive : 0 < chunkSize.

(** A chunk in the middle of the file: [rcOk], the copy stays in progress
    and has moved on by the chunk, or by what was left; the bytes reach the
    disk only when the write buffer of the destination overflows. *)
Lemma transfer_step f p o w :
  copyingState os src dst w0 data f p o w ->
  (p < List.length data)%nat ->
  exists o' w' f',
    copyChunk_transfer os chunkSize o w = Some (rcOk, o', w')
    /\ copyingState os src dst w0 data f'
         (Nat.min (p + Z.to_nat chunkSize) (List.length data)) o' w'
    /\ (f <= f')%nat
    /\ (Z.of_nat (Nat.min (p + Z.to_nat chunkSize) (List.length data) - f)
        <= QFileM.QFILE_WRITEBUFFER_SIZE -> f' = f).
Proof.
  intros (t & d & Ht & Hd & Hs) Hp.
  rewrite (copyChunk_transfer_eq _ _ _ _ _ _ Ht Hd).
  rewrite (streaming_read chunkSize _ _ _ _ _ Hs).
  cbn [fst snd].
  set (r := take (Z.to_nat chunkSize) (drop p data)).
  assert (Hrlen : List.length r = Nat.min (Z.to_nat chunkSize) (List.length data - p)).
  { unfold r. now rewrite length_take, length_drop. }
  assert (Hne : r <> []).
  { intros E. rewrite E in Hrlen. cbn in Hrlen. lia. }
  assert (Hp' : (p + List.length r)%nat
                = Nat.min (p + Z.to_nat chunkSize) (List.length data)) by lia.
  destruct (Nat.eqb_spec (List.length r) 0) as [E|_]; [lia|].
  destruct (streaming_write (Z.to_nat chunkSize) _ _ _ _ _ Hs Hne) as (d' & w' & Hw & Hs').
  fold r in Hw, Hs'. rewrite Hw. cbn [fst snd]. rewrite Z.eqb_refl.
  rewrite Hp' in Hs'.
  eexists _, _, _. split; [reflexivity|]. split; [|split].
  - eexists _, _. split; [reflexivity|]. split; [reflexivity|]. exact Hs'.
  - destruct Hs as (_&_&_&_&_&_&_&_&_&_&_&Hfp&_).
    destruct (_ <? _); [destruct (_ <? _)|]; lia.
  - intros Hfit.
    destruct (Z.ltb_spec QFileM.QFILE_WRITEBUFFER_SIZE
                (Z.of_nat (Nat.min (p + Z.to_nat chunkSize) (List.length data) - f)));
      [lia|reflexivity].
Qed.

(** The chunk after the last byte: [rcOk]; both handles are released, which
    puts what is still buffered on the disk. *)
Lemma transfer_eof f o w :
  copyingState os src dst w0 data f (List.length data) o w ->
  exists o' w',
    copyChunk_transfer os chunkSize o w = Some (rcOk, o', w')
    /\ handlesReleased o'
    /\ n_data <$> files w' !! Resolve.key os w0 dst = Some data
    /\ (forall k, k <> Resolve.key os w0 dst -> files w' !! k = files w0 !! k).
Proof.
  intros (t & d & Ht & Hd & Hs).
  rewrite (copyChunk_transfer_eq _ _ _ _ _ _ Ht Hd).
  rewrite (streaming_read_eof chunkSize _ _ _ _ Hs).
  cbn [fst snd List.length Nat.eqb].
  eexists _, _. split; [reflexivity|]. split; [split; reflexivity|].
  unfold resetHandles. cbn [snd _thisFile _destFile with_thisFile with_destFile].
  rewrite Hd. unfold release.
  assert (Hs' : streaming os src dst w0 data f (List.length data)
                  (QFileM.moved (qf_pos t) t) d w).
  { destruct Hs as (H1 & H2 & H3 & H4 & H5).
    refine (conj _ (conj _ (conj _ (conj _ H5)))); cbn; assumption. }
  destruct (streaming_close _ _ _ _ _ Hs') as (-> & _ & (nd & Hnd & _ & _ & Hdata) & Hframe).
  split; [|exact Hframe]. rewrite Hnd. cbn. now rewrite Hdata, take_ge.
Qed.

(** The loop from a copy in progress to its end. *)
Lemma copyLoop_from destFolder newName fuel :
  forall f p o w,
    copyingState os src dst w0 data f p o w ->
    (List.length data - p < fuel)%nat ->
    exists o' w',
      copyLoop os fuel chunkSize destFolder newName o w = Some (rcOk, o', w')
      /\ handlesReleased o'
      /\ n_data <$> files w' !! Resolve.key os w0 dst = Some data
      /\ (forall k, k <> Resolve.key os w0 dst -> files w' !! k = files w0 !! k).
Proof.
  induction fuel as [|fuel IH]; intros f p o w Hs Hf; [lia|].
  assert (Hle : (p <= List.length data)%nat).
  { destruct Hs as (t & d & _ & _ & H). unfold streaming in H. tauto. }
  cbn [copyLoop]. unfold copyChunk. rewrite (copyingState_inProgress _ _ _ _ _ _ _ _ _ Hs).
  destruct (Nat.eq_dec p (List.length data)) as [->|Hne].
  - destruct (transfer_eof _ _ _ Hs) as (o' & w' & -> & Hrel & Hd & Hfr).
    rewrite (copyOperationInProgress_released _ Hrel).
    exists o', w'. auto.
  - destruct (transfer_step _ _ _ _ Hs) as (o' & w' & f' & -> & Hs' & _); [lia|].
    rewrite (copyingState_inProgress _ _ _ _ _ _ _ _ _ Hs').
    apply (IH f' _ o' w' Hs'). lia.
Qed.

End StreamingCopy.

(** X2.  The loop of [copyChunk] calls copies the file: when a readable
    regular file stands at the object's path, the destination is another
    name that can be opened for writing, the volume has room for the contents
    and the chunk size is positive, then every call answers [rcOk], the loop
    ends after at most one call per byte and one more, both handles are
    released at the end, the destination holds exactly the bytes of the
    source and no other name of the file system has changed. *)
Theorem copyLoop_copies_file os chunkSize destFolder newName o w data :
  0 < chunkSize ->
  handlesReleased o ->
  copyable os (fullAbsolutePath o) (copyDestination destFolder newName o) w data ->
  exists o' w',
    copyLoop os (S (List.length data)) chunkSize destFolder newName o w = Some (rcOk, o', w')
    /\ handlesReleased o'
    /\ n_data <$> files w' !! Resolve.key os w (copyDestination destFolder newName o)
       = Some data
    /\ (forall k, k <> Resolve.key os w (copyDestination destFolder newName o) ->
                  files w' !! k = files w !! k).
Proof.
  intros Hc Hrel Hcopy.
  destruct (copyChunk_open_state _ _ _ _ _ _ Hcopy) as (o1 & w1 & Ho & Hs).
  destruct Hcopy as ((ns & Hns & Hkf & Hden & Hdata) & Hdist & Hopen & Hroom).
  cbn [copyLoop]. unfold copyChunk.
  rewrite (copyOperationInProgress_released _ Hrel), Ho.
  destruct (List.length data) as [|n] eqn:El.
  - rewrite <- El in Hs.
    destruct (transfer_eof os _ _ w data ns Hns Hkf Hdata Hdist chunkSize _ _ _ Hs)
      as (o' & w' & -> & Hrel' & Hd & Hfr).
    rewrite (copyOperationInProgress_released _ Hrel').
    exists o', w'. auto.
  - destruct (transfer_step os _ _ w data ns Hns Hkf Hdata Hdist chunkSize Hc _ _ _ _ Hs)
      as (o' & w' & f' & -> & Hs' & _); [lia|].
    rewrite (copyingState_inProgress _ _ _ _ _ _ _ _ _ Hs').
    destruct (copyLoop_from os _ _ w data ns Hns Hkf Hdata Hdist chunkSize Hc
                destFolder newName (S n) f' _ o' w' Hs') as (o2 & w2 & H); [lia|].
    exists o2, w2. exact H.
Qed.

(** The five bytes of /src/a.txt, two at a time. *)
Lemma copyLoop_copies_file_witness :
  exists o' w',
    copyLoop Posix 6 2 "/dst/" "" (fst Sample.start) (snd Sample.start) = Some (rcOk, o', w')
    /\ handlesReleased o'
    /\ n_data <$> files w' !! "/dst/a.txt" = Some (Sample.bytes "hello")
    /\ (forall k, k <> "/dst/a.txt" -> files w' !! k = files (snd Sample.start) !! k).
Proof.
  apply (copyLoop_copies_file Posix 2 "/dst/" "" (fst Sample.start) (snd Sample.start)
           (Sample.bytes "hello")).
  - lia.
  - split; reflexivity.
  - split; [|split; [|split]].
    + eexists. split; [vm_compute; reflexivity|].
      split; [reflexivity|]. split; reflexivity.
    + intros H. vm_compute in H. discriminate.
    + vm_compute. reflexivity.
    + vm_compute. discriminate.
Defined.

(** ** Cancelling after a failed write *)

Lemma engineRemove_file os f w n :
  Resolve.node os w (qf_fileName f) = Some n ->
  isKind KFile n = true -> n_denied n = false ->
  fst (fst (QFileM.engineRemove os f w)) = true.
Proof.
  unfold QFileM.engineRemove, Resolve.node. intros -> -> ->. reflexivity.
Qed.

(** A node that is a regular file the user may touch stays one while only
    contents change. *)
Lemma contentsOnly_file os k w w' name n :
  contentsOnly k w w' ->
  Resolve.node os w name = Some n -> isKind KFile n = true -> n_denied n = false ->
  exists n', Resolve.node os w' name = Some n'
             /\ isKind KFile n' = true /\ n_denied n' = false.
Proof.
  intros H Hn Hk Hd. unfold Resolve.node in *.
  rewrite (contentsOnly_key os _ _ _ name H).
  pose proof (contentsOnly_node _ _ _ (Resolve.key os w name) H) as Hc.
  rewrite Hn in Hc. destruct (files w' !! _) as [n'|]; [|contradiction].
  destruct Hc as [Hk' Hd']. exists n'. split; [reflexivity|].
  unfold isKind in *. rewrite Hk', Hd'. auto.
Qed.

(** With both files open and a regular file under the destination's name,
    [cancelCopy] removes it. *)
Lemma cancelCopy_removable os o w t d n :
  _thisFile o = Some t -> _destFile o = Some d ->
  QFileM.isOpen t = true -> QFileM.isOpen d = true ->
  Resolve.node os w (qf_fileName d) = Some n ->
  isKind KFile n = true -> n_denied n = false ->
  exists o2 w2,
    cancelCopy os o w = Some (rcOk, o2, w2)
    /\ handlesReleased o2
    /\ ~ onDisk os w2 (qf_fileName d).
Proof.
  intros Ht Hd Hto Hdo Hn Hk Hden. unfold cancelCopy, copyOperationInProgress.
  rewrite Ht, Hd, Hto, Hdo. cbn [andb].
  pose proof (close_contentsOnly os t w) as Hct.
  pose proof (QtFacts.close_file os t w) as [Htc _].
  destruct (QFileM.close os t w) as [t1 w1]. cbn [fst snd] in Hct, Htc.
  destruct (contentsOnly_file os _ _ _ _ _ Hct Hn Hk Hden) as (n1 & Hn1 & Hk1 & Hd1).
  pose proof (close_contentsOnly os d w1) as Hcd.
  pose proof (QtFacts.close_file os d w1) as [Hdc Hdn].
  destruct (QFileM.close os d w1) as [d1 w2]. cbn [fst snd] in Hcd, Hdc, Hdn.
  destruct (contentsOnly_file os _ _ _ _ _ Hcd Hn1 Hk1 Hd1) as (n2 & Hn2 & Hk2 & Hd2).
  rewrite <- Hdn in Hn2.
  destruct (QFileM.remove os d1 w2) as [[succ d'] w'] eqn:Er.
  destruct (remove_spec _ _ _ _ _ _ Hdc Er) as (_ & Hgone & _ & Hd'c).
  rewrite (remove_closed os d1 w2 Hdc) in Er.
  pose proof (engineRemove_file os (QFileM.unsetError d1) w2 n2 Hn2 Hk2 Hd2) as Hs.
  rewrite Er in Hs. cbn in Hs. subst succ.
  unfold resetHandles. cbn [_thisFile _destFile with_thisFile with_destFile].
  rewrite (release_closed os (Some t1) w') by (intros g [= <-]; exact Htc).
  rewrite (release_closed os (Some d') w') by (intros g [= <-]; exact Hd'c).
  eexists _, _. split; [reflexivity|]. split; [split; reflexivity|].
  rewrite <- Hdn. now apply Hgone.
Qed.

(** X3.  A failed chunk can be cancelled: when the first [copyChunk] of a
    copy returns [rcFail] with the handles still held (the failure of the
    write), the [cancelCopy] that follows returns [rcOk], releases both
    handles and leaves nothing under the destination name. *)
Theorem cancelCopy_after_failed_write os chunkSize destFolder newName o w o1 w1 :
  handlesReleased o ->
  copyChunk os chunkSize destFolder newName o w = Some (rcFail, o1, w1) ->
  handlesHeldOpen o1 ->
  exists o2 w2,
    cancelCopy os o1 w1 = Some (rcOk, o2, w2)
    /\ handlesReleased o2
    /\ ~ onDisk os w2 (copyDestination destFolder newName o).
Proof.
  intros Hrel Hc Hheld. unfold copyChunk in Hc.
  rewrite (copyOperationInProgress_released _ Hrel) in Hc.
  unfold copyChunk_open in Hc. fold (copyDestination destFolder newName o) in Hc.
  set (dst := copyDestination destFolder newName o) in *.
  destruct (QFileM.openRead os _ w) as [ok t] eqn:Er.
  destruct ok; cbn [negb] in Hc.
  2:{ injection Hc as <- <-. destruct Hheld as (? & ? & H & _). discriminate. }
  destruct (QFileM.openWrite os (QFileM.make dst) w) as [[ok d] w'] eqn:Ew.
  destruct ok; cbn [negb] in Hc.
  2:{ injection Hc as <- <-. destruct Hheld as (? & ? & H & _). discriminate. }
  apply openWrite_success in Ew as (-> & Hcwd & (nd & Hnd & Hk & Hdn & Hnil) & Hframe & Hfree).
  rewrite (copyChunk_transfer_eq os chunkSize _ w' t (QFileM.opened WriteOnly (QFileM.make dst)))
    in Hc by reflexivity.
  cbv zeta in Hc.
  match type of Hc with context [if ?b then _ else _] => destruct b end;
    [discriminate|].
  pose proof (write_name os (fst (QFileM.read os chunkSize t w'))
                (QFileM.opened WriteOnly (QFileM.make dst)) w') as Hname.
  pose proof (write_contentsOnly os (fst (QFileM.read os chunkSize t w'))
                (QFileM.opened WriteOnly (QFileM.make dst)) w') as Hcw.
  cbn [QFileM.opened QFileM.make qf_fileName] in Hname, Hcw.
  destruct (QFileM.write os _ _ w') as [[written d'] w2] eqn:Ewr.
  cbn [fst snd] in *.
  match type of Hc with context [if ?b then _ else _] => destruct b end;
    [discriminate|].
  injection Hc as <- <-.
  destruct Hheld as (t1 & d1 & Ht1 & Hd1 & Hto & Hdo).
  cbn in Hd1. injection Hd1 as <-.
  assert (Hnode : Resolve.node os w' dst = Some nd).
  { unfold Resolve.node. now rewrite (key_cwd os w' w dst Hcwd). }
  destruct (contentsOnly_file os _ _ _ _ _ Hcw Hnode Hk Hdn) as (n2 & Hn2 & Hk2 & Hd2).
  rewrite <- Hname in Hn2.
  destruct (cancelCopy_removable os _ w2 t1 d' n2 Ht1 eq_refl Hto Hdo Hn2 Hk2 Hd2)
    as (o2 & w3 & Hcc & Hrel2 & Hgone).
  exists o2, w3. rewrite Hname in Hgone. auto.
Qed.

(** A source of 16385 bytes, more than the write buffer of [QFile] holds, on
    a volume with room for two: the chunk of 32768 bytes is written straight
    to the disk, two bytes arrive, the call fails and the cancel removes the
    destination. *)
Lemma cancelCopy_after_failed_write_witness :
  exists o1 w1 o2 w2,
    copyChunk Posix 32768 "/dst/" ""
      (Sample.object Posix (Sample.bigWorld 2) "/src/big.bin") (Sample.bigWorld 2)
    = Some (rcFail, o1, w1)
    /\ cancelCopy Posix o1 w1 = Some (rcOk, o2, w2)
    /\ handlesReleased o2
    /\ ~ onDisk Posix w2 "/dst/big.bin".
Proof.
  assert (Hr : (fun x => fst (fst x)) <$> copyChunk Posix 32768 "/dst/" ""
                 (Sample.object Posix (Sample.bigWorld 2) "/src/big.bin")
                 (Sample.bigWorld 2) = Some rcFail) by (vm_compute; reflexivity).
  destruct (copyChunk Posix 32768 "/dst/" ""
              (Sample.object Posix (Sample.bigWorld 2) "/src/big.bin") (Sample.bigWorld 2))
    as [[[r o1] w1]|] eqn:E; [|discriminate].
  cbn in Hr. injection Hr as Hr.
  subst r.
  assert (Hheld : handlesHeldOpen o1).
  { assert (H : (fun x => (QFileM.isOpen <$> _thisFile (snd (fst x)),
                           QFileM.isOpen <$> _destFile (snd (fst x))))
                <$> copyChunk Posix 32768 "/dst/" ""
                      (Sample.object Posix (Sample.bigWorld 2) "/src/big.bin")
                      (Sample.bigWorld 2) = Some (Some true, Some true))
      by (vm_compute; reflexivity).
    rewrite E in H. cbn in H. injection H as Ht Hd.
    destruct (_thisFile o1) as [t|] eqn:Et; [|discriminate].
    destruct (_destFile o1) as [d|] eqn:Ed; [|discriminate].
    injection Ht as Ht. injection Hd as Hd. exists t, d. auto. }
  assert (Hrel : handlesReleased (Sample.object Posix (Sample.bigWorld 2) "/src/big.bin"))
    by (split; reflexivity).
  destruct (cancelCopy_after_failed_write _ _ _ _ _ _ _ _ Hrel E Hheld) as (o2 & w2 & H).
  exists o1, w1, o2, w2. split; [reflexivity|]. exact H.
Defined.

(** ** A chunk size that is not positive *)

Lemma read_nothing os chunkSize f w :
  chunkSize <= 0 ->
  fst (QFileM.read os chunkSize f w) = []
  /\ qf_writeBuffer (snd (QFileM.read os chunkSize f w)) = qf_writeBuffer f.
Proof.
  intros Hc. unfold QFileM.read.
  replace (Z.to_nat chunkSize) with 0%nat by lia.
  destruct (qf_openMode f), (Resolve.node os w (qf_fileName f)) as [n|];
    try destruct (isKind KFile n); auto.
Qed.

(** X4.  A chunk size that is not positive ends the copy at once: when both
    files can be opened, the first [copyChunk] opens them, reads nothing,
    returns [rcOk] and releases both handles; the destination is left empty,
    whatever the source holds, and no other name of the file system has
    changed. *)
Theorem copyChunk_no_positive_chunk os chunkSize destFolder newName o w :
  chunkSize <= 0 ->
  handlesReleased o ->
  ~ sourceOpenFails os o w ->
  ~ destOpenFails os destFolder newName o w ->
  exists o' w',
    copyChunk os chunkSize destFolder newName o w = Some (rcOk, o', w')
    /\ handlesReleased o'
    /\ n_data <$> files w' !! Resolve.key os w (copyDestination destFolder newName o)
       = Some []
    /\ (forall k, k <> Resolve.key os w (copyDestination destFolder newName o) ->
                  files w' !! k = files w !! k).
Proof.
  intros Hc Hrel Hsrc Hdst. unfold sourceOpenFails, destOpenFails in *.
  unfold copyChunk. rewrite (copyOperationInProgress_released _ Hrel).
  unfold copyChunk_open. fold (copyDestination destFolder newName o).
  change (fullAbsolutePath o) with (Properties.fullPath (_properties o)).
  destruct (QFileM.openRead os _ w) as [ok t] eqn:Er.
  destruct ok; [|now destruct Hsrc]. cbn [negb].
  assert (Htb : qf_writeBuffer t = []).
  { unfold QFileM.openRead in Er. cbn [QFileM.isOpen QFileM.make qf_openMode] in Er.
    destruct (Resolve.node os w _) as [n|]; [|discriminate].
    destruct (_ && _); [|discriminate]. now injection Er as <-. }
  destruct (QFileM.openWrite os (QFileM.make (copyDestination destFolder newName o)) w)
    as [[ok d] w1] eqn:Ew.
  destruct ok; [|now destruct Hdst]. cbn [negb].
  apply openWrite_success in Ew as (-> & Hcwd & (nd & Hnd & Hk & Hdn & Hnil) & Hframe & _).
  rewrite (copyChunk_transfer_eq os chunkSize _ w1 t
             (QFileM.opened WriteOnly (QFileM.make (copyDestination destFolder newName o))))
    by reflexivity.
  cbv zeta. destruct (read_nothing os chunkSize t w1 Hc) as [-> Hb].
  cbn [List.length Nat.eqb].
  eexists _, _. split; [reflexivity|]. split; [split; reflexivity|].
  unfold resetHandles, release.
  cbn [snd _thisFile _destFile with_thisFile with_destFile].
  rewrite (close_unbuffered os _ w1) by (now rewrite Hb).
  rewrite (close_unbuffered os _ w1) by reflexivity.
  split; [|exact Hframe]. rewrite Hnd. cbn. now rewrite Hnil.
Qed.

(** /src/a.txt with a chunk size of 0. *)
Lemma copyChunk_no_positive_chunk_witness :
  exists o' w',
    copyChunk Posix 0 "/dst/" "" (fst Sample.start) (snd Sample.start) = Some (rcOk, o', w')
    /\ handlesReleased o'
    /\ n_data <$> files w' !! "/dst/a.txt" = Some []
    /\ (forall k, k <> "/dst/a.txt" -> files w' !! k = files (snd Sample.start) !! k).
Proof.
  apply (copyChunk_no_positive_chunk Posix 0 "/dst/" "" (fst Sample.start)
           (snd Sample.start)).
  - lia.
  - split; reflexivity.
  - intros H. vm_compute in H. discriminate.
  - intros H. vm_compute in H. discriminate.
Defined.

(** ** Progress of a chunked copy *)

(** X5.  One call in the middle of a chunked copy.  When [p] bytes have
    been moved, of which the first [f] have reached the disk and the others
    wait in the write buffer of the destination, and some bytes are left,
    [copyChunk] answers [rcOk] and moves on by the chunk size, or by what is
    left when that is less: [bytesCopied] is then the number of bytes moved,
    the destination on disk holds the first [f'] of them, where [f'] is [f]
    as long as the bytes not yet on disk fit the 16 KiB buffer, and the copy
    is still in progress, also after the last byte was moved.  The call made
    when nothing is left reads the end of the file: it answers [rcOk] and
    releases both handles, which puts the buffered bytes on the disk: the
    destination then holds the bytes of the source, and [bytesCopied] is
    0. *)
Theorem copyChunk_progress os chunkSize destFolder newName src dst w0 data f p o w :
  0 < chunkSize ->
  (exists ns, files w0 !! Resolve.key os w0 src = Some ns
              /\ isKind KFile ns = true /\ n_data ns = data) ->
  Resolve.key os w0 src <> Resolve.key os w0 dst ->
  Z.of_nat (List.length data) < 2 ^ 64 ->
  copyingState os src dst w0 data f p o w ->
  bytesCopied o = Z.of_nat p
  /\ exists o' w',
      copyChunk os chunkSize destFolder newName o w = Some (rcOk, o', w')
      /\ if (p <? List.length data)%nat then
           let p' := Nat.min (p + Z.to_nat chunkSize) (List.length data) in
           bytesCopied o' = Z.of_nat p'
           /\ copyOperationInProgress o' = Some true
           /\ exists f',
               copyingState os src dst w0 data f' p' o' w'
               /\ n_data <$> files w' !! Resolve.key os w0 dst = Some (take f' data)
               /\ (f <= f')%nat
               /\ (Z.of_nat (p' - f) <= QFileM.QFILE_WRITEBUFFER_SIZE -> f' = f)
         else
           handlesReleased o' /\ bytesCopied o' = 0
           /\ copyOperationInProgress o' = Some false
           /\ n_data <$> files w' !! Resolve.key os w0 dst = Some data
           /\ (forall k, k <> Resolve.key os w0 dst -> files w' !! k = files w0 !! k).
Proof.
  intros Hc (ns & Hns & Hkf & Hdata) Hdist Hlen Hs.
  assert (Hbytes : forall g q o1 w1,
             copyingState os src dst w0 data g q o1 w1 -> bytesCopied o1 = Z.of_nat q).
  { intros g q o1 w1 (t & d & Ht & Hd & Htn & Htm & Htp & Htb & Hdn & Hdm & Hdp & Hdb
                      & Hcw & Hnd & Hframe & Hgq & Hle & Hroom).
    unfold bytesCopied, QFileM.isOpen, to_uint64. rewrite Ht, Htm, Htp.
    apply Z.mod_small. lia. }
  split; [exact (Hbytes _ _ _ _ Hs)|].
  assert (Hle : (p <= List.length data)%nat).
  { destruct Hs as (t & d & _ & _ & H). unfold streaming in H. tauto. }
  unfold copyChunk.
  rewrite (copyingState_inProgress os src dst w0 data f p o w Hs).
  destruct (Nat.ltb_spec p (List.length data)) as [Hp|Hp].
  - destruct (transfer_step os src dst w0 data ns Hns Hkf Hdata Hdist chunkSize Hc
                f p o w Hs Hp) as (o' & w' & f' & -> & Hs' & Hff & Hfit).
    exists o', w'. split; [reflexivity|]. cbv zeta.
    split; [exact (Hbytes _ _ _ _ Hs')|].
    split; [exact (copyingState_inProgress os src dst w0 data _ _ o' w' Hs')|].
    exists f'. split; [exact Hs'|]. split; [|split; assumption].
    destruct Hs' as (t & d & _ & _ & _ & _ & _ & _ & _ & _ & _ & _ & _
                     & (nd & -> & _ & _ & Hnd) & _).
    cbn. now rewrite Hnd.
  - assert (Hp' : p = List.length data) by lia. subst p.
    destruct (transfer_eof os src dst w0 data ns Hns Hkf Hdata Hdist chunkSize f o w Hs)
      as (o' & w' & -> & Hrel & Hd & Hframe).
    exists o', w'. split; [reflexivity|]. split; [exact Hrel|].
    split; [|split; [exact (copyOperationInProgress_released _ Hrel)|auto]].
    destruct Hrel as [Ht _]. unfold bytesCopied. now rewrite Ht.
Qed.

(** The first two of the five bytes of /src/a.txt: they wait in the write
    buffer, the destination on disk is still empty. *)
Lemma copyChunk_progress_witness :
  exists o1 w1 o' w',
    copyChunk_open Posix "/dst/" "" (fst Sample.start) (snd Sample.start) = inr (o1, w1)
    /\ copyChunk Posix 2 "/dst/" "" o1 w1 = Some (rcOk, o', w')
    /\ bytesCopied o1 = 0 /\ bytesCopied o' = 2
    /\ copyOperationInProgress o' = Some true
    /\ n_data <$> files w' !! "/dst/a.txt" = Some [].
Proof.
  assert (Hsrc : exists ns, files (snd Sample.start) !! Resolve.key Posix (snd Sample.start)
                              "/src/a.txt" = Some ns
                            /\ isKind KFile ns = true /\ n_data ns = Sample.bytes "hello").
  { eexists. split; [vm_compute; reflexivity|]. split; reflexivity. }
  assert (Hdist : Resolve.key Posix (snd Sample.start) "/src/a.txt"
                  <> Resolve.key Posix (snd Sample.start) "/dst/a.txt").
  { intros H. vm_compute in H. discriminate. }
  assert (Hcopy : copyable Posix (fullAbsolutePath (fst Sample.start))
                    (copyDestination "/dst/" "" (fst Sample.start)) (snd Sample.start)
                    (Sample.bytes "hello")).
  { split; [|split; [|split]].
    - eexists. split; [vm_compute; reflexivity|].
      split; [reflexivity|]. split; reflexivity.
    - intros H. vm_compute in H. discriminate.
    - vm_compute. reflexivity.
    - vm_compute. discriminate. }
  destruct (copyChunk_open_state Posix "/dst/" "" (fst Sample.start) (snd Sample.start)
              (Sample.bytes "hello") Hcopy) as (o1 & w1 & Ho & Hs).
  destruct (copyChunk_progress Posix 2 "/dst/" "" "/src/a.txt" "/dst/a.txt"
              (snd Sample.start) (Sample.bytes "hello") 0 0 o1 w1
              ltac:(lia) Hsrc Hdist ltac:(vm_compute; reflexivity) Hs)
    as (Hb & o' & w' & Hc & Hb' & Hp' & f' & Hs' & Hdisk & _ & Hfit).
  rewrite (Hfit ltac:(vm_compute; discriminate)) in Hdisk.
  exists o1, w1, o', w'. auto 10.
Defined.
(** ** The cached properties of a refreshed object *)

(** The properties after [refreshInfo], field by field, from the [QFileInfo]
    and the properties before. *)
Lemma refreshInfo_properties os fasthash64 o :
  let fi := _fileInfo o in
  let p := _properties o in
  let ty :=
    if fi_isFile fi then File
    else if fi_isDir fi then Directory
    else if fi_exists fi then Properties.type p
    else if QStr.endsWith "/" (fi_absoluteFilePath fi) then Directory
    else Properties.type p in
  let dirName :=
    if QStr.isEmpty (QFileInfoM.completeSuffix os fi) then QFileInfoM.baseName os fi
    else QFileInfoM.baseName os fi +:+ "." +:+ QFileInfoM.completeSuffix os fi in
  refreshInfo os fasthash64 o
  = with_properties
      (Properties.mk
         (match ty with
          | File => QFileInfoM.completeBaseName os fi
          | Directory => dirName
          | UnknownType => Properties.completeBaseName p
          end)
         (match ty with
          | File => QFileInfoM.suffix os fi
          | _ => Properties.extension p
          end)
         (match ty with
          | Directory => dirName
          | _ => QFileInfoM.fileName os fi
          end)
         (QFileInfoM.absolutePath os fi)
         (fi_absoluteFilePath fi)
         ty
         (if fi_exists fi
          then to_uint64 (match ty with File => fi_size fi | _ => 0 end)
          else Properties.size p)
         (if fi_exists fi then fi_created fi else Properties.creationDate p)
         (if fi_exists fi then fi_lastModified fi else Properties.modificationDate p)
         (fasthash64 (QStr.toUtf8 (fi_absoluteFilePath fi))
            (Z.of_nat (List.length (QStr.toUtf8 (fi_absoluteFilePath fi)))) 0)
         (fi_exists fi)) o.
Proof.
  destruct o as [fi p e i t d].
  destruct fi as [file abs ex isF isD sz cr lm].
  destruct p as [cb ext fn pf fp ty0 sz0 cd md h ex0].
  cbv zeta. unfold refreshInfo, QFileInfoM.completeSuffix.
  cbn [_fileInfo _properties fi_isFile fi_isDir fi_exists fi_absoluteFilePath fi_file].
  destruct (QStr.endsWith "/" abs) eqn:Eend;
    destruct (QStr.isEmpty (QtPath.completeSuffix os file)) eqn:Es;
    destruct isF, isD, ex, ty0;
    cbv beta iota zeta delta
      [Properties.set_completeBaseName Properties.set_extension Properties.set_fullName
       Properties.set_parentFolder Properties.set_fullPath Properties.set_type
       Properties.set_size Properties.set_creationDate Properties.set_modificationDate
       Properties.set_hash Properties.set_exists
       Properties.completeBaseName Properties.extension Properties.fullName
       Properties.parentFolder Properties.fullPath Properties.type Properties.size
       Properties.creationDate Properties.modificationDate Properties.hash
       Properties.exists_ negb QFileInfoM.completeSuffix
       _fileInfo _properties fi_isFile fi_isDir fi_exists fi_absoluteFilePath fi_file
       fi_size fi_created fi_lastModified];
    rewrite ?Eend; cbv iota;
    cbv beta iota zeta delta
      [Properties.set_completeBaseName Properties.set_extension Properties.set_fullName
       Properties.set_parentFolder Properties.set_fullPath Properties.set_type
       Properties.set_size Properties.set_creationDate Properties.set_modificationDate
       Properties.set_hash Properties.set_exists
       Properties.completeBaseName Properties.extension Properties.fullName
       Properties.parentFolder Properties.fullPath Properties.type Properties.size
       Properties.creationDate Properties.modificationDate Properties.hash
       Properties.exists_ negb QFileInfoM.completeSuffix
       _fileInfo _properties fi_isFile fi_isDir fi_exists fi_absoluteFilePath fi_file
       fi_size fi_created fi_lastModified];
    rewrite ?Es; reflexivity.
Qed.

(** X6.  [refreshInfo] is idempotent: the [QFileInfo] of an object is never
    replaced, so a second refresh finds what the first one found. *)
Theorem refreshInfo_idempotent os fasthash64 o :
  refreshInfo os fasthash64 (refreshInfo os fasthash64 o) = refreshInfo os fasthash64 o.
Proof.
  rewrite (refreshInfo_properties os fasthash64 (refreshInfo os fasthash64 o)).
  rewrite (refreshInfo_properties os fasthash64 o).
  destruct o as [fi p e i t d]. cbv zeta.
  unfold with_properties.
  cbn [_fileInfo _properties _lastError _rootFileSystemId _thisFile _destFile
       Properties.type Properties.completeBaseName Properties.extension Properties.size
       Properties.creationDate Properties.modificationDate].
  destruct (fi_isFile fi), (fi_isDir fi), (fi_exists fi),
    (QStr.endsWith "/" (fi_absoluteFilePath fi)), (Properties.type p),
    (QStr.isEmpty (QFileInfoM.completeSuffix os fi)); reflexivity.
Qed.

(** Cutting a string at a found character and joining the parts again. *)
Lemma indexOf_split c s i :
  QStr.indexOf c s = Some i ->
  QStr.left i s +:+ String c (QStr.mid (S i) s) = s.
Proof.
  revert i. induction s as [|a s IH]; intros i; cbn; [discriminate|].
  destruct (Ascii.eqb_spec a c) as [->|Hne].
  - intros [= <-]. cbn. destruct s; reflexivity.
  - destruct (QStr.indexOf c s) as [j|]; [|discriminate].
    intros [= <-]. specialize (IH j eq_refl).
    change (String a (QStr.left j s +:+ String c (QStr.mid (S j) s)) = String a s).
    now rewrite IH.
Qed.

Lemma lastIndexOf_split c s i :
  QStr.lastIndexOf c s = Some i ->
  QStr.left i s +:+ String c (QStr.mid (S i) s) = s.
Proof.
  revert i. induction s as [|a s IH]; intros i; cbn; [discriminate|].
  destruct (QStr.lastIndexOf c s) as [j|].
  - intros [= <-]. specialize (IH j eq_refl).
    change (String a (QStr.left j s +:+ String c (QStr.mid (S j) s)) = String a s).
    now rewrite IH.
  - destruct (Ascii.eqb_spec a c) as [->|Hne]; [|discriminate].
    intros [= <-]. cbn. destruct s; reflexivity.
Qed.

(** The cached properties of a refreshed file. *)
Lemma refreshInfo_file_props os fasthash64 o :
  fi_isFile (_fileInfo o) = true ->
  let p := _properties (refreshInfo os fasthash64 o) in
  Properties.type p = File
  /\ Properties.fullName p = QFileInfoM.fileName os (_fileInfo o)
  /\ Properties.completeBaseName p = QFileInfoM.completeBaseName os (_fileInfo o)
  /\ Properties.extension p = QFileInfoM.suffix os (_fileInfo o).
Proof.
  intros Hf. unfold refreshInfo. rewrite Hf. cbn.
  destruct (negb (fi_exists (_fileInfo o))); cbn; auto.
Qed.

(** The cached properties of a refreshed directory. *)
Lemma refreshInfo_directory_props os fasthash64 o :
  fi_isFile (_fileInfo o) = false -> fi_isDir (_fileInfo o) = true ->
  let p := _properties (refreshInfo os fasthash64 o) in
  Properties.type p = Directory
  /\ Properties.fullName p = Properties.completeBaseName p
  /\ Properties.completeBaseName p
     = if negb (QStr.isEmpty (QFileInfoM.completeSuffix os (_fileInfo o)))
       then QFileInfoM.baseName os (_fileInfo o) +:+ "." +:+
            QFileInfoM.completeSuffix os (_fileInfo o)
       else QFileInfoM.baseName os (_fileInfo o).
Proof.
  intros Hf Hd. unfold refreshInfo. rewrite Hf, Hd. cbn.
  destruct (negb (QStr.isEmpty _)); cbn;
    destruct (negb (fi_exists (_fileInfo o))); cbn; auto.
Qed.

(** X7.  The names of a file: after [refreshInfo] of an object whose
    [QFileInfo] is a file, the full name is the file name; when the file name
    has a dot, name, dot and extension make up the full name again, and
    without a dot the name is the full name and the extension is empty; for a
    file name that starts with its only dot, [extension()] is the whole full
    name. *)
Theorem refreshInfo_file_names os fasthash64 o :
  fi_isFile (_fileInfo o) = true ->
  let o' := refreshInfo os fasthash64 o in
  let n := QFileInfoM.fileName os (_fileInfo o) in
  fullName o' = n
  /\ (forall i, QStr.lastIndexOf "." n = Some i ->
                name o' +:+ "." +:+ Properties.extension (_properties o') = fullName o')
  /\ (QStr.lastIndexOf "." n = None ->
      name o' = fullName o' /\ Properties.extension (_properties o') = "")
  /\ (QStr.lastIndexOf "." n = Some 0%nat -> extension o' = fullName o').
Proof.
  intros Hf. cbv zeta.
  destruct (refreshInfo_file_props os fasthash64 o Hf) as (Hty & Hfull & Hname & Hext).
  unfold extension, name, fullName. rewrite Hfull, Hname, Hext, Hty.
  unfold QFileInfoM.completeBaseName, QFileInfoM.suffix, QFileInfoM.fileName,
    QtPath.completeBaseName, QtPath.suffix.
  set (n := QtPath.fileName os (fi_file (_fileInfo o))).
  split; [reflexivity|]. split; [|split].
  - intros i Hi. rewrite Hi. apply (lastIndexOf_split "." n i Hi).
  - intros Hi. rewrite Hi. auto.
  - intros Hi. rewrite Hi.
    pose proof (lastIndexOf_split "." n 0 Hi) as H.
    destruct n as [|a n]; [discriminate|]. exact H.
Qed.

Lemma refreshInfo_file_names_witness :
  fi_isFile (_fileInfo (Sample.object Posix (Sample.posixWorld 64) "/src/a.txt")) = true
  /\ name (Sample.object Posix (Sample.posixWorld 64) "/src/a.txt") +:+ "." +:+
     Properties.extension (_properties (Sample.object Posix (Sample.posixWorld 64) "/src/a.txt"))
     = "a.txt".
Proof.
  split; [reflexivity|].
  exact (proj1 (proj2 (refreshInfo_file_names Posix Sample.hash
                         (mkObject (QFileInfoM.make Posix (Sample.posixWorld 64) "/src/a.txt")
                            Properties.initial "" UINT64_MAX None None) eq_refl))
           1%nat eq_refl).
Defined.

(** X8.  The names of a directory: after [refreshInfo] of an object whose
    [QFileInfo] is a directory, [name()] and [fullName()] are the same string;
    it is the file name of the [QFileInfo] when that has no dot or has
    something after its first dot, and the file name without its dot when the
    first dot is its last character. *)
Theorem refreshInfo_directory_names os fasthash64 o :
  fi_isFile (_fileInfo o) = false -> fi_isDir (_fileInfo o) = true ->
  let o' := refreshInfo os fasthash64 o in
  let n := QFileInfoM.fileName os (_fileInfo o) in
  type o' = Directory
  /\ fullName o' = name o'
  /\ (QStr.indexOf "." n = None -> fullName o' = n)
  /\ (forall i, QStr.indexOf "." n = Some i ->
                if QStr.isEmpty (QStr.mid (S i) n) then fullName o' +:+ "." = n
                else fullName o' = n).
Proof.
  intros Hf Hd. cbv zeta.
  destruct (refreshInfo_directory_props os fasthash64 o Hf Hd) as (Hty & Hfull & Hname).
  unfold type, fullName, name.
  split; [exact Hty|]. split; [exact Hfull|].
  rewrite Hfull, Hname.
  unfold QFileInfoM.completeSuffix, QFileInfoM.baseName, QFileInfoM.fileName,
    QtPath.completeSuffix, QtPath.baseName.
  set (n := QtPath.fileName os (fi_file (_fileInfo o))).
  split.
  - intros ->. reflexivity.
  - intros i Hi. rewrite Hi.
    pose proof (indexOf_split "." n i Hi) as H.
    destruct (QStr.isEmpty (QStr.mid (S i) n)) eqn:Em; cbn [negb].
    + destruct (QStr.mid (S i) n); [exact H|discriminate].
    + exact H.
Qed.

Lemma refreshInfo_directory_names_witness :
  let fi := QFileInfoM.make Posix (Sample.posixWorld 64) "/src/sub/.." in
  fi_isFile fi = false /\ fi_isDir fi = true
  /\ fullName (Sample.object Posix (Sample.posixWorld 64) "/src/sub/..") = "..".
Proof.
  cbv zeta. split; [reflexivity|]. split; [reflexivity|].
  pose proof (refreshInfo_directory_names Posix Sample.hash
                (mkObject (QFileInfoM.make Posix (Sample.posixWorld 64) "/src/sub/..")
                   Properties.initial "" UINT64_MAX None None) eq_refl eq_refl) as H.
  cbv zeta in H. destruct H as (_ & _ & _ & H).
  exact (H 0%nat eq_refl).
Defined.

(** X9.  What a new object is: it is a [File] exactly when its [QFileInfo]
    is a file; a [Directory] exactly when the [QFileInfo] is a directory and
    not a file, or stands for nothing and has an absolute name that ends with
    a slash; its size is zero unless it is a [File], and below 2^64 always;
    it is valid exactly when it exists, the dates of the toolkit being
    32-bit. *)
Theorem construct_classifies os fasthash64 fileInfo :
  let o := construct os fasthash64 fileInfo in
  (type o = File <-> fi_isFile fileInfo = true)
  /\ (type o = Directory <->
      fi_isFile fileInfo = false
      /\ (fi_isDir fileInfo = true
          \/ (fi_exists fileInfo = false
              /\ QStr.endsWith "/" (fi_absoluteFilePath fileInfo) = true)))
  /\ (type o <> File -> size o = 0)
  /\ 0 <= size o < 2 ^ 64
  /\ exists_ o = fi_exists fileInfo
  /\ (0 <= fi_created fileInfo < 2 ^ 32 -> isValid o = exists_ o).
Proof.
  cbv zeta. unfold construct, refreshInfo, type, size, exists_, isValid, TIME_T_MAX. cbn.
  destruct (fi_isFile fileInfo), (fi_isDir fileInfo), (fi_exists fileInfo) eqn:Ee;
    cbn; rewrite ?Ee; cbn;
    try destruct (QStr.endsWith "/" (fi_absoluteFilePath fileInfo)) eqn:Eend; cbn;
    try destruct (negb (QStr.isEmpty (QFileInfoM.completeSuffix os fileInfo))); cbn;
    unfold to_uint64;
    repeat split; intros; try discriminate; try tauto; try reflexivity;
    try (apply Z.mod_pos_bound; lia); try lia;
    try (destruct (Z.eqb_spec (fi_created fileInfo) (2 ^ 63 - 1)); [lia|reflexivity]);
    try (intuition discriminate).
Qed.

Example construct_examples :
  let w := Sample.posixWorld 64 in
  type (Sample.object Posix w "/src/new/") = Directory
  /\ type (Sample.object Posix w "/src/new") = UnknownType
  /\ isValid (Sample.object Posix w "/src/new/") = false
  /\ isValid (Sample.object Posix w "/src") = true
  /\ fullName (Sample.object Posix w "/src/dir.") = "dir."
  /\ extension (Sample.object Posix (set_files (<["/src/.rc" := Sample.file "x" 1]> (files w)) w)
                  "/src/.rc") = ".rc".
Proof. cbv zeta. repeat (split; [vm_compute; reflexivity|]). vm_compute; reflexivity. Qed.

(** ** Identity is kept *)

Lemma sameIdentity_refl o : sameIdentity o o.
Proof. repeat split. Qed.

Lemma sameIdentity_kept fasthash64 o o' :
  sameIdentity o o' -> identityKept fasthash64 o -> identityKept fasthash64 o'.
Proof.
  intros (Hh & Hp & Hf) [H1 H2]. unfold identityKept, hashOfPath in *.
  rewrite Hh, Hp, Hf. auto.
Qed.

Lemma refreshInfo_sameIdentity os fasthash64 o :
  identityKept fasthash64 o -> sameIdentity o (refreshInfo os fasthash64 o).
Proof.
  intros [H1 H2]. unfold sameIdentity.
  rewrite refreshInfo_hash, refreshInfo_fullPath. unfold hashOfPath in H2.
  rewrite H2, H1. repeat split.
Qed.

Lemma refreshInfo_hashOfPath_kept os fasthash64 o :
  identityKept fasthash64 (refreshInfo os fasthash64 o).
Proof.
  split; [|apply refreshInfo_hashOfPath].
  rewrite refreshInfo_fullPath. unfold refreshInfo. reflexivity.
Qed.

Lemma copyChunk_transfer_sameIdentity os chunkSize o w r o' w' :
  copyChunk_transfer os chunkSize o w = Some (r, o', w') -> sameIdentity o o'.
Proof.
  unfold copyChunk_transfer.
  destruct (_thisFile o) as [t|]; [|discriminate].
  destruct (_destFile o) as [d|]; [|discriminate].
  destruct (QFileM.read os chunkSize t w) as [data t'].
  destruct data as [|b data].
  - intros [= <- <- <-]. repeat split.
  - destruct (QFileM.write os (b :: data) d w) as [[written d'] w1].
    destruct (written =? _); intros [= <- <- <-]; repeat split.
Qed.

Lemma copyChunk_sameIdentity os chunkSize destFolder newName o w r o' w' :
  copyChunk os chunkSize destFolder newName o w = Some (r, o', w') -> sameIdentity o o'.
Proof.
  unfold copyChunk. destruct (copyOperationInProgress o) as [[|]|]; [| |discriminate].
  - apply copyChunk_transfer_sameIdentity.
  - unfold copyChunk_open.
    destruct (QFileM.openRead os _ w) as [ok t]. destruct ok; cbn [negb].
    + destruct (QFileM.openWrite os _ w) as [[ok d] w1]. destruct ok; cbn [negb].
      * intros H. apply copyChunk_transfer_sameIdentity in H.
        destruct H as (H1 & H2 & H3). repeat split; assumption.
      * intros [= <- <- <-]. repeat split.
    + intros [= <- <- <-]. repeat split.
Qed.

(** X10.  The identity of an object is stable.  For an object whose full path
    and hash are those [refreshInfo] computes (every new object is one), no
    operation changes the hash, the full path or the [QFileInfo]: not a chunk
    of a copy, a cancel, a move (which may refresh), a removal, an atomic
    copy, [setDirSize], [makeWritable] nor the query of the volume id. *)
Theorem identity_is_stable os fasthash64 o w :
  identityKept fasthash64 o ->
  (forall chunkSize destFolder newName r o' w',
      copyChunk os chunkSize destFolder newName o w = Some (r, o', w') -> sameIdentity o o')
  /\ (forall r o' w', cancelCopy os o w = Some (r, o', w') -> sameIdentity o o')
  /\ (forall location newName,
        sameIdentity o (snd (fst (moveAtomically os fasthash64 location newName o w))))
  /\ sameIdentity o (snd (fst (remove os o w)))
  /\ (forall destFolder newName,
        sameIdentity o (snd (fst (copyAtomically os destFolder newName o w))))
  /\ (forall n, sameIdentity o (setDirSize n o))
  /\ (forall writeable r o' w',
        makeWritable os writeable o w = Some (r, o', w') -> sameIdentity o o')
  /\ sameIdentity o (snd (fst (rootFileSystemId os o w)))
  /\ identityKept fasthash64 (refreshInfo os fasthash64 o).
Proof.
  intros Hid.
  refine (conj _ (conj _ (conj _ (conj _ (conj _ (conj _ (conj _ (conj _ _)))))))).
  - intros *. apply copyChunk_sameIdentity.
  - intros r o' w'. unfold cancelCopy.
    destruct (copyOperationInProgress o) as [[|]|]; [| |discriminate].
    + destruct (_thisFile o) as [t|]; [|discriminate].
      destruct (_destFile o) as [d|]; [|discriminate].
      destruct (QFileM.close os t w) as [t1 w1].
      destruct (QFileM.close os d w1) as [d1 w2].
      destruct (QFileM.remove os d1 w2) as [[succ d'] w3].
      intros [= <- <- <-]. repeat split.
    + intros [= <- <- <-]. repeat split.
  - intros location newName. unfold moveAtomically.
    destruct (negb (exists_ o)); [repeat split|].
    destruct (isCdUp o); [repeat split|].
    destruct (fi_exists _ && _); [repeat split|].
    destruct (isFile o).
    + destruct (QFileM.rename os _ _ w) as [[succ f] w1].
      destruct succ; cbn; [|repeat split].
      apply (refreshInfo_sameIdentity os fasthash64 o Hid).
    + destruct (isDir o); [|repeat split].
      destruct (QDirM.rename os _ _ w) as [succ w1]. repeat split.
  - unfold remove.
    destruct (negb (fi_exists (_fileInfo o))); [repeat split|].
    destruct (isFile o).
    + destruct (QFileM.remove os _ w) as [[succ f] w1]. destruct succ; repeat split.
    + destruct (isDir o); [|repeat split].
      destruct (Rmdir.QDir_rmdir os _ "." w) as [succ w1].
      destruct succ; cbn; [repeat split|].
      destruct os; [repeat split|].
      destruct (Rmdir.rmdir w1 _) as [r w2]. repeat split.
  - intros destFolder newName. unfold copyAtomically.
    destruct (QFile_copy os _ _ w) as [[succ e] w1]. destruct succ; repeat split.
  - intros n. repeat split.
  - intros writeable r o' w'. unfold makeWritable.
    destruct os; [|discriminate].
    destruct (negb (isFile o)); [intros [= <- <- <-]; repeat split|].
    destruct (Win32API.GetFileAttributesW _ w) as [a w1].
    destruct (a =? INVALID_FILE_ATTRIBUTES); [intros [= <- <- <-]; repeat split|].
    destruct (Win32API.SetFileAttributesW _ _ w1) as [ok w2].
    destruct (negb (ok =? 1)); intros [= <- <- <-]; repeat split.
  - unfold rootFileSystemId.
    destruct (_rootFileSystemId o =? UINT64_MAX); [|repeat split].
    destruct os.
    + destruct (negb _); repeat split.
    + destruct (PosixAPI.stat w _) as [[dev|[]] w1]; repeat split.
  - apply refreshInfo_hashOfPath_kept.
Qed.

Lemma identity_is_stable_witness :
  identityKept Sample.hash (fst Sample.start)
  /\ sameIdentity (fst Sample.start) (fst Sample.copying)
  /\ sameIdentity (fst Sample.start)
       (snd (fst (moveAtomically Posix Sample.hash "/dst" "" (fst Sample.start)
                    (snd Sample.start)))).
Proof.
  assert (H : identityKept Sample.hash (fst Sample.start))
    by apply refreshInfo_hashOfPath_kept.
  split; [exact H|].
  destruct (identity_is_stable Posix Sample.hash (fst Sample.start) (snd Sample.start) H)
    as (Hc & _ & Hm & _).
  split; [|apply Hm].
  apply (Hc 4096 "/dst/" "" rcOk (fst Sample.copying) (snd Sample.copying)).
  vm_compute. reflexivity.
Defined.

(** ** The volume id is asked once *)

Lemma rootFileSystemId_known os o w :
  _rootFileSystemId o <> UINT64_MAX ->
  rootFileSystemId os o w = (_rootFileSystemId o, o, w).
Proof.
  intros H. unfold rootFileSystemId.
  destruct (Z.eqb_spec (_rootFileSystemId o) UINT64_MAX); [contradiction|reflexivity].
Qed.

Lemma rootFileSystemId_result os o w id o' w' :
  rootFileSystemId os o w = (id, o', w') ->
  _rootFileSystemId o' = id
  /\ _properties o' = _properties o /\ _fileInfo o' = _fileInfo o
  /\ _thisFile o' = _thisFile o /\ _destFile o' = _destFile o
  /\ files w' = files w.
Proof.
  unfold rootFileSystemId.
  destruct (_rootFileSystemId o =? UINT64_MAX).
  - destruct os.
    + destruct (negb _); intros [= <- <- <-]; cbn; tauto.
    + unfold PosixAPI.stat.
      destruct (Resolve.node Posix w _); intros [= <- <- <-]; cbn; tauto.
  - intros [= <- <- <-]. tauto.
Qed.

(** X11.  The volume id is memoised: once [rootFileSystemId] has answered
    with a known id, every later call answers with the same id, in whatever
    world, without asking the OS again and without changing the object; the
    query changes nothing of the object but the memoised id or the error
    text, and nothing of the files. *)
Theorem rootFileSystemId_memoised os o w :
  let id := fst (fst (rootFileSystemId os o w)) in
  let o' := snd (fst (rootFileSystemId os o w)) in
  let w' := snd (rootFileSystemId os o w) in
  (id <> UINT64_MAX -> forall w2, rootFileSystemId os o' w2 = (id, o', w2))
  /\ _properties o' = _properties o /\ _fileInfo o' = _fileInfo o
  /\ _thisFile o' = _thisFile o /\ _destFile o' = _destFile o
  /\ files w' = files w
  /\ (_rootFileSystemId o <> UINT64_MAX -> id = _rootFileSystemId o /\ o' = o /\ w' = w).
Proof.
  cbv zeta.
  pose proof (rootFileSystemId_known os o w) as Hk.
  destruct (rootFileSystemId os o w) as [[id o'] w'] eqn:E. cbn [fst snd].
  destruct (rootFileSystemId_result os o w id o' w' E) as (Hid & Hp & Hf & Ht & Hd & Hw).
  split; [|split; [exact Hp|split; [exact Hf|split; [exact Ht|split; [exact Hd|
           split; [exact Hw|]]]]]].
  - intros Hn w2. rewrite <- Hid in Hn |- *. now apply rootFileSystemId_known.
  - intros Hn. specialize (Hk Hn). injection Hk as <- <- <-. auto.
Qed.

Lemma driveIndex_range c i : Win32API.driveIndex c = Some i -> 0 <= i <= 25.
Proof.
  unfold Win32API.driveIndex. cbv zeta.
  generalize (Z.of_N (N_of_ascii c)). intros n.
  destruct (Z.leb_spec 65 n), (Z.leb_spec n 90), (Z.leb_spec 97 n), (Z.leb_spec n 122);
    cbn; intros Hi; inversion Hi; lia.
Qed.

Lemma PathGetDriveNumberW_range p :
  Win32API.PathGetDriveNumberW p = -1 \/ 0 <= Win32API.PathGetDriveNumberW p <= 25.
Proof.
  destruct p as [|c [|c' p]]; [left; reflexivity..|].
  destruct c' as [[] [] [] [] [] [] [] []]; try (left; reflexivity).
  cbn. destruct (Win32API.driveIndex c) as [i|] eqn:Ei; [|left; reflexivity].
  right. eapply driveIndex_range; eassumption.
Qed.

(** X12.  On Windows the volume id is read off the text of the path: for an
    object that has not memoised an id, the answer is the number 0..25 of the
    drive letter the full path starts with (A or a is 0, Z or z is 25), and
    the sentinel when the path does not start with a letter of A..Z or a..z
    and a colon; the file system is not consulted, so the answer is the same
    in every world, also for a path nothing stands at. *)
Theorem rootFileSystemId_win32_drive o w :
  _rootFileSystemId o = UINT64_MAX ->
  (volumeId Win32 o w = UINT64_MAX \/ 0 <= volumeId Win32 o w <= 25)
  /\ (forall c rest i,
        fullAbsolutePath o = String c (String ":" rest) ->
        Win32API.driveIndex c = Some i -> volumeId Win32 o w = i)
  /\ snd (rootFileSystemId Win32 o w) = w
  /\ (forall w2, volumeId Win32 o w2 = volumeId Win32 o w)
  /\ (forall c rest,
        fullAbsolutePath o = String c (String ":" rest) ->
        let n := Z.of_N (N_of_ascii c) in
        volumeId Win32 o w
        = if (65 <=? n) && (n <=? 90) then n - 65
          else if (97 <=? n) && (n <=? 122) then n - 97
          else UINT64_MAX)
  /\ ((forall c rest, fullAbsolutePath o <> String c (String ":" rest)) ->
      volumeId Win32 o w = UINT64_MAX)
  /\ (volumeId Win32 o w = UINT64_MAX ->
      snd (fst (rootFileSystemId Win32 o w)) = o).
Proof.
  intros E.
  assert (Hv : forall w', volumeId Win32 o w'
                          = if Win32API.PathGetDriveNumberW (fullAbsolutePath o) =? -1
                            then UINT64_MAX
                            else Win32API.PathGetDriveNumberW (fullAbsolutePath o)).
  { intros w'. rewrite volumeId_spec, E. change (UINT64_MAX =? UINT64_MAX) with true.
    cbv iota.
    destruct (PathGetDriveNumberW_range (fullAbsolutePath o)) as [H|H].
    - rewrite H. reflexivity.
    - destruct (Z.eqb_spec (Win32API.PathGetDriveNumberW (fullAbsolutePath o)) (-1));
        [lia|].
      unfold to_uint64. apply Z.mod_small. lia. }
  refine (conj _ (conj _ (conj _ (conj _ (conj _ (conj _ _)))))).
  - rewrite Hv.
    destruct (PathGetDriveNumberW_range (fullAbsolutePath o)) as [H|H].
    + rewrite H. left. reflexivity.
    + destruct (Z.eqb_spec (Win32API.PathGetDriveNumberW (fullAbsolutePath o)) (-1));
        [lia|right; exact H].
  - intros c rest i Hp Hi. rewrite Hv, Hp. cbn. rewrite Hi.
    pose proof (driveIndex_range c i Hi).
    destruct (Z.eqb_spec i (-1)); [lia|reflexivity].
  - unfold rootFileSystemId. rewrite E. change (UINT64_MAX =? UINT64_MAX) with true.
    cbv iota. destruct (negb _); reflexivity.
  - intros w2. now rewrite !Hv.
  - intros c rest Hp n. rewrite Hv, Hp. cbn [Win32API.PathGetDriveNumberW].
    unfold Win32API.driveIndex. fold n.
    destruct ((65 <=? n) && (n <=? 90)) eqn:E1.
    + apply andb_true_iff in E1 as [H1 H2].
      destruct (Z.eqb_spec (n - 65) (-1)); [lia|reflexivity].
    + destruct ((97 <=? n) && (n <=? 122)) eqn:E2; [|reflexivity].
      apply andb_true_iff in E2 as [H1 H2].
      destruct (Z.eqb_spec (n - 97) (-1)); [lia|reflexivity].
  - intros Hn. rewrite Hv.
    assert (Hm : Win32API.PathGetDriveNumberW (fullAbsolutePath o) = -1).
    { destruct (fullAbsolutePath o) as [|c [|c' p]]; [reflexivity..|].
      destruct (Ascii.eqb_spec c' ":") as [->|Hc].
      - now destruct (Hn c p).
      - destruct c' as [[] [] [] [] [] [] [] []]; try reflexivity. now destruct Hc. }
    now rewrite Hm.
  - rewrite Hv. unfold rootFileSystemId. rewrite E.
    change (UINT64_MAX =? UINT64_MAX) with true. cbv iota.
    change (Properties.fullPath (_properties o)) with (fullAbsolutePath o).
    destruct (PathGetDriveNumberW_range (fullAbsolutePath o)) as [H|H].
    + rewrite H. reflexivity.
    + destruct (Z.eqb_spec (Win32API.PathGetDriveNumberW (fullAbsolutePath o)) (-1));
        [lia|].
      intros Hx. exfalso. rewrite Hx in H. vm_compute in H. destruct H as [_ H].
      now apply H.
Qed.

(** A path on drive d: that nothing stands at, and two paths with no drive
    letter and colon in front. *)
Lemma rootFileSystemId_win32_drive_witness :
  _rootFileSystemId (Sample.object Win32 Sample.winWorld "d:/gone/x.txt") = UINT64_MAX
  /\ volumeId Win32 (Sample.object Win32 Sample.winWorld "d:/gone/x.txt") Sample.winWorld = 3.
Proof.
  split; [reflexivity|].
  apply (proj1 (proj2 (rootFileSystemId_win32_drive
                         (Sample.object Win32 Sample.winWorld "d:/gone/x.txt")
                         Sample.winWorld eq_refl))
           "d"%char "/gone/x.txt" 3); reflexivity.
Defined.

Example rootFileSystemId_win32_examples :
  volumeId Win32 (Sample.object Win32 Sample.winWorld "Z:/x") Sample.winWorld = 25
  /\ volumeId Win32 (Sample.object Win32 Sample.winWorld "//server/share/x") Sample.winWorld
     = UINT64_MAX
  /\ volumeId Win32 (Sample.object Win32 Sample.winWorld "1:/x") Sample.winWorld
     = UINT64_MAX.
Proof. repeat split; vm_compute; reflexivity. Qed.

(** The answer of [isMovableTo] in terms of the two volume ids. *)
Lemma isMovableTo_value os o dest w :
  fst (fst (fst (isMovableTo os o dest w)))
  = (volumeId os o w =? volumeId os dest w)
    && negb (volumeId os o w =? UINT64_MAX) && negb (volumeId os dest w =? UINT64_MAX).
Proof.
  unfold isMovableTo.
  pose proof (rootFileSystemId_world os o w) as [Hf Hc].
  pose proof (volumeId_world os dest w _ Hf Hc) as Hd.
  unfold volumeId in *.
  destruct (rootFileSystemId os o w) as [[a o1] w1]. cbn in Hd |- *.
  destruct (rootFileSystemId os dest w1) as [[b d1] w2]. cbn in Hd |- *. now subst b.
Qed.

(** X13.  [isMovableTo] is symmetric and transitive; an object is movable
    to itself exactly when its volume id is known. *)
Theorem isMovableTo_partial_equivalence os a b c w :
  fst (fst (fst (isMovableTo os a b w))) = fst (fst (fst (isMovableTo os b a w)))
  /\ (fst (fst (fst (isMovableTo os a b w))) = true ->
      fst (fst (fst (isMovableTo os b c w))) = true ->
      fst (fst (fst (isMovableTo os a c w))) = true)
  /\ (fst (fst (fst (isMovableTo os a a w))) = true <-> volumeId os a w <> UINT64_MAX).
Proof.
  rewrite !isMovableTo_value.
  set (x := volumeId os a w). set (y := volumeId os b w). set (z := volumeId os c w).
  repeat split.
  - rewrite (Z.eqb_sym x y). destruct (y =? x), (x =? UINT64_MAX), (y =? UINT64_MAX);
      reflexivity.
  - rewrite !andb_true_iff, !negb_true_iff, !Z.eqb_eq, !Z.eqb_neq.
    intros [[-> ?] ?] [[-> ?] ?]. auto.
  - rewrite !andb_true_iff, !negb_true_iff, !Z.eqb_neq. tauto.
  - rewrite !andb_true_iff, !negb_true_iff, Z.eqb_eq, !Z.eqb_neq. tauto.
Qed.

(** ** Children *)

Lemma startsWithCI_refl s : QStrCI.startsWith s s = true.
Proof. induction s as [|a s IH]; cbn; [reflexivity|]. now rewrite Ascii.eqb_refl. Qed.

Lemma startsWithCI_trans p q s :
  QStrCI.startsWith p q = true -> QStrCI.startsWith q s = true ->
  QStrCI.startsWith p s = true.
Proof.
  revert q s. induction p as [|a p IH]; intros q s; [reflexivity|].
  destruct q as [|b q]; [discriminate|]. destruct s as [|c s]; [discriminate|].
  cbn. rewrite !andb_true_iff, !Ascii.eqb_eq. intros [-> H1] [-> H2].
  split; [reflexivity|]. eapply IH; eassumption.
Qed.

Lemma startsWithCI_app p s : QStrCI.startsWith p (p +:+ s) = true.
Proof.
  induction p as [|a p IH]; [reflexivity|].
  change (Ascii.eqb (QStrCI.foldCase a) (QStrCI.foldCase a)
          && QStrCI.startsWith p (p +:+ s) = true).
  now rewrite Ascii.eqb_refl.
Qed.

Lemma startsWithCI_prefix p s :
  QStrCI.startsWith p s = true
  <-> exists rest, QStrCI.toCaseFolded s = QStrCI.toCaseFolded p +:+ rest.
Proof.
  revert s. induction p as [|a p IH]; intros s.
  - split; [|reflexivity]. intros _. exists (QStrCI.toCaseFolded s). reflexivity.
  - destruct s as [|b s].
    + split; [discriminate|]. intros [rest H]. discriminate.
    + cbn [QStrCI.startsWith QStrCI.toCaseFolded].
      rewrite andb_true_iff, Ascii.eqb_eq, IH. split.
      * intros [Hab [rest Hr]]. exists rest.
        change (String (QStrCI.foldCase b) (QStrCI.toCaseFolded s)
                = String (QStrCI.foldCase a) (QStrCI.toCaseFolded p +:+ rest)).
        now rewrite Hab, Hr.
      * intros [rest H].
        change (String (QStrCI.foldCase b) (QStrCI.toCaseFolded s)
                = String (QStrCI.foldCase a) (QStrCI.toCaseFolded p +:+ rest)) in H.
        injection H as Hab Hr. split; [now symmetry|]. now exists rest.
Qed.

(** X14.  [isChildOf] is a test on the text of the two paths alone, without
    regard to case: an object is a child of another exactly when its path,
    case-folded, starts with the case-folded path of the other, where folding
    takes the letters A..Z to a..z and leaves the digits and the separators
    alone.  So [isChildOf] is reflexive and transitive, an object whose path
    continues the path of another with any characters at all, a separator or
    not, is its child, and an object with a shorter path than another is not
    its child. *)
Theorem isChildOf_preorder (a b c : CFileSystemObject) :
  isChildOf a a = true
  /\ (isChildOf a b = true -> isChildOf b c = true -> isChildOf a c = true)
  /\ (forall rest, fullAbsolutePath a = fullAbsolutePath b +:+ rest -> isChildOf a b = true)
  /\ (isChildOf a b = true
      <-> exists rest, QStrCI.toCaseFolded (fullAbsolutePath a)
                       = QStrCI.toCaseFolded (fullAbsolutePath b) +:+ rest)
  /\ QStrCI.toCaseFolded "/ABCDEFGHIJKLMNOPQRSTUVWXYZ/xyz/0189._- :\"
     = "/abcdefghijklmnopqrstuvwxyz/xyz/0189._- :\"
  /\ ((QStr.length (fullAbsolutePath a) < QStr.length (fullAbsolutePath b))%nat ->
      isChildOf a b = false).
Proof.
  unfold isChildOf.
  refine (conj _ (conj _ (conj _ (conj _ (conj _ _))))).
  - apply startsWithCI_refl.
  - intros H1 H2. eapply startsWithCI_trans; eassumption.
  - intros rest ->. apply startsWithCI_app.
  - apply startsWithCI_prefix.
  - reflexivity.
  - unfold QStr.length.
    generalize (fullAbsolutePath a) as s. generalize (fullAbsolutePath b) as p.
    induction p as [|x p IH]; intros s H; [cbn in H; lia|].
    destruct s as [|y s]; [reflexivity|]. cbn in H |- *.
    rewrite IH by lia. apply andb_false_r.
Qed.

Example isChildOf_examples :
  let w := Sample.posixWorld 64 in
  isChildOf (Sample.object Posix w "/src/a.txt") (Sample.object Posix w "/SRC") = true
  /\ isChildOf (Sample.object Posix w "/srcfoo") (Sample.object Posix w "/src") = true
  /\ isChildOf (Sample.object Posix w "/src") (Sample.object Posix w "/src/a.txt") = false.
Proof. cbv zeta. repeat split; vm_compute; reflexivity. Qed.

(** ** The hierarchy, step by step *)

(** X15.  Every element of [pathHierarchy] after the first is the parent,
    [QFileInfo(x).path()], of the element before it. *)
Theorem pathHierarchy_parents os o i x y :
  pathHierarchy os o !! i = Some x ->
  pathHierarchy os o !! S i = Some y ->
  y = QtPath.path os x.
Proof.
  unfold pathHierarchy. generalize (fullAbsolutePath o) as cur.
  intros cur. remember (QStr.length cur) as n eqn:En.
  revert cur En i. induction n as [n IH] using lt_wf_ind. intros cur -> i.
  rewrite pathHierarchy_from_step.
  destruct (_ <? _)%nat eqn:E; [|destruct i; discriminate].
  apply Nat.ltb_lt in E.
  destruct i as [|i]; cbn.
  - intros [= <-].
    destruct (pathHierarchy_from_head os (QtPath.path os cur)) as [r ->].
    intros [= <-]. reflexivity.
  - apply (IH _ E _ eq_refl).
Qed.

Lemma pathHierarchy_parents_witness :
  pathHierarchy Posix (Sample.object Posix (Sample.posixWorld 64) "/src/a.txt") !! 1%nat
  = Some "/src"
  /\ "/src" = QtPath.path Posix "/src/a.txt".
Proof.
  split; [reflexivity|].
  apply (pathHierarchy_parents Posix
           (Sample.object Posix (Sample.posixWorld 64) "/src/a.txt") 0 "/src/a.txt" "/src");
    reflexivity.
Defined.

(** ** Removing an object *)

Lemma append_assoc (a b c : string) : (a +:+ b) +:+ c = a +:+ (b +:+ c).
Proof.
  induction a as [|x a IH]; [reflexivity|].
  change (String x ((a +:+ b) +:+ c) = String x (a +:+ (b +:+ c))). now rewrite IH.
Qed.

Lemma mid_app_next s c t : QStr.mid (S (String.length s)) (s +:+ String c t) = t.
Proof. induction s as [|a s IH]; [reflexivity|exact IH]. Qed.

Lemma lastIndexOf_app_sep s c t :
  QStr.lastIndexOf c t = None ->
  QStr.lastIndexOf c (s +:+ String c t) = Some (String.length s).
Proof.
  intros Ht. induction s as [|a s IH].
  - change (match QStr.lastIndexOf c t with
            | Some i => Some (S i)
            | None => if Ascii.eqb c c then Some 0%nat else None
            end = Some 0%nat).
    rewrite Ht. now rewrite Ascii.eqb_refl.
  - change (match QStr.lastIndexOf c (s +:+ String c t) with
            | Some i => Some (S i)
            | None => if Ascii.eqb a c then Some 0%nat else None
            end = Some (S (String.length s))).
    now rewrite IH.
Qed.

(** The name [dir/.] has the file name ["."]. *)
Lemma fileName_slash_dot dir : QtPath.fileName Posix (dir +:+ "/.") = ".".
Proof.
  unfold QtPath.fileName, QtPath.fromNativeSeparators. cbv zeta.
  rewrite (lastIndexOf_app_sep dir "/" "." eq_refl). apply mid_app_next.
Qed.

Lemma fileName_dot_after_slash dir :
  QStr.endsWith "/" dir = true -> QtPath.fileName Posix (dir +:+ ".") = ".".
Proof.
  intros He.
  assert (H : exists d, dir = d +:+ "/").
  { induction dir as [|a dir IH]; [discriminate|].
    destruct dir as [|b dir].
    - cbn in He. apply Ascii.eqb_eq in He. subst a. now exists "".
    - destruct (IH He) as [d Hd]. exists (String a d).
      change (String a (String b dir) = String a (d +:+ "/")). now rewrite <- Hd. }
  destruct H as [d ->]. rewrite append_assoc. apply fileName_slash_dot.
Qed.

(** On POSIX [QDir(dir).rmdir(".")] is always refused. *)
Lemma QDir_rmdir_dot_posix dir w :
  Rmdir.QDir_rmdir Posix dir "." w = (false, set_osError "Invalid argument" w).
Proof.
  unfold Rmdir.QDir_rmdir, Rmdir.rmdir.
  destruct (QStr.endsWith "/" dir) eqn:He.
  - rewrite (fileName_dot_after_slash dir He). reflexivity.
  - change (dir +:+ "/" +:+ ".") with (dir +:+ "/."). rewrite fileName_slash_dot. reflexivity.
Qed.

Lemma replace_app a b s t :
  QStr.replace a b (s +:+ t) = QStr.replace a b s +:+ QStr.replace a b t.
Proof.
  induction s as [|c s IH]; [reflexivity|].
  change (String (if Ascii.eqb c a then b else c) (QStr.replace a b (s +:+ t))
          = String (if Ascii.eqb c a then b else c)
              (QStr.replace a b s +:+ QStr.replace a b t)).
  now rewrite IH.
Qed.

Lemma split_nonempty c s : QStr.split c s <> [].
Proof.
  destruct s as [|a s]; cbn; [discriminate|].
  destruct (Ascii.eqb a c); [discriminate|].
  destruct (QStr.split c s); discriminate.
Qed.

(** Segments of a name with [/.] put behind it. *)
Lemma split_slash_dot s :
  QStr.split "/" (s +:+ "/.") = (QStr.split "/" s ++ ["."])%list.
Proof.
  induction s as [|a s IH]; [reflexivity|].
  change (QStr.split "/" (String a (s +:+ "/."))
          = (QStr.split "/" (String a s) ++ ["."])%list).
  cbn [QStr.split]. rewrite IH.
  destruct (Ascii.eqb a "/"); [reflexivity|].
  pose proof (split_nonempty "/" s) as Hn.
  destruct (QStr.split "/" s) as [|p ps]; [contradiction|reflexivity].
Qed.

(** Segments of a name that ends with a separator, with [.] put behind it. *)
Lemma split_dot_after_slash s :
  QStr.endsWith "/" s = true ->
  exists l, QStr.split "/" s = (l ++ [""])%list
            /\ QStr.split "/" (s +:+ ".") = (l ++ ["."])%list /\ l <> [].
Proof.
  induction s as [|a s IH]; [discriminate|].
  destruct s as [|b s].
  - cbn. intros He. apply Ascii.eqb_eq in He. subst a.
    exists [""]. split; [reflexivity|]. split; [reflexivity|discriminate].
  - intros He. destruct (IH He) as (l & H1 & H2 & Hl).
    change (String a (String b s) +:+ ".") with (String a (String b s +:+ ".")).
    change (QStr.split "/" (String a (String b s +:+ "."))) with
      (if Ascii.eqb a "/" then "" :: QStr.split "/" (String b s +:+ ".")
       else match QStr.split "/" (String b s +:+ ".") with
            | p :: ps => String a p :: ps
            | [] => [String a ""]
            end).
    change (QStr.split "/" (String a (String b s))) with
      (if Ascii.eqb a "/" then "" :: QStr.split "/" (String b s)
       else match QStr.split "/" (String b s) with
            | p :: ps => String a p :: ps
            | [] => [String a ""]
            end).
    rewrite H1, H2.
    destruct (Ascii.eqb a "/").
    + exists ("" :: l). split; [reflexivity|]. split; [reflexivity|discriminate].
    + destruct l as [|p ps]; [contradiction|].
      exists (String a p :: ps). split; [reflexivity|]. split; [reflexivity|discriminate].
Qed.

Lemma cleanSegments_last_dot l stack :
  Resolve.cleanSegments (l ++ ["."]) stack = Resolve.cleanSegments l stack.
Proof.
  revert stack. induction l as [|s l IH]; intros stack; [reflexivity|].
  cbn [Resolve.cleanSegments app].
  destruct (_ || _); [apply IH|]. destruct (String.eqb s ".."); apply IH.
Qed.

Lemma cleanSegments_last_empty l stack :
  Resolve.cleanSegments (l ++ [""]) stack = Resolve.cleanSegments l stack.
Proof.
  revert stack. induction l as [|s l IH]; intros stack; [reflexivity|].
  cbn [Resolve.cleanSegments app].
  destruct (_ || _); [apply IH|]. destruct (String.eqb s ".."); apply IH.
Qed.

Lemma startsWith_app c s t : s <> "" -> QStr.startsWith c (s +:+ t) = QStr.startsWith c s.
Proof. destruct s; [contradiction|reflexivity]. Qed.

Lemma endsWith_app c s t : t <> "" -> QStr.endsWith c (s +:+ t) = QStr.endsWith c t.
Proof.
  intros Ht. induction s as [|a s IH]; [reflexivity|].
  change (QStr.endsWith c (String a (s +:+ t)) = QStr.endsWith c t).
  destruct (s +:+ t) eqn:E.
  - destruct s; [cbn in E; contradiction|discriminate].
  - rewrite <- IH. reflexivity.
Qed.

Lemma endsWith_replace s :
  QStr.endsWith "/" s = true -> QStr.endsWith "/" (QStr.replace "\" "/" s) = true.
Proof.
  induction s as [|a s IH]; [discriminate|].
  destruct s as [|b s].
  - cbn. intros He. apply Ascii.eqb_eq in He. now subst a.
  - intros He. specialize (IH He).
    change (QStr.replace "\" "/" (String a (String b s))) with
      (String (if Ascii.eqb a "\" then "/"%char else a) (QStr.replace "\" "/" (String b s))).
    destruct (QStr.replace "\" "/" (String b s)) eqn:E; [discriminate|exact IH].
Qed.

Lemma cleanPath_slash_dot os q :
  q <> "" -> Resolve.cleanPath os (q +:+ "/.") = Resolve.cleanPath os q.
Proof.
  intros Hq. unfold Resolve.cleanPath.
  now rewrite split_slash_dot, cleanSegments_last_dot, startsWith_app.
Qed.

Lemma cleanPath_dot_after_slash os q :
  QStr.endsWith "/" q = true -> Resolve.cleanPath os (q +:+ ".") = Resolve.cleanPath os q.
Proof.
  intros Hq. unfold Resolve.cleanPath.
  destruct (split_dot_after_slash q Hq) as (l & H1 & H2 & _).
  rewrite H1, H2, cleanSegments_last_dot, cleanSegments_last_empty, startsWith_app;
    [reflexivity|]. now destruct q.
Qed.

Lemma isAbsolute_app os p t :
  p <> "" -> QStr.at_ 0 t <> Some ":"%char ->
  Resolve.isAbsolute os (p +:+ t) = Resolve.isAbsolute os p.
Proof.
  intros Hp Ht. unfold Resolve.isAbsolute. rewrite startsWith_app by assumption.
  f_equal. unfold QtPath.hasDrive. destruct os; [|reflexivity].
  destruct p as [|a [|b p]]; [contradiction| |reflexivity].
  change (QStr.at_ 1 (String a "" +:+ t)) with (QStr.at_ 0 t).
  destruct (QStr.at_ 0 t) as [c|]; [|reflexivity]. cbn.
  destruct (Ascii.eqb_spec c ":"); [congruence|reflexivity].
Qed.

(** The name the toolkit hands to the OS for [QDir(dir).rmdir(".")] stands
    for the directory itself. *)
Lemma key_rmdir_dot os w dir :
  dir <> "" ->
  Resolve.key os w (if QStr.endsWith "/" dir then dir +:+ "." else dir +:+ "/" +:+ ".")
  = Resolve.key os w dir.
Proof.
  intros Hd. unfold Resolve.key, Resolve.absoluteName.
  set (P := QtPath.fromNativeSeparators os dir).
  assert (HP : P <> "") by (unfold P; destruct os, dir; try contradiction; discriminate).
  assert (Hrep : forall t, QtPath.fromNativeSeparators os t = t ->
                           QtPath.fromNativeSeparators os (dir +:+ t) = P +:+ t).
  { intros t Ht. unfold P. destruct os; [|reflexivity].
    cbn [QtPath.fromNativeSeparators] in *. now rewrite replace_app, Ht. }
  destruct (QStr.endsWith "/" dir) eqn:He.
  - rewrite (Hrep "." ltac:(destruct os; reflexivity)).
    assert (HeP : QStr.endsWith "/" P = true).
    { unfold P. destruct os; [now apply endsWith_replace|exact He]. }
    rewrite isAbsolute_app by (try assumption; discriminate).
    destruct (Resolve.isAbsolute os P).
    + now apply cleanPath_dot_after_slash.
    + rewrite <- !append_assoc. apply cleanPath_dot_after_slash.
      rewrite endsWith_app by exact HP. exact HeP.
  - change (dir +:+ "/" +:+ ".") with (dir +:+ "/.").
    rewrite (Hrep "/." ltac:(destruct os; reflexivity)).
    rewrite isAbsolute_app by (try assumption; discriminate).
    destruct (Resolve.isAbsolute os P).
    + now apply cleanPath_slash_dot.
    + rewrite <- !append_assoc. apply cleanPath_slash_dot.
      destruct (cwd w); discriminate.
Qed.

Lemma removeDirectory_spec os w k ok w' :
  Rmdir.removeDirectory os w k = (ok, w') ->
  cwd w' = cwd w
  /\ (ok = true ->
      (exists n, files w !! k = Some n /\ isKind KDir n = true)
      /\ Rmdir.hasEntries os w k = false
      /\ files w' = delete k (files w))
  /\ (ok = false -> files w' = files w).
Proof.
  unfold Rmdir.removeDirectory.
  destruct (files w !! k) as [n|] eqn:En.
  - destruct (isKind KDir n) eqn:Ek, (n_denied n), (Rmdir.hasEntries os w k) eqn:Eh;
      cbn; intros [= <- <-]; (split; [reflexivity|]); split;
      try discriminate; try reflexivity; eauto.
  - intros [= <- <-]. split; [reflexivity|]. split; [discriminate|reflexivity].
Qed.

(** X16.  What [remove] does to the file system.  It answers [rcOk] only
    after the entry the full path of the object stands for has been deleted
    from the files, and nothing else has changed: that entry was a regular
    file for an object that is a file, and a directory with nothing in it for
    the other objects.  With any other answer no file has changed; an object
    whose [QFileInfo] found nothing is answered [rcObjectDoesntExist] and
    nothing is tried. *)
Theorem remove_effect os o w :
  fullAbsolutePath o <> "" ->
  let r := fst (fst (remove os o w)) in
  let w' := snd (remove os o w) in
  let k := Resolve.key os w (fullAbsolutePath o) in
  (r = rcOk ->
   (exists n, files w !! k = Some n
              /\ isKind (if isFile o then KFile else KDir) n = true)
   /\ (isFile o = false -> Rmdir.hasEntries os w k = false)
   /\ files w' = delete k (files w))
  /\ (r <> rcOk -> files w' = files w)
  /\ (fi_exists (_fileInfo o) = false -> remove os o w = (rcObjectDoesntExist, o, w)).
Proof.
  intros Hp. cbv zeta. unfold remove, fullAbsolutePath in *.
  set (p := Properties.fullPath (_properties o)) in *.
  destruct (fi_exists (_fileInfo o)); cbn [negb];
    [|split; [discriminate|split; [reflexivity|reflexivity]]].
  split; [|split; [|discriminate]].
  - destruct (isFile o).
    + rewrite (remove_closed os _ w) by reflexivity.
      unfold QFileM.engineRemove. cbn [QFileM.unsetError QFileM.make qf_fileName].
      destruct (files w !! Resolve.key os w p) as [n|] eqn:En; [|discriminate].
      destruct (isKind KFile n) eqn:Ek; [|discriminate].
      destruct (n_denied n); [discriminate|]. cbn.
      intros _. split; [eauto|]. split; [discriminate|reflexivity].
    + destruct (isDir o); [|discriminate].
      destruct os.
      * unfold Rmdir.QDir_rmdir. rewrite (key_rmdir_dot Win32 w p Hp).
        destruct (Rmdir.removeDirectory Win32 w (Resolve.key Win32 w p)) as [ok w1] eqn:E.
        apply removeDirectory_spec in E as (_ & Hok & _).
        destruct ok; [|discriminate]. intros _.
        destruct (Hok eq_refl) as (Hn & Hh & Hf). auto.
      * rewrite QDir_rmdir_dot_posix. cbn [negb].
        unfold Rmdir.rmdir. destruct (String.eqb _ "."); [discriminate|].
        change (Resolve.key Posix (set_osError "Invalid argument" w) p)
          with (Resolve.key Posix w p).
        destruct (Rmdir.removeDirectory Posix _ (Resolve.key Posix w p)) as [ok w1] eqn:E.
        apply removeDirectory_spec in E as (_ & Hok & _).
        destruct ok; [|discriminate]. intros _.
        destruct (Hok eq_refl) as (Hn & Hh & Hf). auto.
  - destruct (isFile o).
    + destruct (QFileM.remove os (QFileM.make p) w) as [[succ f] w1] eqn:E.
      apply remove_spec in E as (_ & _ & Hf & _); [|reflexivity].
      destruct succ; [intros H; now contradiction H|].
      intros _. cbn. now rewrite (Hf eq_refl).
    + destruct (isDir o); [|reflexivity].
      destruct os.
      * unfold Rmdir.QDir_rmdir.
        destruct (Rmdir.removeDirectory Win32 w _) as [ok w1] eqn:E.
        apply removeDirectory_spec in E as (_ & _ & Hf).
        destruct ok; [intros H; now contradiction H|]. intros _. now apply Hf.
      * rewrite QDir_rmdir_dot_posix. cbn [negb].
        unfold Rmdir.rmdir. destruct (String.eqb _ "."); [reflexivity|].
        destruct (Rmdir.removeDirectory Posix _ _) as [ok w1] eqn:E.
        apply removeDirectory_spec in E as (_ & _ & Hf).
        destruct ok; [intros H; now contradiction H|]. intros _. now apply Hf.
Qed.

Lemma remove_effect_witness :
  fullAbsolutePath (fst Sample.start) <> ""
  /\ files (snd (remove Posix (fst Sample.start) (snd Sample.start)))
     = delete "/src/a.txt" (files (snd Sample.start)).
Proof.
  assert (Hp : fullAbsolutePath (fst Sample.start) <> "") by discriminate.
  split; [exact Hp|].
  apply (proj1 (remove_effect Posix (fst Sample.start) (snd Sample.start) Hp)).
  vm_compute. reflexivity.
Defined.

Example remove_examples :
  let w := Sample.posixWorld 64 in
  fst (fst (remove Posix (Sample.object Posix w "/src/sub") w)) = rcOk
  /\ fst (fst (remove Posix (Sample.object Posix w "/src") w)) = rcFail
  /\ fst (fst (remove Posix (Sample.object Posix w "/nowhere") w)) = rcObjectDoesntExist
  /\ fst (fst (remove Win32 (Sample.object Win32 Sample.winWorld "C:/docs") Sample.winWorld))
     = rcFail.
Proof.
  cbv zeta. split; [vm_compute; reflexivity|]. split; [vm_compute; reflexivity|].
  split; vm_compute; reflexivity.
Qed.

(** ** Copying and moving in one call *)

(** X17.  What [copyAtomically] does to the file system.  It never
    overwrites: it answers [rcOk] only when nothing stood at the destination
    name, which is [destFolder] immediately followed by the name (no separator
    is put between them); then a regular file with the bytes of the source
    stands there, the source and every other name are as before and the
    object is unchanged.  Otherwise it answers [rcFail], the world is
    untouched and only the error text of the object changes; a taken
    destination name is one such case. *)
Theorem copyAtomically_effect os destFolder newName o w :
  let r := fst (fst (copyAtomically os destFolder newName o w)) in
  let o' := snd (fst (copyAtomically os destFolder newName o w)) in
  let w' := snd (copyAtomically os destFolder newName o w) in
  let k := Resolve.key os w (fullAbsolutePath o) in
  let k' := Resolve.key os w (copyDestination destFolder newName o) in
  (r = rcOk \/ r = rcFail)
  /\ (r = rcOk ->
      files w !! k' = None
      /\ (exists n n', files w !! k = Some n /\ isKind KFile n = true
                       /\ files w' = <[k' := n']> (files w)
                       /\ isKind KFile n' = true /\ n_data n' = n_data n
                       /\ files w' !! k = Some n)
      /\ cwd w' = cwd w /\ o' = o)
  /\ (r = rcFail -> w' = w /\ exists e, o' = with_lastError e o)
  /\ (is_Some (files w !! k') ->
      r = rcFail /\ lastErrorMessage o' = "Destination file exists").
Proof.
  cbv zeta. unfold copyAtomically, QFile_copy, fullAbsolutePath, copyDestination.
  set (k := Resolve.key os w (Properties.fullPath (_properties o))).
  set (k' := Resolve.key os w _).
  destruct (files w !! k') as [n0|] eqn:E'.
  { cbn. split; [auto|]. split; [discriminate|]. split; [eauto|]. auto. }
  destruct (files w !! k) as [n|] eqn:E.
  2:{ cbn. split; [auto|]. split; [discriminate|]. split; [eauto|].
      intros [x Hx]; discriminate. }
  destruct (files w !! QtPath.path os k') as [d|] eqn:Ed.
  2:{ cbn. split; [auto|]. split; [discriminate|]. split; [eauto|].
      intros [x Hx]; discriminate. }
  destruct (isKind KFile n) eqn:Ek; cbn [andb].
  2:{ cbn. split; [auto|]. split; [discriminate|]. split; [eauto|].
      intros [x Hx]; discriminate. }
  destruct (n_denied n), (isKind KDir d), (n_denied d); cbn [andb negb];
    try (cbn; split; [auto|]; split; [discriminate|]; split; [eauto|];
         intros [x Hx]; discriminate).
  destruct (_ <=? _); cbn.
  - split; [auto|]. split; [|split; [discriminate|intros [x Hx]; discriminate]].
    intros _. split; [reflexivity|]. split; [|auto].
    eexists n, _. split; [reflexivity|]. split; [exact Ek|].
    split; [reflexivity|]. split; [reflexivity|]. split; [reflexivity|].
    rewrite lookup_insert_ne; [exact E|]. intros ->. congruence.
  - split; [auto|]. split; [discriminate|]. split; [eauto|].
    intros [x Hx]; discriminate.
Qed.

Example copyAtomically_examples :
  let w := Sample.posixWorld 64 in
  let o := Sample.object Posix w "/src/a.txt" in
  fst (fst (copyAtomically Posix "/dst/" "" o w)) = rcOk
  /\ n_data <$> files (snd (copyAtomically Posix "/dst/" "" o w)) !! "/dst/a.txt"
     = Some (Sample.bytes "hello")
  /\ fst (fst (copyAtomically Posix "/dst/" "b.txt" o w)) = rcFail
  /\ n_data <$> files (snd (copyAtomically Posix "/dst" "" o w)) !! "/dsta.txt"
     = Some (Sample.bytes "hello")
  /\ fst (fst (copyAtomically Posix "/dst/" "" o (Sample.posixWorld 3))) = rcFail.
Proof.
  cbv zeta. split; [vm_compute; reflexivity|]. split; [vm_compute; reflexivity|].
  split; [vm_compute; reflexivity|]. split; vm_compute; reflexivity.
Qed.

(** ** Moving: within a volume and across volumes *)

Lemma read_name os m f w : qf_fileName (snd (QFileM.read os m f w)) = qf_fileName f.
Proof.
  unfold QFileM.read.
  destruct (qf_openMode f), (Resolve.node os w (qf_fileName f)) as [n|];
    try destruct (isKind KFile n); reflexivity.
Qed.

(** The block copy changes the contents of the new file and nothing else. *)
Lemma blockCopy_contentsOnly os fuel :
  forall this out w err this' out' w',
    QFileM.blockCopy os fuel this out w = Some (err, this', out', w') ->
    contentsOnly (Resolve.key os w (qf_fileName out)) w w'
    /\ qf_fileName this' = qf_fileName this /\ qf_fileName out' = qf_fileName out.
Proof.
  induction fuel as [|fuel IH]; intros this out w err this' out' w'; [discriminate|].
  cbn [QFileM.blockCopy].
  pose proof (read_name os 4096 this w) as Hrn.
  destruct (QFileM.read os 4096 this w) as [block this1]. cbn [snd] in Hrn.
  destruct block as [|b block].
  - destruct (qf_error this1); intros [= <- <- <- <-];
      (split; [apply contentsOnly_refl|]); split; auto.
  - pose proof (write_name os (b :: block) out w) as Hwn.
    pose proof (write_contentsOnly os (b :: block) out w) as Hwc.
    destruct (QFileM.write os (b :: block) out w) as [[written out1] w1].
    cbn [fst snd] in Hwn, Hwc.
    destruct (written =? _).
    + intros H. apply IH in H as (Hc & Ht & Ho).
      split; [|split; congruence].
      eapply contentsOnly_trans; [exact Hwc|].
      rewrite Hwn, (contentsOnly_key os _ _ _ _ Hwc) in Hc. exact Hc.
    + intros [= <- <- <- <-]. split; [exact Hwc|]. split; [exact Hrn|exact Hwn].
Qed.

(** The block copy ends: a file of [n] bytes is read in at most [n] blocks
    and one more read, so that the bound [rename] puts on the blocks is never
    reached. *)
Lemma blockCopy_ends os fuel :
  forall this out w n,
    qf_openMode this = ReadOnly -> 0 <= qf_pos this ->
    Resolve.node os w (qf_fileName this) = Some n -> isKind KFile n = true ->
    Resolve.key os w (qf_fileName this) <> Resolve.key os w (qf_fileName out) ->
    (List.length (n_data n) - Z.to_nat (qf_pos this) < fuel)%nat ->
    QFileM.blockCopy os fuel this out w <> None.
Proof.
  induction fuel as [|fuel IH]; intros this out w n Hm Hpos Hn Hk Hne Hf; [lia|].
  cbn [QFileM.blockCopy]. rewrite (read_at os 4096 this w n Hm Hn Hk).
  remember (take (Z.to_nat 4096) (drop (Z.to_nat (qf_pos this)) (n_data n))) as block
    eqn:Eb.
  assert (Hlen : List.length block
                 = Nat.min (Z.to_nat 4096) (List.length (n_data n) - Z.to_nat (qf_pos this))).
  { subst block. now rewrite length_take, length_drop. }
  clear Eb. destruct block as [|b bs].
  - cbn [qf_error QFileM.moved]. destruct (qf_error this); discriminate.
  - cbv iota. set (block0 := b :: bs) in *.
    assert (Hpos0 : (0 < List.length block0)%nat) by (cbn; lia). clearbody block0.
    pose proof (write_contentsOnly os block0 out w) as Hc.
    pose proof (write_name os block0 out w) as Hwn.
    destruct (QFileM.write os block0 out w) as [[written out1] w1].
    cbn [fst snd] in Hc, Hwn.
    destruct (written =? _); [|discriminate].
    apply (IH _ out1 w1 n).
    + exact Hm.
    + cbn [qf_pos QFileM.moved]. lia.
    + unfold Resolve.node in *. cbn [qf_fileName QFileM.moved].
      rewrite (contentsOnly_key os _ _ _ _ Hc).
      destruct Hc as (_ & Hfr & _). rewrite Hfr by exact Hne. exact Hn.
    + exact Hk.
    + cbn [qf_fileName QFileM.moved]. rewrite Hwn, !(contentsOnly_key os _ _ _ _ Hc).
      exact Hne.
    + cbn [qf_pos QFileM.moved].
      lia.
Qed.

(** [QFile::remove], also of a file that is open: the close may flush, the
    engine deletes the name. *)
Lemma remove_files os f w succ f' w' :
  QFileM.remove os f w = (succ, f', w') ->
  exists w1,
    contentsOnly (Resolve.key os w (qf_fileName f)) w w1
    /\ cwd w' = cwd w1
    /\ (succ = true -> files w' = delete (Resolve.key os w (qf_fileName f)) (files w1))
    /\ (succ = false -> w' = w1).
Proof.
  unfold QFileM.remove.
  pose proof (close_contentsOnly os (QFileM.unsetError f) w) as Hc.
  pose proof (QtFacts.close_file os (QFileM.unsetError f) w) as [_ Hn].
  destruct (QFileM.close os (QFileM.unsetError f) w) as [f1 w1].
  cbn [fst snd] in Hc, Hn.
  change (qf_fileName (QFileM.unsetError f)) with (qf_fileName f) in Hc, Hn.
  intros E. exists w1. split; [exact Hc|]. revert E.
  destruct (qf_error f1);
    try (intros [= <- <- <-]; split; [reflexivity|]; split; [discriminate|reflexivity]).
  unfold QFileM.engineRemove. rewrite Hn, (contentsOnly_key os _ _ _ _ Hc).
  destruct (files w1 !! _) as [n|].
  - destruct (_ && _); intros [= <- <- <-]; cbn.
    + split; [reflexivity|]. split; [reflexivity|discriminate].
    + split; [reflexivity|]. split; [discriminate|reflexivity].
  - intros [= <- <- <-]. split; [reflexivity|]. split; [discriminate|reflexivity].
Qed.

Lemma openRead_file os name w f :
  QFileM.openRead os (QFileM.make name) w = (true, f) ->
  f = QFileM.opened ReadOnly (QFileM.make name)
  /\ exists n, files w !! Resolve.key os w name = Some n
               /\ isKind KFile n = true /\ n_denied n = false.
Proof.
  unfold QFileM.openRead, Resolve.node.
  cbn [QFileM.isOpen QFileM.make qf_openMode qf_fileName].
  destruct (files w !! _) as [n|]; [|discriminate].
  destruct (isKind KFile n) eqn:Ek, (n_denied n) eqn:Ed; cbn; try discriminate.
  intros [= <-]. eauto.
Qed.

Lemma openWrite_new os name w f w1 :
  files w !! Resolve.key os w name = None ->
  QFileM.openWrite os (QFileM.make name) w = (true, f, w1) ->
  exists d, files w !! QtPath.path os (Resolve.key os w name) = Some d
            /\ isKind KDir d = true /\ n_denied d = false.
Proof.
  unfold QFileM.openWrite. cbn [QFileM.isOpen QFileM.make qf_openMode qf_fileName].
  intros ->. destruct (files w !! _) as [d|]; [|discriminate].
  destruct (isKind KDir d) eqn:Ek, (n_denied d) eqn:Ed; cbn; try discriminate.
  eauto.
Qed.

(** When the engine renames, the node has the new name and nothing else has
    changed; it renames a regular file into a directory of its volume. *)
Lemma engineRename_spec os newName f w :
  let k := Resolve.key os w (qf_fileName f) in
  let k' := Resolve.key os w newName in
  (fst (QFileM.engineRename os newName f w) = true ->
   exists n, files w !! k = Some n /\ files w !! k' = None /\ isKind KFile n = true
             /\ snd (QFileM.engineRename os newName f w)
                = set_files (<[k' := n]> (delete k (files w))) w)
  /\ (fst (QFileM.engineRename os newName f w) = false ->
      snd (QFileM.engineRename os newName f w) = w
      /\ forall n d, files w !! k = Some n -> files w !! k' = None ->
                     files w !! QtPath.path os k' = Some d ->
                     isKind KFile n = true -> n_denied n = false ->
                     isKind KDir d = true -> n_denied d = false ->
                     n_dev n <> n_dev d).
Proof.
  cbv zeta. unfold QFileM.engineRename.
  destruct (files w !! Resolve.key os w (qf_fileName f)) as [n|];
    [|split; [discriminate|split; [reflexivity|discriminate]]].
  destruct (files w !! Resolve.key os w newName) as [n'|];
    [split; [discriminate|split; [reflexivity|discriminate]]|].
  destruct (files w !! QtPath.path os _) as [d|];
    [|split; [discriminate|split; [reflexivity|discriminate]]].
  destruct (_ && _) eqn:Ec; cbn [fst snd].
  - split; [|discriminate]. intros _. exists n.
    repeat rewrite andb_true_iff in Ec. destruct Ec as [[[[Ek _] _] _] _]. auto.
  - split; [discriminate|]. intros _. split; [reflexivity|].
    intros n0 d0 [= <-] _ [= <-] H1 H2 H3 H4.
    rewrite H1, H2, H3, H4 in Ec. cbn in Ec. now apply Z.eqb_neq.
Qed.

Lemma openWrite_refused os f w f' w' :
  QFileM.openWrite os f w = (false, f', w') -> w' = w.
Proof.
  unfold QFileM.openWrite. destruct (QFileM.isOpen f); [now intros [= <- <-]|].
  destruct (files w !! _) as [n|].
  - destruct (_ && _); [discriminate|now intros [= <- <-]].
  - destruct (files w !! _) as [d|]; [|now intros [= <- <-]].
    destruct (_ && _); [discriminate|now intros [= <- <-]].
Qed.

(** [QFile(name).rename(newName)].  It answers true only when nothing stood
    at the new name, and then a regular file stands there and nothing at the
    old name; unless the move crosses volumes, that file is the node as it
    was, and a refusal leaves the world as it was. *)
Lemma rename_effect os newName name w :
  let res := QFileM.rename os newName (QFileM.make name) w in
  let k := Resolve.key os w name in
  let k' := Resolve.key os w newName in
  (fst (fst res) = true ->
   files w !! k' = None
   /\ exists n n',
       files w !! k = Some n /\ isKind KFile n = true
       /\ files (snd res) !! k = None /\ files (snd res) !! k' = Some n'
       /\ isKind KFile n' = true
       /\ (forall j, j <> k -> j <> k' -> files (snd res) !! j = files w !! j)
       /\ (~ crossesVolumes os w k k' -> n' = n))
  /\ (fst (fst res) = false -> ~ crossesVolumes os w k k' -> snd res = w).
Proof.
  cbv zeta. unfold QFileM.rename. cbn [QFileM.make qf_fileName].
  set (k := Resolve.key os w name). set (k' := Resolve.key os w newName).
  destruct (String.eqb name newName); [QtTactics.refused|].
  destruct (files w !! k) as [n|] eqn:En; [|QtTactics.refused].
  destruct (files w !! k') as [n0|] eqn:En'; [QtTactics.refused|].
  assert (Hkk : k <> k') by (intros Heq; rewrite Heq in En; congruence).
  change (QFileM.close os (QFileM.unsetError (QFileM.make name)) w)
    with (QFileM.make name, w).
  cbv beta iota. change (qf_error (QFileM.make name)) with NoError. cbv iota.
  pose proof (engineRename_spec os newName (QFileM.make name) w) as [Hyes Hno].
  cbn [QFileM.make qf_fileName] in Hyes, Hno. fold k k' in Hyes, Hno.
  destruct (QFileM.engineRename os newName (QFileM.make name) w) as [renamedByOS w1].
  cbn [fst snd] in Hyes, Hno.
  destruct renamedByOS.
  { cbn [fst snd]. split; [|discriminate]. intros _. split; [reflexivity|].
    destruct (Hyes eq_refl) as (n1 & Hn1 & _ & Hk1 & ->).
    rewrite En in Hn1. injection Hn1 as <-.
    exists n, n. cbn [files set_files].
    split; [reflexivity|]. split; [exact Hk1|].
    split; [rewrite lookup_insert_ne by congruence; apply lookup_delete_eq|].
    split; [apply lookup_insert_eq|]. split; [exact Hk1|].
    split; [|reflexivity].
    intros j Hj Hj'. rewrite lookup_insert_ne by congruence.
    now rewrite lookup_delete_ne by congruence. }
  destruct (Hno eq_refl) as [_ Hdev]. clear Hyes Hno.
  destruct (QFileM.openRead os (QFileM.make name) w) as [opened f1] eqn:Er.
  destruct opened; cbn [negb]; [|QtTactics.refused].
  apply openRead_file in Er as (-> & n1 & Hn1 & Hk1 & Hd1).
  fold k in Hn1. rewrite En in Hn1. injection Hn1 as <-.
  destruct (QFileM.openWrite os (QFileM.make newName) w) as [[opened out1] w2] eqn:Ew.
  destruct opened; cbn [negb].
  2:{ apply openWrite_refused in Ew as ->.
      pose proof (close_unbuffered os (QFileM.opened ReadOnly (QFileM.make name)) w eq_refl)
        as Hcl.
      destruct (QFileM.close os _ w) as [f2 w3]. cbn [fst snd] in Hcl |- *.
      split; [discriminate|]. intros _ _. exact Hcl. }
  destruct (openWrite_new os newName w _ _ En' Ew) as (d & Hd & Hkd & Hdd).
  fold k' in Hd.
  assert (Hcross : crossesVolumes os w k k').
  { exists n, d. split; [exact En|]. split; [exact Hd|]. eauto. }
  apply openWrite_success in Ew as (-> & Hcwd & (nd & Hnd & Hknd & _ & _) & Hframe & _).
  fold k' in Hnd, Hframe.
  set (t0 := QFileM.opened ReadOnly (QFileM.make name)).
  set (o0 := QFileM.opened WriteOnly (QFileM.make newName)).
  destruct (QFileM.blockCopy os _ t0 o0 w2) as [[[[err t1] o1] w3]|] eqn:Eb;
    [|cbn [fst snd]; split; [discriminate|intros _ H; now destruct H]].
  apply blockCopy_contentsOnly in Eb as (Hc3 & Ht1 & Ho1).
  cbn [QFileM.opened QFileM.make qf_fileName t0 o0] in Hc3, Ht1, Ho1.
  rewrite (key_cwd os w2 w newName Hcwd) in Hc3. fold k' in Hc3.
  destruct err.
  { destruct (QFileM.remove os o1 w3) as [[r1 o2] w4].
    destruct (QFileM.close os t1 w4) as [t2 w5].
    cbn [fst snd]; split; [discriminate|intros _ H; now destruct H]. }
  destruct (QFileM.remove os t1 w3) as [[removed t2] w4] eqn:Erm.
  apply remove_files in Erm as (w3' & Hc3' & Hcwd4 & Hdel & _).
  rewrite Ht1, (contentsOnly_key os _ _ _ _ Hc3), (key_cwd os w2 w name Hcwd) in Hc3', Hdel.
  fold k in Hc3', Hdel.
  destruct removed; cbn [negb].
  2:{ destruct (QFileM.remove os o1 _) as [[r1 o2] w5].
      destruct (QFileM.close os _ w5) as [t3 w6].
      cbn [fst snd]; split; [discriminate|intros _ H; now destruct H]. }
  specialize (Hdel eq_refl).
  change (QFileM.close os (QFileM.renamed newName t2) (set_freeSpace (freeSpace w3) w4))
    with (QFileM.renamed newName t2, set_freeSpace (freeSpace w3) w4).
  cbv beta iota zeta.
  pose proof (close_contentsOnly os o1 (set_freeSpace (freeSpace w3) w4)) as Hc5.
  destruct (QFileM.close os o1 (set_freeSpace (freeSpace w3) w4)) as [o2 w5].
  cbn [fst snd] in Hc5 |- *.
  assert (Hk5 : Resolve.key os (set_freeSpace (freeSpace w3) w4) (qf_fileName o1) = k').
  { rewrite Ho1. unfold k', Resolve.key. cbn [cwd set_freeSpace].
    rewrite Hcwd4. destruct Hc3' as (-> & _). destruct Hc3 as (-> & _). now rewrite Hcwd. }
  rewrite Hk5 in Hc5.
  split; [|discriminate]. intros _. split; [reflexivity|].
  pose proof (contentsOnly_node _ _ _ k' Hc3) as N3. rewrite Hnd in N3.
  destruct (files w3 !! k') as [n3|] eqn:E3; [|contradiction].
  assert (E3' : files w3' !! k' = Some n3).
  { destruct Hc3' as (_ & Hf & _). rewrite Hf by congruence. exact E3. }
  assert (E4 : files (set_freeSpace (freeSpace w3) w4) !! k' = Some n3).
  { cbn [files set_freeSpace]. rewrite Hdel. now rewrite lookup_delete_ne by congruence. }
  pose proof (contentsOnly_node _ _ _ k' Hc5) as N5. rewrite E4 in N5.
  destruct (files w5 !! k') as [n5|] eqn:E5; [|contradiction].
  exists n, n5.
  split; [reflexivity|]. split; [exact Hk1|].
  split.
  { destruct Hc5 as (_ & Hf & _). rewrite Hf by congruence.
    cbn [files set_freeSpace]. rewrite Hdel. apply lookup_delete_eq. }
  split; [reflexivity|].
  split.
  { unfold isKind in *. destruct N5 as [-> _]. destruct N3 as [-> _]. exact Hknd. }
  split; [|intros H; now destruct H].
  intros j Hj Hj'.
  destruct Hc5 as (_ & Hf5 & _). rewrite Hf5 by congruence.
  cbn [files set_freeSpace]. rewrite Hdel, lookup_delete_ne by congruence.
  destruct Hc3' as (_ & Hf3' & _). rewrite Hf3' by congruence.
  destruct Hc3 as (_ & Hf3 & _). rewrite Hf3 by congruence.
  now apply Hframe.
Qed.

(** X18.  What [moveAtomically] does to the file system.  An object that
    does not exist and a destination that is taken are answered without a
    change of the world.  A file is moved only to a name at which nothing
    stood: after [rcOk] nothing stands at the old name, a regular file stands
    at the new name and no other name has changed.  Unless the move crosses
    volumes, that file is the node as it was, with its bytes, attributes and
    dates, and any answer but [rcOk] leaves the world as it was; for a
    directory that is so also across volumes.  Across volumes the toolkit
    copies the file into a new one and removes the source. *)
Theorem moveAtomically_effect os fasthash64 location newName o w :
  let r := fst (fst (moveAtomically os fasthash64 location newName o w)) in
  let w' := snd (moveAtomically os fasthash64 location newName o w) in
  let k := Resolve.key os w (fullAbsolutePath o) in
  let k' := Resolve.key os w (moveDestination location newName o) in
  (r = rcObjectDoesntExist \/ r = rcTargetAlreadyExists -> w' = w)
  /\ (r <> rcOk -> isFile o = false \/ ~ crossesVolumes os w k k' -> w' = w)
  /\ (r = rcOk -> isFile o = true ->
      files w !! k' = None
      /\ exists n n',
          files w !! k = Some n /\ isKind KFile n = true
          /\ files w' !! k = None /\ files w' !! k' = Some n'
          /\ isKind KFile n' = true
          /\ (forall j, j <> k -> j <> k' -> files w' !! j = files w !! j)
          /\ (~ crossesVolumes os w k k' -> n' = n)).
Proof.
  cbv zeta. unfold moveAtomically, moveDestination, fullAbsolutePath.
  destruct (negb (exists_ o));
    [split; [reflexivity|split; [reflexivity|discriminate]]|].
  destruct (isCdUp o); [split; [reflexivity|split; [reflexivity|discriminate]]|].
  destruct (fi_exists _ && _);
    [split; [reflexivity|split; [reflexivity|discriminate]]|].
  destruct (isFile o).
  - pose proof (rename_effect os
                  (location +:+ "/" +:+
                   (if QStr.isEmpty newName then Properties.fullName (_properties o)
                    else newName))
                  (Properties.fullPath (_properties o)) w) as [Hyes Hno].
    cbv zeta in Hyes, Hno.
    destruct (QFileM.rename os _ _ w) as [[succ f] w1]. cbn [fst snd] in Hyes, Hno.
    destruct succ; cbn [negb fst snd].
    + split; [intros [H|H]; discriminate|]. split; [intros H; now contradiction H|].
      intros _ _. exact (Hyes eq_refl).
    + split; [intros [H|H]; discriminate|]. split; [|discriminate].
      intros _ [H|H]; [discriminate|]. exact (Hno eq_refl H).
  - destruct (isDir o); [|split; [reflexivity|split; [reflexivity|discriminate]]].
    unfold QDirM.rename.
    destruct (files w !! _) as [n|];
      [|split; [reflexivity|split; [reflexivity|discriminate]]].
    destruct (files w !! _) as [n'|];
      [split; [reflexivity|split; [reflexivity|discriminate]]|].
    destruct (files w !! _) as [d|];
      [|split; [reflexivity|split; [reflexivity|discriminate]]].
    destruct (_ && _); cbn [fst snd].
    + split; [intros [H|H]; discriminate|]. split; [|discriminate].
      intros H; now contradiction H.
    + split; [reflexivity|split; [reflexivity|discriminate]].
Qed.

(** /src/a.txt moves within its volume with its dates; moved to /mnt, which
    is another volume, it is a new file with the dates of the copy.  A move of
    the 16385 bytes of /src/big.bin to /mnt with room for two bytes fails
    with the source in place and leaves the two bytes that were written
    under the new name: the buffered bytes cannot be flushed, and [QFile]
    does not remove a file whose close has failed. *)
Example moveAtomically_volumes :
  let w := Sample.posixWorld 64 in
  let o := Sample.object Posix w "/src/a.txt" in
  let wb := Sample.bigWorld 2 in
  let ob := Sample.object Posix wb "/src/big.bin" in
  fst (fst (moveAtomically Posix Sample.hash "/dst" "" o w)) = rcOk
  /\ files (snd (moveAtomically Posix Sample.hash "/dst" "" o w)) !! "/dst/a.txt"
     = Some (Sample.file "hello" 1)
  /\ fst (fst (moveAtomically Posix Sample.hash "/mnt" "" o w)) = rcOk
  /\ files (snd (moveAtomically Posix Sample.hash "/mnt" "" o w)) !! "/mnt/a.txt"
     = Some (mkNode KFile (Sample.bytes "hello") FILE_ATTRIBUTE_ARCHIVE 1000 1000 2 false)
  /\ files (snd (moveAtomically Posix Sample.hash "/mnt" "" o w)) !! "/src/a.txt" = None
  /\ fst (fst (moveAtomically Posix Sample.hash "/mnt" "" ob wb)) = rcFail
  /\ n_data <$> files (snd (moveAtomically Posix Sample.hash "/mnt" "" ob wb)) !! "/mnt/big.bin"
     = Some (take 2 Sample.big)
  /\ n_data <$> files (snd (moveAtomically Posix Sample.hash "/mnt" "" ob wb)) !! "/src/big.bin"
     = Some Sample.big.
Proof.
  cbv zeta.
  repeat (split; [vm_compute; reflexivity|]). vm_compute; reflexivity.
Qed.
(** ** The copy/move dialog *)

Lemma pauseResume_some d p :
  Dialog._performer d = Some p ->
  Dialog.pauseResume d
  = Some (Dialog.mkDialog
            (Some (Dialog.mkPerformer (Dialog.p_working p) (negb (Dialog.p_paused p))
                     (Dialog.p_cancelRequested p)))
            (if negb (Dialog.p_paused p) then "Resume" else "Pause")
            (if negb (Dialog.p_paused p) then Dialog.psPaused else Dialog.psNormal)
            (Dialog.btnCancelEnabled d) (Dialog.btnPauseEnabled d)).
Proof. unfold Dialog.pauseResume. intros ->. reflexivity. Qed.

(** [cancelPressed], call by call: what is shown when the question is asked,
    and what is done to the dialog the question leaves. *)
Lemma cancelPressed_eq question d :
  Dialog.cancelPressed question d
  = match Dialog._performer d with
    | Some p =>
        if Dialog.p_working p then
          let answer := fst (question (Dialog.shownForQuestion d)) in
          let asked := snd (question (Dialog.shownForQuestion d)) in
          if answer then
            match Dialog.pauseResume asked with
            | Some d1 =>
                match Dialog.cancel d1 with
                | Some d2 => Some (true, d2)
                | None => None
                end
            | None => None
            end
          else if Dialog.p_paused p then Some (false, asked)
          else
            match Dialog.pauseResume asked with
            | Some d1 => Some (false, d1)
            | None => None
            end
        else Some (true, d)
    | None => Some (true, d)
    end.
Proof.
  unfold Dialog.cancelPressed, Dialog.shownForQuestion.
  destruct (Dialog._performer d) as [p|] eqn:Ep; [|reflexivity].
  destruct (Dialog.p_working p); [|reflexivity]. cbn [negb].
  rewrite (pauseResume_some d p Ep).
  destruct (Dialog.p_paused p); cbn [negb]; cbv zeta;
    destruct (question _) as [yes asked]; cbn [fst snd]; destruct yes; reflexivity.
Qed.

Lemma shownForQuestion_paused d :
  Dialog.working d -> Dialog.shownPaused (Dialog.shownForQuestion d).
Proof.
  intros (p & Hp & Hw). unfold Dialog.shownForQuestion, Dialog.shownPaused.
  rewrite Hp, (pauseResume_some d p Hp).
  destruct (Dialog.p_paused p) eqn:E; cbn; eauto.
Qed.

(** X19.  [cancelPressed], with the event loop of the question taken into
    account.  With no performer at work it answers true, asks nothing and
    changes nothing.  With a performer at work the user is asked while the
    performer is paused.  When the question returns with the performer
    released (the operation has finished in the meantime), the calls that
    follow dereference the null performer, unless the answer is No and the
    performer was paused before.  When the performer is still there, the
    answer of the method is the user's: after No a performer that was running
    before is resumed and the buttons are left alone; after Yes the pause is
    toggled once more, the performer is told to cancel and both buttons are
    disabled.  When the question has left the dialog as it was, the performer
    is after No exactly as before, and after Yes it is at work, not paused and
    told to cancel. *)
Theorem cancelPressed_answers question d :
  let shown := Dialog.shownForQuestion d in
  let answer := fst (question shown) in
  let asked := snd (question shown) in
  (~ Dialog.working d -> Dialog.cancelPressed question d = Some (true, d))
  /\ (Dialog.working d ->
      Dialog.shownPaused shown
      /\ (Dialog.shownPaused d -> shown = d)
      /\ (~ Dialog.shownPaused d -> Dialog.pauseResume d = Some shown)
      /\ (Dialog._performer asked = None ->
          (answer = true \/ ~ Dialog.shownPaused d ->
           Dialog.cancelPressed question d = None)
          /\ (answer = false -> Dialog.shownPaused d ->
              Dialog.cancelPressed question d = Some (false, asked)))
      /\ (forall q, Dialog._performer asked = Some q ->
          exists d',
            Dialog.cancelPressed question d = Some (answer, d')
            /\ (answer = false -> Dialog.shownPaused d -> d' = asked)
            /\ (answer = false -> ~ Dialog.shownPaused d ->
                Dialog._performer d' = Some (snd (Dialog.togglePause q))
                /\ Dialog.btnCancelEnabled d' = Dialog.btnCancelEnabled asked
                /\ Dialog.btnPauseEnabled d' = Dialog.btnPauseEnabled asked)
            /\ (answer = true ->
                Dialog._performer d'
                = Some (Dialog.performerCancel (snd (Dialog.togglePause q)))
                /\ Dialog.btnCancelEnabled d' = false
                /\ Dialog.btnPauseEnabled d' = false))
      /\ (asked = shown ->
          exists d',
            Dialog.cancelPressed question d = Some (answer, d')
            /\ (answer = false ->
                Dialog._performer d' = Dialog._performer d
                /\ Dialog.btnCancelEnabled d' = Dialog.btnCancelEnabled d
                /\ Dialog.btnPauseEnabled d' = Dialog.btnPauseEnabled d)
            /\ (answer = true ->
                (exists p', Dialog._performer d' = Some p'
                            /\ Dialog.p_cancelRequested p' = true
                            /\ Dialog.p_paused p' = false
                            /\ Dialog.p_working p' = true)
                /\ Dialog.btnCancelEnabled d' = false
                /\ Dialog.btnPauseEnabled d' = false))).
Proof.
  cbv zeta. rewrite cancelPressed_eq. split.
  { intros Hnw. destruct (Dialog._performer d) as [p|] eqn:Ep; [|reflexivity].
    destruct (Dialog.p_working p) eqn:Ew; [|reflexivity].
    destruct Hnw. exists p. auto. }
  intros Hw. split; [exact (shownForQuestion_paused d Hw)|].
  destruct Hw as (p & Hp & Hw). rewrite Hp, Hw. cbv zeta.
  unfold Dialog.shownPaused.
  assert (Hpaused : (exists p0, Dialog._performer d = Some p0 /\ Dialog.p_paused p0 = true)
                    <-> Dialog.p_paused p = true).
  { rewrite Hp. split; [intros (p0 & [= <-] & H); exact H|eauto]. }
  assert (Hshown : Dialog.shownForQuestion d
                   = if Dialog.p_paused p then d
                     else Dialog.mkDialog
                            (Some (Dialog.mkPerformer (Dialog.p_working p) true
                                     (Dialog.p_cancelRequested p)))
                            "Resume" Dialog.psPaused
                            (Dialog.btnCancelEnabled d) (Dialog.btnPauseEnabled d)).
  { unfold Dialog.shownForQuestion. rewrite Hp, (pauseResume_some d p Hp).
    destruct (Dialog.p_paused p); reflexivity. }
  split.
  { intros H. apply Hpaused in H. now rewrite Hshown, H. }
  split.
  { intros H. rewrite Hshown, (pauseResume_some d p Hp).
    destruct (Dialog.p_paused p); [destruct H; now apply Hpaused|reflexivity]. }
  set (answer := fst (question (Dialog.shownForQuestion d))).
  set (asked := snd (question (Dialog.shownForQuestion d))).
  split; [|split].
  - intros Hnone. unfold Dialog.pauseResume. rewrite Hnone. split.
    + intros [->|Hn]; [reflexivity|].
      destruct answer; [reflexivity|].
      destruct (Dialog.p_paused p); [destruct Hn; now apply Hpaused|reflexivity].
    + intros -> H. apply Hpaused in H. now rewrite H.
  - intros q Hq. rewrite (pauseResume_some asked q Hq).
    unfold Dialog.cancel. cbn [Dialog._performer].
    destruct answer.
    + eexists. split; [reflexivity|]. split; [discriminate|]. split; [discriminate|].
      intros _. cbn. auto.
    + destruct (Dialog.p_paused p) eqn:Epa.
      * eexists. split; [reflexivity|]. split; [reflexivity|].
        split; [|discriminate]. intros _ H. destruct H. now apply Hpaused.
      * eexists. split; [reflexivity|].
        split; [intros _ H; apply Hpaused in H; discriminate|].
        split; [|discriminate]. intros _ _. cbn. auto.
  - intros Hsame. rewrite Hsame, Hshown.
    destruct (Dialog.p_paused p) eqn:Epa.
    + rewrite (pauseResume_some d p Hp). unfold Dialog.cancel. cbn [Dialog._performer].
      destruct answer.
      * eexists. split; [reflexivity|]. split; [discriminate|]. intros _.
        cbn. rewrite Epa, Hw. eauto 10.
      * eexists. split; [reflexivity|]. split; [auto|discriminate].
    + unfold Dialog.pauseResume, Dialog.cancel. cbn.
      destruct answer.
      * eexists. split; [reflexivity|]. split; [discriminate|]. intros _.
        cbn. rewrite Hw. eauto 10.
      * eexists. split; [reflexivity|]. split; [|discriminate]. intros _.
        cbn. try rewrite Hp. destruct p as [wk pa cr]. cbn in *. subst. auto.
Qed.

(** A question that is answered while the operation finishes: the performer
    is gone when [pauseResume()] is called. *)
Example cancelPressed_after_finish :
  let d := Dialog.mkDialog (Some (Dialog.mkPerformer true false false)) "Pause"
             Dialog.psNormal true true in
  let finishes := fun yes shown => (yes, Dialog.with_performer None shown) in
  let quiet := fun yes shown => (yes, shown) in
  Dialog.cancelPressed (finishes true) d = None
  /\ Dialog.cancelPressed (finishes false) d = None
  /\ Dialog.closeEvent (finishes true) true d = None
  /\ Dialog.cancelPressed (quiet false) d = Some (false, d)
  /\ Dialog.cancelPressed (quiet true) d
     = Some (true, Dialog.mkDialog (Some (Dialog.mkPerformer true false true)) "Pause"
                     Dialog.psNormal false false).
Proof. cbv zeta. repeat split. Qed.

(** X20.  [closeEvent], with the event loop of the question taken into
    account.  An event that is not a close is ignored and changes nothing; a
    close of a dialog without a performer is accepted at once; a close of a
    dialog with a performer is accepted when [cancelPressed] answers true and
    ignored when it answers false, and it dereferences the null performer
    exactly when [cancelPressed] does.  Whenever the handler returns,
    [closed()] is emitted exactly when the event is accepted, and a close is
    never accepted while a performer at work is left without the order to
    cancel; when the close is ignored and the question has left the dialog
    as it was, the performer is as before.  [onProcessFinished] releases the
    performer first, so its close is accepted without a question. *)
Theorem closeEvent_outcome question isClose d :
  (isClose = false -> Dialog.closeEvent question isClose d = Some (Dialog.Ignored, false, d))
  /\ (isClose = true -> Dialog._performer d = None ->
      Dialog.closeEvent question isClose d = Some (Dialog.Accepted, true, d))
  /\ (isClose = true -> Dialog._performer d <> None ->
      Dialog.closeEvent question isClose d
      = match Dialog.cancelPressed question d with
        | Some (answer, d') =>
            Some (if answer then Dialog.Accepted else Dialog.Ignored, answer, d')
        | None => None
        end)
  /\ (forall outcome emitted d',
        Dialog.closeEvent question isClose d = Some (outcome, emitted, d') ->
        (outcome = Dialog.Accepted <-> emitted = true)
        /\ (outcome = Dialog.Accepted -> ~ Dialog.leftRunning d')
        /\ (outcome = Dialog.Ignored ->
            snd (question (Dialog.shownForQuestion d)) = Dialog.shownForQuestion d ->
            Dialog._performer d' = Dialog._performer d))
  /\ Dialog.onProcessFinished question d
     = Some (Dialog.Accepted, true, Dialog.with_performer None d).
Proof.
  split; [intros ->; reflexivity|].
  split; [intros -> Hn; unfold Dialog.closeEvent; now rewrite Hn|].
  split.
  { intros -> Hn. unfold Dialog.closeEvent.
    destruct (Dialog._performer d); [|contradiction]. cbn [andb].
    destruct (Dialog.cancelPressed question d) as [[[|] d']|]; reflexivity. }
  split; [|reflexivity].
  intros outcome emitted d'. unfold Dialog.closeEvent, Dialog.leftRunning.
  destruct isClose; cbn [andb].
  2:{ intros [= <- <- <-]. split; [split; discriminate|].
      split; [discriminate|reflexivity]. }
  destruct (Dialog._performer d) as [p|] eqn:Ep.
  2:{ intros [= <- <- <-]. split; [split; reflexivity|]. split; [|discriminate].
      intros _ (q & Hq & _). congruence. }
  rewrite cancelPressed_eq, Ep.
  destruct (Dialog.p_working p) eqn:Ew.
  2:{ intros [= <- <- <-]. split; [split; reflexivity|]. split; [|discriminate].
      intros _ (q & Hq & Hqw & _). congruence. }
  cbv zeta.
  assert (Hshown : Dialog.shownForQuestion d
                   = if Dialog.p_paused p then d
                     else Dialog.mkDialog
                            (Some (Dialog.mkPerformer (Dialog.p_working p) true
                                     (Dialog.p_cancelRequested p)))
                            "Resume" Dialog.psPaused
                            (Dialog.btnCancelEnabled d) (Dialog.btnPauseEnabled d)).
  { unfold Dialog.shownForQuestion. rewrite Ep, (pauseResume_some d p Ep).
    destruct (Dialog.p_paused p); reflexivity. }
  destruct (fst (question (Dialog.shownForQuestion d))).
  - unfold Dialog.pauseResume, Dialog.cancel.
    destruct (Dialog._performer (snd (question (Dialog.shownForQuestion d)))) as [q|];
      [|discriminate].
    cbn. intros [= <- <- <-]. split; [split; reflexivity|]. split; [|discriminate].
    intros _ (q' & [= <-] & _ & Hc). discriminate.
  - destruct (Dialog.p_paused p) eqn:Epa.
    + intros [= <- <- <-]. split; [split; discriminate|]. split; [discriminate|].
      intros _ ->. now rewrite Hshown.
    + unfold Dialog.pauseResume.
      destruct (Dialog._performer (snd (question (Dialog.shownForQuestion d)))) as [q|] eqn:Eq;
        [|discriminate].
      cbn. intros [= <- <- <-]. split; [split; discriminate|]. split; [discriminate|].
      intros _ Hsame. cbn. rewrite Hsame, Hshown in Eq. cbn in Eq. injection Eq as <-.
      cbn. destruct p as [wk pa cr]. cbn in *. now subst.
Qed.
(** ** The read-only attribute, set and cleared again *)

Lemma clearReadOnly_not_invalid a : clearReadOnly a <> INVALID_FILE_ATTRIBUTES.
Proof.
  intros H. apply (f_equal (fun z => Z.testbit z 0)) in H.
  unfold clearReadOnly, FILE_ATTRIBUTE_READONLY in H. rewrite !Z.land_spec in H.
  cbn in H. rewrite andb_false_r in H. discriminate.
Qed.

Lemma clearReadOnly_again a : clearReadOnly (clearReadOnly a) = clearReadOnly a.
Proof. unfold clearReadOnly. now rewrite <- Z.land_assoc, Z.land_diag. Qed.

Lemma setReadOnly_again a : setReadOnly (setReadOnly a) = setReadOnly a.
Proof. unfold setReadOnly. now rewrite <- Z.lor_assoc, Z.lor_diag. Qed.

Lemma setReadOnly_undone a :
  0 <= a < 2 ^ 32 -> Z.testbit a 0 = false -> clearReadOnly (setReadOnly a) = a.
Proof.
  intros Ha H0. apply Z.bits_inj'. intros i Hi.
  assert (H32 : 0 <= setReadOnly a < 2 ^ 32).
  { unfold setReadOnly, FILE_ATTRIBUTE_READONLY. split.
    - apply Z.lor_nonneg. lia.
    - destruct (Z.eq_dec a 0) as [->|Hne]; [reflexivity|].
      assert (Hl : Z.log2 a < 32) by (apply Z.log2_lt_pow2; lia).
      destruct (Z.eq_dec (Z.lor a 1) 0) as [->|Hne']; [lia|].
      apply Z.log2_lt_pow2; [pose proof (Z.lor_nonneg a 1); lia|].
      rewrite Z.log2_lor by lia. cbn. lia. }
  destruct (clearReadOnly_bits (setReadOnly a) H32) as [Hb Hr].
  destruct (setReadOnly_bits a) as [_ Hs].
  destruct (Z.eq_dec i 0) as [->|Hne]; [now rewrite Hb, H0|].
  rewrite Hr, Hs by lia. reflexivity.
Qed.

Lemma clearReadOnly_undone a :
  0 <= a < 2 ^ 32 -> Z.testbit a 0 = true -> setReadOnly (clearReadOnly a) = a.
Proof.
  intros Ha H0. apply Z.bits_inj'. intros i Hi.
  destruct (clearReadOnly_bits a Ha) as [_ Hr].
  destruct (setReadOnly_bits (clearReadOnly a)) as [Hb Hs].
  destruct (Z.eq_dec i 0) as [->|Hne]; [now rewrite Hb, H0|].
  rewrite Hs, Hr by lia. reflexivity.
Qed.

(** A successful [makeWritable], spelled out. *)
Lemma makeWritable_true writeable o w o1 w1 :
  makeWritable Win32 writeable o w = Some (true, o1, w1) ->
  o1 = o /\ isFile o = true
  /\ exists n,
      files w !! Win32API.key w (longPathName o) = Some n
      /\ n_denied n = false
      /\ n_attributes n <> INVALID_FILE_ATTRIBUTES
      /\ w1 = set_files
                (<[Win32API.key w (longPathName o) :=
                     Win32API.withAttributes
                       (if writeable then clearReadOnly (n_attributes n)
                        else setReadOnly (n_attributes n)) n]> (files w)) w.
Proof.
  unfold makeWritable. fold (longPathName o).
  destruct (isFile o); cbn [negb]; [|discriminate].
  unfold Win32API.GetFileAttributesW, Win32API.SetFileAttributesW.
  destruct (files w !! Win32API.key w (longPathName o)) as [n|] eqn:En; [|discriminate].
  destruct (Z.eqb_spec (n_attributes n) INVALID_FILE_ATTRIBUTES) as [|Hne]; [discriminate|].
  rewrite En. destruct (n_denied n) eqn:Ed; [discriminate|].
  cbn. intros [= <- <-]. split; [reflexivity|]. split; [reflexivity|].
  exists n. auto.
Qed.

(** [makeWritable] on a node that can be changed. *)
Lemma makeWritable_on writeable o w n :
  isFile o = true ->
  files w !! Win32API.key w (longPathName o) = Some n ->
  n_denied n = false ->
  n_attributes n <> INVALID_FILE_ATTRIBUTES ->
  makeWritable Win32 writeable o w
  = Some (true, o,
          set_files
            (<[Win32API.key w (longPathName o) :=
                 Win32API.withAttributes
                   (if writeable then clearReadOnly (n_attributes n)
                    else setReadOnly (n_attributes n)) n]> (files w)) w).
Proof.
  intros Hf Hn Hd Ha. unfold makeWritable. fold (longPathName o). rewrite Hf. cbn [negb].
  unfold Win32API.GetFileAttributesW, Win32API.SetFileAttributesW. rewrite Hn.
  destruct (Z.eqb_spec (n_attributes n) INVALID_FILE_ATTRIBUTES) as [|_]; [contradiction|].
  rewrite Hn, Hd. reflexivity.
Qed.

(** X21.  Asking twice, and asking back.  After a successful
    [makeWritable(writeable)] on Windows, a file whose attribute word is a
    32-bit word that does not become the invalid word when its read-only bit
    is set, the same request again succeeds and changes no file; and the
    opposite request succeeds too and, when the first request did change the
    read-only state, puts every file back exactly as it was before the
    two. *)
Theorem makeWritable_round_trip writeable o w o1 w1 n :
  files w !! Win32API.key w (longPathName o) = Some n ->
  0 <= n_attributes n < 2 ^ 32 ->
  setReadOnly (n_attributes n) <> INVALID_FILE_ATTRIBUTES ->
  makeWritable Win32 writeable o w = Some (true, o1, w1) ->
  (exists w2, makeWritable Win32 writeable o1 w1 = Some (true, o1, w2)
              /\ files w2 = files w1)
  /\ (exists w2, makeWritable Win32 (negb writeable) o1 w1 = Some (true, o1, w2)
                 /\ (Z.testbit (n_attributes n) 0 = writeable -> files w2 = files w)).
Proof.
  intros Hn Ha Hinv H.
  apply makeWritable_true in H as (-> & Hf & n' & Hn' & Hd & Hne & ->).
  rewrite Hn in Hn'. injection Hn' as <-.
  set (k := Win32API.key w (longPathName o)) in *.
  set (a' := if writeable then clearReadOnly (n_attributes n)
             else setReadOnly (n_attributes n)).
  set (w1 := set_files (<[k := Win32API.withAttributes a' n]> (files w)) w).
  assert (Hk : Win32API.key w1 (longPathName o) = k) by reflexivity.
  assert (Hn1 : files w1 !! Win32API.key w1 (longPathName o)
                = Some (Win32API.withAttributes a' n)).
  { rewrite Hk. cbn. apply lookup_insert_eq. }
  assert (Ha' : a' <> INVALID_FILE_ATTRIBUTES).
  { unfold a'. destruct writeable; [apply clearReadOnly_not_invalid|exact Hinv]. }
  split.
  - eexists. split.
    + apply (makeWritable_on writeable o w1 _ Hf Hn1); [exact Hd|exact Ha'].
    + rewrite Hk. cbn. rewrite insert_insert_eq. f_equal.
      unfold Win32API.withAttributes. cbn. f_equal. unfold a'.
      destruct writeable; [apply clearReadOnly_again|apply setReadOnly_again].
  - eexists. split.
    + apply (makeWritable_on (negb writeable) o w1 _ Hf Hn1); [exact Hd|exact Ha'].
    + intros Hbit. rewrite Hk. cbn. rewrite insert_insert_eq.
      apply insert_id. rewrite Hn. f_equal.
      assert (Hback : (if negb writeable then clearReadOnly a' else setReadOnly a')
                      = n_attributes n).
      { unfold a'. destruct writeable; cbn [negb].
        - now apply clearReadOnly_undone.
        - now apply setReadOnly_undone. }
      unfold Win32API.withAttributes. cbn. rewrite Hback. now destruct n.
Qed.

(** C:/docs/a.txt made read-only and writable again. *)
Lemma makeWritable_round_trip_witness :
  exists w1 w2,
    makeWritable Win32 false (Sample.object Win32 Sample.winWorld "C:/docs/a.txt")
      Sample.winWorld
    = Some (true, Sample.object Win32 Sample.winWorld "C:/docs/a.txt", w1)
    /\ makeWritable Win32 true (Sample.object Win32 Sample.winWorld "C:/docs/a.txt") w1
       = Some (true, Sample.object Win32 Sample.winWorld "C:/docs/a.txt", w2)
    /\ files w2 = files Sample.winWorld.
Proof.
  set (o := Sample.object Win32 Sample.winWorld "C:/docs/a.txt").
  assert (E : exists w1, makeWritable Win32 false o Sample.winWorld = Some (true, o, w1)).
  { eexists. vm_compute. reflexivity. }
  destruct E as [w1 E]. exists w1.
  destruct (makeWritable_round_trip false o Sample.winWorld o w1 (Sample.file "hello" 2))
    as (_ & w2 & E2 & Hback).
  - vm_compute. reflexivity.
  - vm_compute. split; [discriminate|reflexivity].
  - vm_compute. discriminate.
  - exact E.
  - exists w2. split; [exact E|]. split; [exact E2|]. apply Hback. reflexivity.
Defined.

